(** * FlowStudio execution core: a shallow embedding and its properties

    The development follows two source files of the backend:

    - [app/services/flow_execution_engine.py] (class [FlowExecutionEngine]):
      dependency graph, cycle check, execution order, input resolution and
      the sequential execution loop;
    - [app/services/flow_api_gateway.py] (class [FlowProcessManager]):
      the pool of worker processes with its port bookkeeping.

    Python dictionaries keep insertion order, so they are association lists
    with unique keys; Python sets are [gset]s (every proof only uses
    membership and size, hence holds for any iteration order); the database
    and the notifier are an explicit state that every operation threads. *)

From Stdlib Require Import ZArith List String Ascii Bool Lia DecimalString.
From Stdlib Require Import Floats.SpecFloat.
From stdpp Require Import gmap strings list.

Local Open Scope string_scope.

(** ** Python values and dictionaries *)

Module Py.

(** Result of a call that may raise: [Raise s] carries [str(e)]. *)
Inductive outcome (A : Type) : Type :=
| Ok (a : A)
| Raise (exc : string).
Arguments Ok {A} a.
Arguments Raise {A} exc.

(** JSON-shaped values, as stored in flow snapshots and component outputs. *)
#[local] Unset Elimination Schemes.
Inductive pyval : Type :=
| PNone
| PBool (b : bool)
| PInt (z : Z)
| PStr (s : string)
| PList (l : list pyval)
| PDict (d : list (string * pyval)).
#[local] Set Elimination Schemes.

(** Truth value of an object in a condition. *)
Definition truthy (v : pyval) : bool :=
  match v with
  | PNone => false
  | PBool b => b
  | PInt z => negb (z =? 0)%Z
  | PStr s => negb (String.eqb s "")
  | PList l => match l with [] => false | _ => true end
  | PDict d => match d with [] => false | _ => true end
  end.

(** [if s:] for an optional string: [None] and [""] are false. *)
Definition str_truthy (s : option string) : bool :=
  match s with
  | Some s => negb (String.eqb s "")
  | None => false
  end.

Section Dict.
Context {V : Type}.

(** [d.get(k)] *)
Fixpoint dict_get (k : string) (d : list (string * V)) : option V :=
    match d with
    | [] => None
    | (k', v) :: r => if String.eqb k k' then Some v else dict_get k r
    end.

(** [d[k] = v]: an existing key keeps its position, a new one goes last. *)
Fixpoint dict_set (k : string) (v : V) (d : list (string * V)) : list (string * V) :=
    match d with
    | [] => [(k, v)]
    | (k', v') :: r =>
        if String.eqb k k' then (k', v) :: r else (k', v') :: dict_set k v r
    end.


(** [d.update(other)] *)
Definition dict_update (d other : list (string * V)) : list (string * V) :=
    fold_left (fun acc kv => dict_set (fst kv) (snd kv) acc) other d.

Definition dict_keys (d : list (string * V)) : list string := map fst d.
End Dict.

(** ['.' in s] *)
Fixpoint contains_dot (s : string) : bool :=
  match s with
  | EmptyString => false
  | String c r => if Ascii.eqb c "."%char then true else contains_dot r
  end.

(** [s.startswith(p)] *)
Fixpoint startswith (p s : string) : bool :=
  match p with
  | EmptyString => true
  | String a p' =>
      match s with
      | EmptyString => false
      | String b s' => if Ascii.eqb a b then startswith p' s' else false
      end
  end.

(** [s.split('.', 1)[1]]: what follows the first dot ([IndexError] without one). *)
Fixpoint after_first_dot (s : string) : option string :=
  match s with
  | EmptyString => None
  | String c r => if Ascii.eqb c "."%char then Some r else after_first_dot r
  end.

(** [str(n)] for a length. *)
Definition str_of_nat (n : nat) : string := NilZero.string_of_uint (Nat.to_uint n).

(** *** [repr] of a string

    A string is the sequence of its characters, each a code point below
    256. [str(KeyError(k))] is [repr(k)]. *)

Definition single_quote : ascii := "'"%char.
Definition double_quote : ascii := "034"%char.
Definition backslash : ascii := "\"%char.

(** [c in s] for a character. *)
Fixpoint contains_char (c : ascii) (s : string) : bool :=
  match s with
  | EmptyString => false
  | String c' r => if Ascii.eqb c c' then true else contains_char c r
  end.

(** [str.isprintable] on one character below 256. *)
Definition is_printable (c : ascii) : bool :=
  let n := nat_of_ascii c in
  ((32 <=? n)%nat && (n <? 127)%nat) || ((161 <=? n)%nat && negb (n =? 173)%nat).

Definition hex_digit (n : nat) : ascii :=
  nth n ["0"; "1"; "2"; "3"; "4"; "5"; "6"; "7"; "8"; "9";
         "a"; "b"; "c"; "d"; "e"; "f"]%char "0"%char.

(** One character as [repr] writes it between the quotes [quote]. *)
Definition repr_char (quote c : ascii) : string :=
  if Ascii.eqb c quote || Ascii.eqb c backslash then String backslash (String c EmptyString)
  else if Ascii.eqb c "009"%char then "\t"
  else if Ascii.eqb c "010"%char then "\n"
  else if Ascii.eqb c "013"%char then "\r"
  else if is_printable c then String c EmptyString
  else
    String backslash
      (String "x"%char
         (String (hex_digit (nat_of_ascii c / 16)%nat)
            (String (hex_digit (nat_of_ascii c mod 16)%nat) EmptyString))).

Fixpoint repr_chars (quote : ascii) (s : string) : string :=
  match s with
  | EmptyString => EmptyString
  | String c r => (repr_char quote c ++ repr_chars quote r)%string
  end.

(** [repr(s)]: single quotes, unless the string holds a single quote and
    no double quote. *)
Definition py_repr (s : string) : string :=
  let quote :=
    if contains_char single_quote s && negb (contains_char double_quote s)
    then double_quote else single_quote in
  String quote (repr_chars quote s ++ String quote EmptyString)%string.

(** *** Floats: [int((k / n) * 100)] on IEEE-754 binary64 *)

Definition prec : Z := 53.
Definition emax : Z := 1024.

(** [float(z)], correctly rounded. *)
Definition float_of_int (z : Z) : spec_float := binary_normalize prec emax z 0 false.

(** [a / b] on ints: the correctly rounded quotient; it is the quotient of
    the two floats as long as both ints are below 2^53. *)
Definition truediv (a b : Z) : outcome spec_float :=
  if (b =? 0)%Z then Raise "division by zero"
  else Ok (SFdiv prec emax (float_of_int a) (float_of_int b)).

(** [int(x)]: truncation towards zero. *)
Definition int_of_float (x : spec_float) : outcome Z :=
  match x with
  | S754_zero _ => Ok 0%Z
  | S754_finite s m e =>
      let a := match e with
               | Z0 => Zpos m
               | Zpos p => (Zpos m * 2 ^ Zpos p)%Z
               | Zneg p => (Zpos m / 2 ^ Zpos p)%Z
               end in
      Ok (if s then (- a)%Z else a)
  | S754_infinity _ => Raise "cannot convert float infinity to integer"
  | S754_nan => Raise "cannot convert float NaN to integer"
  end.

(** [int((completed / total) * 100)] *)
Definition percent (completed total : Z) : outcome Z :=
  match truediv completed total with
  | Raise e => Raise e
  | Ok q => int_of_float (SFmul prec emax q (float_of_int 100))
  end.

(** The checks behind the table of progress values: [percent k n] is the
    exact floor of [100 k / n] or one below it, lies in 0..100, is 100 for
    [k = n], and is not below [percent (k - 1) n]. *)
Definition percent_entry_ok (n k : nat) : bool :=
  match percent (Z.of_nat k) (Z.of_nat n) with
  | Raise _ => false
  | Ok p =>
      let exact := (100 * Z.of_nat k / Z.of_nat n)%Z in
      (0 <=? p)%Z && (p <=? 100)%Z && (exact - 1 <=? p)%Z && (p <=? exact)%Z
      && (if Nat.eqb k n then (p =? 100)%Z else true)
      && match percent (Z.of_nat (k - 1)) (Z.of_nat n) with
         | Ok q => (q <=? p)%Z
         | Raise _ => false
         end
  end.

Definition percent_table_ok (bound : nat) : bool :=
  forallb (fun n => forallb (percent_entry_ok n) (seq 1 n)) (seq 1 bound).

End Py.

Export Py.

(** ** The flow snapshot: nodes and edges *)

Module Flow.

(** A node of the snapshot: [node['id']],
    [node['data']['template']['component_type']] and
    [node['data'].get('input_values')] ([None] when the key is absent). *)
Record Node : Type := mkNode {
  node_id : string;
  component_type : string;
  input_values : option (list (string * pyval));
}.

(** One entry of [edge['data']['variableMappings']]; a field is [None] when
    the mapping object lacks the key. *)
Record Mapping : Type := mkMapping {
  outputVariable : option string;
  targetVariable : option string;
}.

(** [edge.get('data', {})]: the key is absent, or holds something that is not
    an object (JSON null), or holds an object, of which the resolver reads
    the truth value of [isMultiVariableConnection] and the list
    [variableMappings] (empty when absent). *)
Inductive EdgeData : Type :=
| DataAbsent
| DataNotDict
| DataDict (isMultiVariableConnection : bool) (variableMappings : list Mapping).

Record Edge : Type := mkEdge {
  source : string;
  target : string;
  sourceHandle : option string;
  targetHandle : option string;
  data : EdgeData;
}.

End Flow.

Export Flow.

(** ** Dependency graph, validation and execution order *)

Module Graph.

(** [Dict[str, Set[str]]]: node id -> ids it depends on. *)
Definition graph : Type := list (string * gset string).

(** [graph.get(node_id, set())] *)
Definition deps (g : graph) (n : string) : gset string :=
  default ∅ (dict_get n g).

(** [_build_execution_graph]: every node starts with an empty set, then each
    edge adds its source to the set of its target ([defaultdict(set)] creates
    the entry of a target that is not a node). *)
Definition build_execution_graph (nodes : list Node) (edges : list Edge) : graph :=
  let g0 := fold_left (fun g node => dict_set (node_id node) ∅ g) nodes [] in
  fold_left
    (fun g edge => dict_set (target edge) ({[ source edge ]} ∪ deps g (target edge)) g)
    edges g0.

(** The two sets of the cycle check: [visited] and [rec_stack]. *)
Definition dfs_state : Type := gset string * gset string.

(** The loop [for dependency in graph.get(node_id, set())] of [has_cycle],
    over the recursive call [rec]; it stops at the first [True]. *)
Fixpoint for_dependencies (rec : string -> dfs_state -> option (bool * dfs_state))
    (ds : list string) (st : dfs_state) : option (bool * dfs_state) :=
  match ds with
  | [] => Some (false, st)
  | d :: ds' =>
      match rec d st with
      | None => None
      | Some (true, st') => Some (true, st')
      | Some (false, st') => for_dependencies rec ds' st'
      end
  end.

(** The nested function [has_cycle] of [_validate_execution_graph]. It is
    recursive, one interpreter frame per level: [fuel] is the number of
    nested calls the interpreter still allows, and [None] stands for the
    [RecursionError] that one call too many raises. *)
Fixpoint has_cycle (fuel : nat) (g : graph) (n : string) (st : dfs_state)
    : option (bool * dfs_state) :=
  match fuel with
  | O => None
  | S fuel' =>
      let '(visited, rec_stack) := st in
      if bool_decide (n ∈ rec_stack) then Some (true, st)
      else if bool_decide (n ∈ visited) then Some (false, st)
      else
        match for_dependencies (has_cycle fuel' g) (elements (deps g n))
                ({[ n ]} ∪ visited, {[ n ]} ∪ rec_stack) with
        | Some (false, (visited', rec_stack')) =>
            Some (false, (visited', rec_stack' ∖ {[ n ]}))
        | r => r
        end
  end.

(** The loop [for node in nodes] of [_validate_execution_graph]. *)
Fixpoint validate_nodes (fuel : nat) (g : graph) (nodes : list Node) (st : dfs_state)
    : option bool :=
  match nodes with
  | [] => Some true
  | node :: rest =>
      if bool_decide (node_id node ∈ fst st) then validate_nodes fuel g rest st
      else
        match has_cycle fuel g (node_id node) st with
        | None => None
        | Some (true, _) => Some false
        | Some (false, st') => validate_nodes fuel g rest st'
        end
  end.

(** Every id the traversal can meet: the keys and the members of the sets. *)
Definition graph_ids (g : graph) : gset string :=
  fold_right (fun kv acc => {[ fst kv ]} ∪ snd kv ∪ acc) ∅ g.

(** [_validate_execution_graph] when the interpreter allows [frames] nested
    calls of [has_cycle]: [None] stands for the [RecursionError] that leaves
    the function when the recursion goes deeper. *)
Definition validate_within (frames : nat) (g : graph) (nodes : list Node) : option bool :=
  validate_nodes frames g nodes (∅, ∅).

(** What [_validate_execution_graph] returns when the recursion limit is
    not met. The recursion of [has_cycle] is never deeper than the number
    of ids of the graph ([validate_nodes_total] below), so the default is
    never used; [validate_within] agrees with it as soon as [frames]
    exceeds that number ([validate_within_enough] below). *)
Definition validate_execution_graph (g : graph) (nodes : list Node) : bool :=
  default false (validate_nodes (S (size (graph_ids g))) g nodes (∅, ∅)).

(** [in_degree]: zero for every node, then the size of each dependency set. *)
Definition initial_in_degree (g : graph) (nodes : list Node) : list (string * Z) :=
  let d0 := fold_left (fun d node => dict_set (node_id node) 0%Z d) nodes [] in
  fold_left (fun d kv => dict_set (fst kv) (Z.of_nat (size (snd kv))) d) g d0.

(** [deque(node_id for node_id, degree in in_degree.items() if degree == 0)] *)
Definition initial_queue (in_degree : list (string * Z)) : list string :=
  map fst (filter (fun kv => snd kv = 0%Z) in_degree).

(** The inner loop of the sort, for the node [current] just taken from the
    queue: every entry of the graph that depends on it loses one in-degree
    and joins the queue when it reaches zero. [in_degree] holds every key
    of the graph, so the lookup cannot fail. *)
Definition release_dependents (g : graph) (current : string)
    (st : list (string * Z) * list string) : list (string * Z) * list string :=
  fold_left
    (fun (acc : list (string * Z) * list string) (kv : string * gset string) =>
       let '(in_degree, queue) := acc in
       let '(n, dependencies) := kv in
       if bool_decide (current ∈ dependencies) then
         let d := (default 0 (dict_get n in_degree) - 1)%Z in
         (dict_set n d in_degree, if (d =? 0)%Z then (queue ++ [n])%list else queue)
       else (in_degree, queue))
    g st.

(** [while queue: ...]; [fuel] bounds the number of iterations. *)
Fixpoint kahn_loop (fuel : nat) (g : graph) (in_degree : list (string * Z))
    (queue execution_order : list string) : option (list string) :=
  match fuel with
  | O => None
  | S fuel' =>
      match queue with
      | [] => Some execution_order
      | current :: queue' =>
          let '(in_degree', queue'') := release_dependents g current (in_degree, queue') in
          kahn_loop fuel' g in_degree' queue'' (execution_order ++ [current])%list
      end
  end.

(** The order the loop produces; it runs at most once per key of [in_degree]
    ([kahn_total] below). *)
Definition kahn (g : graph) (nodes : list Node) : option (list string) :=
  let in_degree := initial_in_degree g nodes in
  kahn_loop (S (length in_degree)) g in_degree (initial_queue in_degree) [].

(** [_calculate_execution_order] *)
Definition calculate_execution_order (g : graph) (nodes : list Node) : outcome (list string) :=
  match kahn g nodes with
  | Some execution_order =>
      if bool_decide (length execution_order ≠ length nodes) then
        Raise "Unable to determine execution order - graph may contain cycles"
      else Ok execution_order
  | None => Raise "execution order: iteration bound exceeded"
  end.

(** *** Vocabulary of the statements *)

(** [dep g n m]: node [n] depends on node [m]. *)
Definition dep (g : graph) (n m : string) : Prop := m ∈ deps g n.

(** A cycle is a node that reaches itself along dependencies. *)
Definition has_a_cycle (g : graph) : Prop := exists n, tc (dep g) n n.
Definition acyclic (g : graph) : Prop := forall n, ~ tc (dep g) n n.

(** [a] comes before [b] in [l]. *)
Definition before (a b : string) (l : list string) : Prop :=
  exists l1 l2 l3, l = (l1 ++ a :: l2 ++ b :: l3)%list.

Definition node_ids (nodes : list Node) : list string := map node_id nodes.

(** The invariant of the data model: both endpoints of an edge are nodes
    of the snapshot. *)
Definition edges_reference_nodes (nodes : list Node) (edges : list Edge) : Prop :=
  forall e, e ∈ edges -> source e ∈ node_ids nodes /\ target e ∈ node_ids nodes.


(** *** Invariants used in the proofs *)

(** Finished nodes: visited and no longer on the recursion stack. Their
    dependencies are finished too, and none of them lies on a cycle. *)
Definition finished_ok (g : graph) (visited rec_stack : gset string) : Prop :=
  (forall b, b ∈ visited -> b ∉ rec_stack -> forall m, m ∈ deps g b -> m ∈ visited /\ m ∉ rec_stack)
  /\ (forall b, b ∈ visited -> b ∉ rec_stack -> ~ tc (dep g) b b).

(** What a call of [has_cycle] that returns [False] establishes. *)
Definition returns_false (g : graph) (n : string) (visited rec_stack : gset string)
    (r : option (bool * dfs_state)) : Prop :=
  exists b visited' rec_stack',
    r = Some (b, (visited', rec_stack'))
    /\ (b = false ->
        rec_stack' = rec_stack /\ visited ⊆ visited' /\ n ∈ visited' /\ (n ∉ rec_stack)
        /\ finished_ok g visited' rec_stack).

(** The invariant of [while queue], over the keys [K] of [in_degree]:
    the in-degree of a node counts its unprocessed dependencies, a node is
    queued or placed exactly when none is left, and every placed node comes
    after all its dependencies. *)
Definition kahn_inv (g : graph) (K : list string) (in_degree : list (string * Z))
    (queue order : list string) : Prop :=
  NoDup (order ++ queue)
  /\ dict_keys in_degree = K
  /\ (forall n, n ∈ K ->
        dict_get n in_degree = Some (Z.of_nat (size (deps g n ∖ list_to_set order))))
  /\ (forall n, n ∈ (order ++ queue)%list <-> n ∈ K /\ deps g n ⊆ list_to_set order)
  /\ (forall l1 t l2, order = (l1 ++ t :: l2)%list -> deps g t ⊆ list_to_set l1).

End Graph.

Export Graph.

(** ** Input resolution: [_prepare_component_input] *)

Module Resolver.

(** [source_output['output']] when [source_output] is a dict with that key. *)
Definition nested_output (source_output : pyval) : option pyval :=
  match source_output with
  | PDict d => dict_get "output" d
  | _ => None
  end.

(** [for mapping in edge_data['variableMappings']]: both names are read
    first ([KeyError] when one is missing), then the field is copied when the
    nested output has it. *)
Fixpoint apply_mappings (mappings : list Mapping) (output_content : list (string * pyval))
    (input_data : list (string * pyval)) : outcome (list (string * pyval)) :=
  match mappings with
  | [] => Ok input_data
  | mapping :: rest =>
      match outputVariable mapping with
      | None => Raise "'outputVariable'"
      | Some output_var =>
          match targetVariable mapping with
          | None => Raise "'targetVariable'"
          | Some target_var =>
              apply_mappings rest output_content
                (match dict_get output_var output_content with
                 | Some v => dict_set target_var v input_data
                 | None => input_data
                 end)
          end
      end
  end.

(** The branch [source_handle == 'output'] with a nested output. *)
Definition resolve_single_output (output_content : pyval) (target_handle : option string)
    (input_data : list (string * pyval)) : outcome (list (string * pyval)) :=
  match output_content with
  | PDict content =>
      match target_handle with
      | Some th =>
          if String.eqb th "" then Ok (dict_update input_data content)
          else
            match dict_get th content with
            | Some v => Ok (dict_set th v input_data)
            | None =>
                if contains_dot th && startswith "output." th then
                  match after_first_dot th with
                  | None => Raise "list index out of range"
                  | Some var_name =>
                      match dict_get var_name content with
                      | Some v => Ok (dict_set th v input_data)
                      | None => Ok input_data
                      end
                  end
                else Ok (dict_update input_data content)
            end
      | None => Ok (dict_update input_data content)
      end
  | _ =>
      match target_handle with
      | Some th => if String.eqb th "" then Ok input_data else Ok (dict_set th output_content input_data)
      | None => Ok input_data
      end
  end.

(** The branch [source_handle] of the form [output.<field>]. *)
Definition resolve_dotted_source (source_handle : string) (output_content : pyval)
    (target_handle : option string) (input_data : list (string * pyval))
    : outcome (list (string * pyval)) :=
  match after_first_dot source_handle with
  | None => Raise "list index out of range"
  | Some var_name =>
      match output_content, target_handle with
      | PDict content, Some th =>
          match dict_get var_name content with
          | Some v => if String.eqb th "" then Ok input_data else Ok (dict_set th v input_data)
          | None => Ok input_data
          end
      | _, _ => Ok input_data
      end
  end.

(** The legacy branch: [source_handle] is a key of the source output. *)
Definition resolve_legacy (source_handle : string) (source_output : pyval)
    (target_handle : option string) (input_data : list (string * pyval))
    : list (string * pyval) :=
  match source_output, target_handle with
  | PDict d, Some th =>
      match dict_get source_handle d with
      | Some v => if String.eqb th "" then input_data else dict_set th v input_data
      | None => input_data
      end
  | _, _ => input_data
  end.

(** The body of [for edge in edges]. *)
Definition resolve_edge (node_id : string) (component_outputs : list (string * pyval))
    (input_data : list (string * pyval)) (edge : Edge) : outcome (list (string * pyval)) :=
  if negb (String.eqb (target edge) node_id) then Ok input_data
  else
    match dict_get (source edge) component_outputs, sourceHandle edge with
    | Some source_output, Some source_handle =>
        if String.eqb source_handle "" then Ok input_data
        else
          match data edge with
          | DataNotDict => Raise "'NoneType' object has no attribute 'get'"
          | edge_data =>
              let '(is_multi, mappings) :=
                match edge_data with
                | DataDict b ms => (b, ms)
                | _ => (false, [])
                end in
              if is_multi && match mappings with [] => false | _ => true end then
                match nested_output source_output with
                | Some (PDict content) => apply_mappings mappings content input_data
                | _ => Ok input_data
                end
              else
                match nested_output source_output with
                | Some output_content =>
                    if String.eqb source_handle "output" then
                      resolve_single_output output_content (targetHandle edge) input_data
                    else if contains_dot source_handle && startswith "output." source_handle then
                      resolve_dotted_source source_handle output_content (targetHandle edge) input_data
                    else Ok (resolve_legacy source_handle source_output (targetHandle edge) input_data)
                | None =>
                    Ok (resolve_legacy source_handle source_output (targetHandle edge) input_data)
                end
          end
    | _, _ => Ok input_data
    end.

Fixpoint resolve_edges (node_id : string) (component_outputs : list (string * pyval))
    (edges : list Edge) (input_data : list (string * pyval))
    : outcome (list (string * pyval)) :=
  match edges with
  | [] => Ok input_data
  | edge :: rest =>
      match resolve_edge node_id component_outputs input_data edge with
      | Ok input_data' => resolve_edges node_id component_outputs rest input_data'
      | Raise e => Raise e
      end
  end.

(** [_prepare_component_input]: the configured values first, then the edges
    in list order. *)
Definition prepare_component_input (node_id : string) (edges : list Edge)
    (component_outputs : list (string * pyval)) (node : Node)
    : outcome (list (string * pyval)) :=
  let configured_inputs := default [] (input_values node) in
  resolve_edges node_id component_outputs edges (dict_update [] configured_inputs).

(** Well-formedness of an edge as the data model has it: its [data], when
    present, is an object and every variable mapping names both ends. *)
Definition wf_edge (edge : Edge) : Prop :=
  match data edge with
  | DataAbsent => True
  | DataNotDict => False
  | DataDict _ mappings =>
      forall m, m ∈ mappings -> is_Some (outputVariable m) /\ is_Some (targetVariable m)
  end.


(** [edge_data.get('isMultiVariableConnection') and edge_data.get('variableMappings')] *)
Definition is_multi_variable (edge : Edge) : bool :=
  match data edge with
  | DataDict true (_ :: _) => true
  | _ => false
  end.



End Resolver.

Export Resolver.

(** ** The execution coordinator: [FlowExecutionEngine.execute_flow] *)

Module Engine.

(** [ExecutionContext] (without the database handle). *)
Record ExecutionContext : Type := mkContext {
  ctx_component_id : string;
  ctx_component_type : string;
  ctx_config_data : Node;
  ctx_input_data : list (string * pyval);
}.

(** [ExecutionResult] *)
Record ExecutionResult : Type := mkResult {
  success : bool;
  output_data : pyval;
  execution_time_ms : Z;
  error_message : option string;
  error_details : option pyval;
}.

(** [executor.execute(context)] either returns a result or raises. *)
Definition Executor : Type := ExecutionContext -> outcome ExecutionResult.

(** [ComponentExecutorFactory._executors]: component type -> executor. *)
Definition ExecutorFactory : Type := string -> option Executor.

(** Row of [flow_studio_executions] (timestamps left out). *)
Record FlowExecution : Type := mkFlowExecution {
  status : string;
  progress : Z;
  total_components : Z;
  completed_components : Z;
  fe_error_message : option string;
  final_output : option (list (string * pyval));
}.

(** Row of [flow_studio_component_executions] (timestamps left out). *)
Record ComponentExecution : Type := mkComponentExecution {
  component_id : string;
  ce_component_type : string;
  ce_status : string;
  execution_order : Z;
  ce_output_data : option pyval;
  ce_execution_time_ms : option Z;
  ce_error_message : option string;
  ce_error_details : option pyval;
}.

(** Calls to [execution_notifier]. *)
Inductive Notification : Type :=
| execution_started
| execution_progress (progress : Z)
| component_started (component_id : string)
| component_completed (component_id : string)
| component_failed (component_id : string) (error : string)
| execution_completed (results : list (string * pyval))
| execution_failed (error : string).

(** What a run can observe and change: its execution row, its component
    rows (in creation order, which is ascending [execution_order]), its log
    entries (level, message) and the notifications sent, oldest first. *)
Record Db : Type := mkDb {
  execution : FlowExecution;
  component_executions : list ComponentExecution;
  execution_logs : list (string * string);
  notifications : list Notification;
}.

(** State and exceptions. *)
Definition M (A : Type) : Type := Db -> Db * outcome A.

Definition ret {A : Type} (a : A) : M A := fun db => (db, Ok a).

Definition bind {A B : Type} (c : M A) (k : A -> M B) : M B :=
  fun db =>
    match c db with
    | (db', Ok a) => k a db'
    | (db', Raise e) => (db', Raise e)
    end.

Definition raise {A : Type} (e : string) : M A := fun db => (db, Raise e).

Definition lift {A : Type} (o : outcome A) : M A := fun db => (db, o).

(** [try: body except Exception as e: handler(e)] *)
Definition try_except {A : Type} (body : M A) (handler : string -> M A) : M A :=
  fun db =>
    match body db with
    | (db', Ok a) => (db', Ok a)
    | (db', Raise e) => handler e db'
    end.

Definition modify (f : Db -> Db) : M unit := fun db => (f db, Ok tt).

Declare Scope engine_scope.
Delimit Scope engine_scope with engine.
Notation "x <- c1 ;; c2" := (bind c1 (fun x => c2))
  (at level 100, c1 at next level, right associativity) : engine_scope.
Notation "c1 ;; c2" := (bind c1 (fun _ => c2))
  (at level 100, right associativity) : engine_scope.
Local Open Scope engine_scope.

Definition set_execution (f : FlowExecution -> FlowExecution) (db : Db) : Db :=
  mkDb (f (execution db)) (component_executions db) (execution_logs db) (notifications db).

(** [update(...).where(component_id == cid)] applied to one row. *)
Definition on_component (cid : string) (f : ComponentExecution -> ComponentExecution)
    (ce : ComponentExecution) : ComponentExecution :=
  if String.eqb (component_id ce) cid then f ce else ce.

(** [update(ComponentExecution).where(component_id == ...)] *)
Definition set_component (cid : string) (f : ComponentExecution -> ComponentExecution)
    (db : Db) : Db :=
  mkDb (execution db)
    (map (on_component cid f) (component_executions db))
    (execution_logs db) (notifications db).

(** [_log_execution] *)
Definition log_execution (level message : string) : M unit :=
  modify (fun db =>
    mkDb (execution db) (component_executions db)
      (execution_logs db ++ [(level, message)])%list (notifications db)).

(** A call to the notifier. *)
Definition notify (n : Notification) : M unit :=
  modify (fun db =>
    mkDb (execution db) (component_executions db) (execution_logs db)
      (notifications db ++ [n])%list).

(** [_update_execution_status]: the message is stored when it is non-empty. *)
Definition update_execution_status (new_status : string) (message : option string) : M unit :=
  modify (set_execution (fun ex =>
    mkFlowExecution new_status (progress ex) (total_components ex) (completed_components ex)
      (if str_truthy message then message else fe_error_message ex)
      (final_output ex))).

(** [_update_component_status] *)
Definition update_component_status (cid new_status : string) (message : option string) : M unit :=
  modify (set_component cid (fun ce =>
    mkComponentExecution (component_id ce) (ce_component_type ce) new_status
      (execution_order ce) (ce_output_data ce) (ce_execution_time_ms ce)
      (if str_truthy message then message else ce_error_message ce)
      (ce_error_details ce))).

(** [_update_component_execution] *)
Definition update_component_execution (cid : string) (result : ExecutionResult) : M unit :=
  modify (set_component cid (fun ce =>
    mkComponentExecution (component_id ce) (ce_component_type ce)
      (if success result then "completed" else "failed")
      (execution_order ce) (Some (output_data result)) (Some (execution_time_ms result))
      (if success result then ce_error_message ce else error_message result)
      (if success result then ce_error_details ce else error_details result))).

(** [_update_execution_progress] *)
Definition update_execution_progress (completed total : Z) : M unit :=
  p <- lift (percent completed total) ;;
  modify (set_execution (fun ex =>
    mkFlowExecution (status ex) p (total_components ex) completed
      (fe_error_message ex) (final_output ex))).

(** [{node['id']: node for node in nodes}] *)
Definition node_map (nodes : list Node) : list (string * Node) :=
  fold_left (fun m node => dict_set (node_id node) node m) nodes [].

(** [node_map[node_id]]: a missing key raises [KeyError(node_id)], whose
    text is [repr(node_id)]. *)
Definition lookup_node (nodes : list Node) (nid : string) : M Node :=
  match dict_get nid (node_map nodes) with
  | Some node => ret node
  | None => raise (py_repr nid)
  end.

(** [_create_component_execution_records] *)
Fixpoint create_records_from (i : nat) (nodes : list Node) (order : list string) : M unit :=
  match order with
  | [] => ret tt
  | nid :: rest =>
      node <- lookup_node nodes nid ;;
      modify (fun db =>
        mkDb (execution db)
          (component_executions db ++
             [mkComponentExecution nid (component_type node) "pending" (Z.of_nat i)
                None None None None])%list
          (execution_logs db) (notifications db)) ;;
      create_records_from (S i) nodes rest
  end.

Definition create_component_execution_records (nodes : list Node) (order : list string) : M unit :=
  create_records_from 0 nodes order.

Section WithExecutors.

Variable executor_factory : ExecutorFactory.

(** [ComponentExecutorFactory.get_executor] *)
Definition get_executor (ctype : string) : M Executor :=
  match executor_factory ctype with
  | Some executor => ret executor
  | None => raise ("Unknown component type: " ++ ctype)
  end.

(** The [try] block of [_execute_components] for the node at index [i];
    it returns the updated [component_outputs]. *)
Definition run_component (edges : list Edge) (total i : nat) (nid : string) (node : Node)
    (component_outputs : list (string * pyval)) : M (list (string * pyval)) :=
  log_execution "info" ("Executing component: " ++ nid) ;;
  update_component_status nid "running" None ;;
  notify (component_started nid) ;;
  input_data <- lift (prepare_component_input nid edges component_outputs node) ;;
  executor <- get_executor (component_type node) ;;
  result <- lift (executor (mkContext nid (component_type node) node input_data)) ;;
  let component_outputs' := dict_set nid (output_data result) component_outputs in
  update_component_execution nid result ;;
  notify (component_completed nid) ;;
  update_execution_progress (Z.of_nat (i + 1)) (Z.of_nat total) ;;
  p <- lift (percent (Z.of_nat (i + 1)) (Z.of_nat total)) ;;
  notify (execution_progress p) ;;
  ret component_outputs'.

(** The [except] block of [_execute_components]: record the failure and
    raise again. *)
Definition component_failure (nid : string) (e : string) : M (list (string * pyval)) :=
  update_component_status nid "failed" (Some e) ;;
  log_execution "error" ("Component " ++ nid ++ " failed: " ++ e) ;;
  notify (component_failed nid e) ;;
  raise e.

(** [for i, node_id in enumerate(execution_order)], from index [i] on. *)
Fixpoint execute_components_from (nodes : list Node) (edges : list Edge) (total i : nat)
    (order : list string) (component_outputs : list (string * pyval)) : M unit :=
  match order with
  | [] => ret tt
  | nid :: rest =>
      node <- lookup_node nodes nid ;;
      component_outputs' <-
        try_except (run_component edges total i nid node component_outputs)
                   (component_failure nid) ;;
      execute_components_from nodes edges total (S i) rest component_outputs'
  end.

(** [_execute_components] *)
Definition execute_components (nodes : list Node) (edges : list Edge)
    (execution_order : list string) : M unit :=
  execute_components_from nodes edges (length execution_order) 0 execution_order [].

(** The recognised output-sink types of [_finalize_execution]. *)
Definition is_output_type (ctype : string) : bool :=
  String.eqb ctype "text_output" || String.eqb ctype "file_output"
  || String.eqb ctype "data_output".

(** [final_output] of [_finalize_execution]. *)
Definition collect_final_output (ces : list ComponentExecution) : list (string * pyval) :=
  fold_left
    (fun acc ce =>
       match ce_output_data ce with
       | Some out =>
           if truthy out && is_output_type (ce_component_type ce)
           then dict_set (component_id ce) out acc else acc
       | None => acc
       end)
    ces [].

(** [_finalize_execution] *)
Definition finalize_execution : M unit :=
  fun db =>
    let ces := component_executions db in
    if forallb (fun ce => String.eqb (ce_status ce) "completed") ces then
      let out := collect_final_output ces in
      (modify (set_execution (fun ex =>
         mkFlowExecution "completed" (progress ex) (total_components ex)
           (completed_components ex) (fe_error_message ex) (Some out))) ;;
       log_execution "info" "Flow execution completed successfully" ;;
       notify (execution_completed out)) db
    else
      (update_execution_status "failed" (Some "One or more components failed") ;;
       notify (execution_failed "One or more components failed")) db.

(** The [try] block of [execute_flow]. *)
Definition execute_flow_body (nodes : list Node) (edges : list Edge) : M unit :=
  match nodes with
  | [] => update_execution_status "completed" (Some "No components to execute")
  | _ =>
      let execution_graph := build_execution_graph nodes edges in
      if negb (validate_execution_graph execution_graph nodes) then
        update_execution_status "failed" (Some "Invalid flow structure")
      else
        execution_order <- lift (calculate_execution_order execution_graph nodes) ;;
        create_component_execution_records nodes execution_order ;;
        update_execution_status "running" None ;;
        log_execution "info"
          ("Starting execution of " ++ str_of_nat (length nodes) ++ " components") ;;
        notify execution_started ;;
        execute_components nodes edges execution_order ;;
        finalize_execution
  end.

(** The [except] block of [execute_flow]. *)
Definition execution_failure (e : string) : M unit :=
  update_execution_status "failed" (Some e) ;;
  log_execution "error" ("Execution failed: " ++ e) ;;
  notify (execution_failed e) ;;
  raise e.

(** The state [_create_execution_record] leaves: a pending execution. *)
Definition create_execution_record (nodes : list Node) : Db :=
  mkDb (mkFlowExecution "pending" 0 (Z.of_nat (length nodes)) 0 None None) [] [] [].

(** [execute_flow] for a flow that exists, with snapshot [nodes], [edges]:
    the final state and whether the call returned or raised. *)
Definition execute_flow (nodes : list Node) (edges : list Edge) : Db * outcome unit :=
  try_except (execute_flow_body nodes edges) execution_failure
    (create_execution_record nodes).

(** *** Vocabulary of the statements *)

(** One iteration of the loop: the [try] block with its [except] block. *)
Definition run_node (edges : list Edge) (total i : nat) (nid : string) (node : Node)
    (component_outputs : list (string * pyval)) : M (list (string * pyval)) :=
  try_except (run_component edges total i nid node component_outputs)
             (component_failure nid).

(** The loop of [_execute_components], returning [component_outputs]. *)
Fixpoint run_order (nodes : list Node) (edges : list Edge) (total i : nat)
    (order : list string) (component_outputs : list (string * pyval))
    : M (list (string * pyval)) :=
  match order with
  | [] => ret component_outputs
  | nid :: rest =>
      node <- lookup_node nodes nid ;;
      component_outputs' <- run_node edges total i nid node component_outputs ;;
      run_order nodes edges total (S i) rest component_outputs'
  end.




End WithExecutors.

(** The rows [_create_component_execution_records] adds, up to the first
    id that is not a node. *)
Fixpoint pending_records (i : nat) (nodes : list Node) (order : list string)
    : list ComponentExecution :=
  match order with
  | [] => []
  | nid :: rest =>
      match dict_get nid (node_map nodes) with
      | Some node =>
          mkComponentExecution nid (component_type node) "pending" (Z.of_nat i)
            None None None None :: pending_records (S i) nodes rest
      | None => []
      end
  end.

(** The state in which the loop of [_execute_components] starts. *)
Definition running_db (nodes : list Node) (order : list string) : Db :=
  mkDb (mkFlowExecution "running" 0 (Z.of_nat (length nodes)) 0 None None)
    (pending_records 0 nodes order)
    [("info", "Starting execution of " ++ str_of_nat (length nodes) ++ " components")]
    [execution_started].

(** [component_outputs] when the loop has run the nodes [pre], the first
    nodes of [order] (it raises what the loop raised on the way). *)
Definition outputs_after (executor_factory : ExecutorFactory) (nodes : list Node)
    (edges : list Edge) (order pre : list string) : outcome (list (string * pyval)) :=
  (run_order executor_factory nodes edges (length order) 0 pre [] (running_db nodes order)).2.

(** A [component_started] notification was sent for [nid]. *)
Definition started (nid : string) (db : Db) : Prop :=
  component_started nid ∈ notifications db.

(** Node [nid] has a component row, and its rows have status [s]. *)
Definition record_status (nid s : string) (db : Db) : Prop :=
  (exists ce, ce ∈ component_executions db /\ component_id ce = nid)
  /\ forall ce, ce ∈ component_executions db -> component_id ce = nid -> ce_status ce = s.

(** The progress values sent to the notifier, oldest first. *)
Fixpoint progress_values (ns : list Notification) : list Z :=
  match ns with
  | [] => []
  | execution_progress p :: rest => p :: progress_values rest
  | _ :: rest => progress_values rest
  end.

(** The ids of the components started, oldest first. *)
Fixpoint started_ids (ns : list Notification) : list string :=
  match ns with
  | [] => []
  | component_started nid :: rest => nid :: started_ids rest
  | _ :: rest => started_ids rest
  end.

(** What identifies a component row: its id, type and position. *)
Definition row_key (ce : ComponentExecution) : string * string * Z :=
  (component_id ce, ce_component_type ce, execution_order ce).

(** [TextOutputExecutor.execute]: the text is passed through under two
    keys; [elapsed] is what [_measure_execution_time] returns. Nothing in
    its [try] block can raise. *)
Definition TextOutputExecutor (elapsed : ExecutionContext -> Z) : Executor :=
  fun context =>
    let input_text := default (PStr "") (dict_get "text" (ctx_input_data context)) in
    Ok (mkResult true (PDict [("text", input_text); ("formatted_output", input_text)])
          (elapsed context) None None).

End Engine.

Export Engine.

(** ** The worker pool: [FlowProcessManager] *)

Module Gateway.

(** [FlowProcess]; times are seconds, the [Popen] handle is left to the
    environment below. *)
Record FlowProcess : Type := mkFlowProcess {
  flow_id : string;
  flow_version : string;
  process_id : Z;
  port : Z;
  start_time : Z;
  last_request_time : Z;
  request_count : Z;
  fp_status : string;
}.

(** The fields of [FlowAPIConfig] the manager reads. *)
Record FlowAPIConfig : Type := mkConfig {
  cfg_flow_id : string;
  cfg_flow_version : string;
}.

(** [FlowProcessManager]: the registry [processes], the free ports
    [port_pool] and [used_ports]. *)
Record FlowProcessManager : Type := mkManager {
  base_port : Z;
  max_processes : Z;
  processes : gmap string FlowProcess;
  port_pool : gset Z;
  used_ports : gset Z;
}.

(** [set(range(base_port, base_port + max_processes))] *)
Definition port_range (base count : Z) : gset Z := list_to_set (seqZ base count).

(** [__init__] *)
Definition new_manager (base count : Z) : FlowProcessManager :=
  mkManager base count ∅ (port_range base count) ∅.

(** [get_process_key] *)
Definition get_process_key (fid version : string) : string := fid ++ ":" ++ version.

(** What [process.communicate(timeout=1)] gives after a failed start. *)
Inductive Communicate : Type :=
| communicated (stdout stderr : string)
| communicate_failed.

(** What the environment does when a process is created: writing the
    script or spawning may raise; a spawned process either answers the
    health poll within the timeout or does not. *)
Inductive Startup : Type :=
| script_error (e : string)
| spawn_error (e : string)
| became_ready (pid : Z)
| timed_out (pid : Z) (diagnostics : Communicate).

(** The environment of one call: the clock, the element [set.pop()]
    returns, how the start-up goes, whether the health probe of an existing
    process succeeds, and for which processes [terminate] raises. *)
Record Env : Type := mkEnv {
  now : Z;
  popped : Z;
  startup : Startup;
  healthy : bool;
  terminate_raises : FlowProcess -> bool;
}.

(** [set.pop()] returns a member of the set. *)
Definition env_ok (m : FlowProcessManager) (env : Env) : Prop :=
  popped env ∈ port_pool m.

Definition set_status (s : string) (fp : FlowProcess) : FlowProcess :=
  mkFlowProcess (flow_id fp) (flow_version fp) (process_id fp) (port fp)
    (start_time fp) (last_request_time fp) (request_count fp) s.

(** [error_details] of [_wait_for_process_ready]. *)
Definition error_details_of (c : Communicate) : string :=
  match c with
  | communicated stdout stderr =>
      if negb (String.eqb stderr "") then stderr
      else if negb (String.eqb stdout "") then stdout
      else "Unknown error"
  | communicate_failed => "Process communication failed"
  end.

(** The message of the exception [_wait_for_process_ready] raises. *)
Definition startup_timeout_message (c : Communicate) : string :=
  "Process failed to start within 30 seconds. Error: " ++ error_details_of c.

(** [_create_process] *)
Definition create_process (env : Env) (config : FlowAPIConfig) (m : FlowProcessManager)
    : FlowProcessManager * outcome FlowProcess :=
  if bool_decide (port_pool m = ∅) then
    (m, Raise "No available ports for new process")
  else
    let p := popped env in
    let pool := port_pool m ∖ {[ p ]} in
    let used := {[ p ]} ∪ used_ports m in
    let key := get_process_key (cfg_flow_id config) (cfg_flow_version config) in
    (* the [except] block: the port goes back, the registry stays as it is *)
    let failed (registry : gmap string FlowProcess) (e : string) :=
      (mkManager (base_port m) (max_processes m) registry ({[ p ]} ∪ pool) (used ∖ {[ p ]}),
       Raise ("Failed to create flow process: " ++ e)) in
    match startup env with
    | script_error e => failed (processes m) e
    | spawn_error e => failed (processes m) e
    | became_ready pid =>
        let flow_process :=
          mkFlowProcess (cfg_flow_id config) (cfg_flow_version config) pid p
            (now env) (now env) 0 "ready" in
        (mkManager (base_port m) (max_processes m) (<[ key := flow_process ]> (processes m))
           pool used,
         Ok flow_process)
    | timed_out pid diagnostics =>
        let flow_process :=
          mkFlowProcess (cfg_flow_id config) (cfg_flow_version config) pid p
            (now env) (now env) 0 "error" in
        failed (<[ key := flow_process ]> (processes m)) (startup_timeout_message diagnostics)
    end.

(** [_stop_process] *)
Definition stop_process (env : Env) (flow_process : FlowProcess) (m : FlowProcessManager)
    : FlowProcessManager :=
  if terminate_raises env flow_process then m
  else
    mkManager (base_port m) (max_processes m)
      (delete (get_process_key (flow_id flow_process) (flow_version flow_process)) (processes m))
      ({[ port flow_process ]} ∪ port_pool m)
      (used_ports m ∖ {[ port flow_process ]}).

(** [_cleanup_idle_processes] *)
Definition cleanup_idle_processes (env : Env) (force : bool) (m : FlowProcessManager)
    : FlowProcessManager :=
  let to_remove :=
    filter (fun fp => force = true \/ (now env - last_request_time fp > 300)%Z)
      (map snd (map_to_list (processes m))) in
  fold_left (fun m' fp => stop_process env fp m') to_remove m.

(** [get_or_create_process] *)
Definition get_or_create_process (env : Env) (config : FlowAPIConfig) (m : FlowProcessManager)
    : FlowProcessManager * outcome FlowProcess :=
  let key := get_process_key (cfg_flow_id config) (cfg_flow_version config) in
  let existing := processes m !! key in
  match existing with
  | Some fp =>
      if healthy env then
        let fp' :=
          mkFlowProcess (flow_id fp) (flow_version fp) (process_id fp) (port fp)
            (start_time fp) (now env) (request_count fp + 1) (fp_status fp) in
        (mkManager (base_port m) (max_processes m) (<[ key := fp' ]> (processes m))
           (port_pool m) (used_ports m),
         Ok fp')
      else
        let m1 := stop_process env fp m in
        let m2 :=
          if bool_decide (max_processes m1 <= Z.of_nat (size (processes m1)))%Z
          then cleanup_idle_processes env false m1 else m1 in
        if bool_decide (max_processes m2 <= Z.of_nat (size (processes m2)))%Z
        then (m2, Raise "Maximum number of flow processes reached")
        else create_process env config m2
  | None =>
      let m2 :=
        if bool_decide (max_processes m <= Z.of_nat (size (processes m)))%Z
        then cleanup_idle_processes env false m else m in
      if bool_decide (max_processes m2 <= Z.of_nat (size (processes m2)))%Z
      then (m2, Raise "Maximum number of flow processes reached")
      else create_process env config m2
  end.

(** *** Vocabulary of the statements *)

(** The free ports and the used ports partition the configured range. *)
Definition ports_partition (m : FlowProcessManager) : Prop :=
  port_pool m ## used_ports m
  /\ port_pool m ∪ used_ports m = port_range (base_port m) (max_processes m).

(** A live worker: registered and ready. *)
Definition live (m : FlowProcessManager) (key : string) (fp : FlowProcess) : Prop :=
  processes m !! key = Some fp /\ fp_status fp = "ready".

(** Two live workers under distinct keys never share a port. *)
Definition live_ports_distinct (m : FlowProcessManager) : Prop :=
  forall k1 k2 fp1 fp2,
    k1 <> k2 -> live m k1 fp1 -> live m k2 fp2 -> port fp1 <> port fp2.

(** Every entry is filed under the key of its own flow and version and
    holds a port of the configured range. *)
Definition registry_wf (m : FlowProcessManager) : Prop :=
  forall key fp,
    processes m !! key = Some fp ->
    key = get_process_key (flow_id fp) (flow_version fp)
    /\ port fp ∈ port_range (base_port m) (max_processes m).

(** The registry holds at most [max_processes] entries. *)
Definition within_capacity (m : FlowProcessManager) : Prop :=
  (Z.of_nat (size (processes m)) <= max_processes m)%Z.

(** No request for more than five minutes. *)
Definition idle (env : Env) (fp : FlowProcess) : Prop :=
  (now env - last_request_time fp > 300)%Z.

End Gateway.

Export Gateway.

(** ** Sample flows and executors for the concrete statements *)

Module Examples.

(** A result like the one [TextInputExecutor] returns for the text ["hi"]. *)
Definition hi_output : pyval :=
  PDict [("output", PDict [("text", PStr "hi"); ("length", PInt 2)])].

Definition ok_result : ExecutionResult := mkResult true hi_output 1 None None.

(** The result [TextInputExecutor] returns when no text is given. *)
Definition failed_result : ExecutionResult :=
  mkResult false (PDict []) 1 (Some "Text input is required") None.

(** A registry with four component types: [ok] succeeds, [echo] succeeds
    and returns its input, [refuse] returns [success=False], [boom]
    raises. *)
Definition example_factory : ExecutorFactory := fun ctype =>
  if String.eqb ctype "ok" then Some (fun _ => Ok ok_result)
  else if String.eqb ctype "echo" then
    Some (fun ctx => Ok (mkResult true (PDict (ctx_input_data ctx)) 1 None None))
  else if String.eqb ctype "refuse" then Some (fun _ => Ok failed_result)
  else if String.eqb ctype "boom" then Some (fun _ => Raise "boom!")
  else None.

Definition example_node (nid ctype : string) : Node := mkNode nid ctype None.

Definition example_edge (a b : string) : Edge :=
  mkEdge a b (Some "output") (Some "text") DataAbsent.

(** The linear flow A -> B -> C with the given component types. *)
Definition linear_flow (ta tb tc : string) : list Node * list Edge :=
  ([example_node "A" ta; example_node "B" tb; example_node "C" tc],
   [example_edge "A" "B"; example_edge "B" "C"]).

(** [count] nodes of type [ok], named [n1], [n2], ..., without edges. *)
Definition independent_nodes (count : nat) : list Node :=
  map (fun k => example_node ("n" ++ str_of_nat k) "ok") (seq 1 count).

(** The same three nodes, closed into the cycle A -> B -> C -> A. *)
Definition cyclic_flow : list Node * list Edge :=
  ((linear_flow "ok" "ok" "ok").1,
   [example_edge "A" "B"; example_edge "B" "C"; example_edge "C" "A"]).

(** Position of the three sample nodes. *)
Definition example_rank (nid : string) : nat :=
  if String.eqb nid "A" then 0 else if String.eqb nid "B" then 1 else 2.

(** The registry of the samples extended with the output type
    [text_output], whose executor returns its input. *)
Definition sink_factory : ExecutorFactory := fun ctype =>
  if String.eqb ctype "text_output"
  then Some (fun ctx => Ok (mkResult true (PDict (ctx_input_data ctx)) 1 None None))
  else example_factory ctype.


(** The registry of the samples with [TextOutputExecutor] registered for
    [text_output], as the factory of the code has it. *)
Definition text_factory : ExecutorFactory := fun ctype =>
  if String.eqb ctype "text_output" then Some (TextOutputExecutor (fun _ => 1%Z))
  else example_factory ctype.

End Examples.

Export Examples.

(** * Properties *)

#[local] Set Warnings "-clear-no-such-hyp".

(** ** Dictionaries *)

Section DictFacts.
Context {V : Type}.
Implicit Types (d : list (string * V)) (k : string) (v : V).

Lemma eqb_decide k k' : String.eqb k k' = bool_decide (k = k').
Proof.
  destruct (String.eqb_spec k k') as [->|Hne].
  - by rewrite bool_decide_eq_true_2.
  - by rewrite bool_decide_eq_false_2.
Qed.

Lemma dict_get_set_eq k v d : dict_get k (dict_set k v d) = Some v.
Proof.
  induction d as [|[k' v'] d IH]; simpl.
  - by rewrite String.eqb_refl.
  - destruct (String.eqb_spec k k') as [->|Hne]; simpl.
    + by rewrite String.eqb_refl.
    + destruct (String.eqb_spec k k'); [done | exact IH].
Qed.

Lemma dict_get_set_ne k k' v d : k <> k' -> dict_get k' (dict_set k v d) = dict_get k' d.
Proof.
  intros Hne. induction d as [|[k0 v0] d IH]; simpl.
  - destruct (String.eqb_spec k' k); [congruence | done].
  - destruct (String.eqb_spec k k0) as [->|Hk]; simpl.
    + destruct (String.eqb_spec k' k0); [congruence | done].
    + destruct (String.eqb_spec k' k0); [done | exact IH].
Qed.

Lemma dict_get_set k k' v d :
  dict_get k' (dict_set k v d) = if bool_decide (k = k') then Some v else dict_get k' d.
Proof.
  case_bool_decide as H.
  - subst. apply dict_get_set_eq.
  - by apply dict_get_set_ne.
Qed.

Lemma dict_get_None k d : dict_get k d = None <-> k ∉ dict_keys d.
Proof.
  induction d as [|[k' v'] d IH]; simpl.
  - split; [intros _; apply not_elem_of_nil | done].
  - rewrite not_elem_of_cons. destruct (String.eqb_spec k k') as [->|Hne].
    + split; [done | intros [? _]; done].
    + rewrite IH. tauto.
Qed.

Lemma dict_get_is_Some k d : is_Some (dict_get k d) <-> k ∈ dict_keys d.
Proof.
  rewrite <- not_eq_None_Some, dict_get_None.
  destruct (decide (k ∈ dict_keys d)); tauto.
Qed.

Lemma dict_get_elem k v d : dict_get k d = Some v -> (k, v) ∈ d.
Proof.
  induction d as [|[k' v'] d IH]; simpl; [done|].
  destruct (String.eqb_spec k k') as [->|Hne].
  - intros [= ->]. left.
  - intros H. right. by apply IH.
Qed.

Lemma dict_elem_get k v d : NoDup (dict_keys d) -> (k, v) ∈ d -> dict_get k d = Some v.
Proof.
  induction d as [|[k' v'] d IH]; simpl; intros Hnd Hin.
  - by apply elem_of_nil in Hin.
  - apply NoDup_cons in Hnd as [Hk' Hnd].
    apply elem_of_cons in Hin as [[= -> ->]|Hin].
    + by rewrite String.eqb_refl.
    + destruct (String.eqb_spec k k') as [->|Hne]; [|by apply IH].
      exfalso. apply Hk'. unfold dict_keys. apply (list_elem_of_fmap_2 fst _ _ Hin).
Qed.

Lemma dict_keys_set k v d :
  dict_keys (dict_set k v d) =
  if bool_decide (k ∈ dict_keys d) then dict_keys d else (dict_keys d ++ [k])%list.
Proof.
  induction d as [|[k' v'] d IH].
  - done.
  - cbn [dict_set dict_keys map fst].
    destruct (String.eqb_spec k k') as [->|Hne]; cbn [dict_keys map fst].
    + rewrite bool_decide_eq_true_2; [done | left].
    + fold (dict_keys (dict_set k v d)). fold (dict_keys d). rewrite IH.
      case_bool_decide as H1; case_bool_decide as H2; try done.
      * exfalso. apply H2. by right.
      * exfalso. apply elem_of_cons in H2 as [?|?]; done.
Qed.

Lemma elem_of_dict_keys_set x k v d :
  x ∈ dict_keys (dict_set k v d) <-> x = k \/ x ∈ dict_keys d.
Proof.
  rewrite dict_keys_set. case_bool_decide as H.
  - split; [tauto | intros [->|?]; done].
  - rewrite elem_of_app, list_elem_of_singleton. tauto.
Qed.

Lemma NoDup_dict_keys_set k v d : NoDup (dict_keys d) -> NoDup (dict_keys (dict_set k v d)).
Proof.
  intros Hnd. rewrite dict_keys_set. case_bool_decide as H; [done|].
  apply NoDup_app. split_and!; [done | | apply NoDup_singleton].
  intros x Hx ->%list_elem_of_singleton. done.
Qed.

Lemma length_dict_set_le k v d : length d <= length (dict_set k v d).
Proof.
  induction d as [|[k' v'] d IH]; simpl; [lia|].
  destruct (String.eqb k k'); simpl; lia.
Qed.

End DictFacts.

(** ** The dependency graph *)

Lemma deps_dict_set k s g n :
  deps (dict_set k s g) n = if bool_decide (k = n) then s else deps g n.
Proof. unfold deps. rewrite dict_get_set. by case_bool_decide. Qed.

Lemma deps_not_key g n : n ∉ dict_keys g -> deps g n = ∅.
Proof. intros H. unfold deps. apply dict_get_None in H. by rewrite H. Qed.

Lemma deps_elem g n s : NoDup (dict_keys g) -> (n, s) ∈ g -> deps g n = s.
Proof. intros Hnd Hin. unfold deps. by rewrite (dict_elem_get _ _ _ Hnd Hin). Qed.

Lemma elem_deps g n : n ∈ dict_keys g -> (n, deps g n) ∈ g.
Proof.
  intros [s Hs]%dict_get_is_Some. unfold deps. rewrite Hs. simpl.
  by apply dict_get_elem.
Qed.

(** The first loop of [_build_execution_graph]. *)
Lemma build_nodes_spec nodes g :
  let g' := fold_left (fun g node => dict_set (node_id node) (∅ : gset string) g) nodes g in
  (NoDup (dict_keys g) -> NoDup (dict_keys g'))
  /\ (forall k, k ∈ dict_keys g' <-> k ∈ dict_keys g \/ k ∈ node_ids nodes)
  /\ ((forall k, deps g k = ∅) -> forall k, deps g' k = ∅).
Proof.
  revert g. induction nodes as [|node nodes IH]; intros g; simpl.
  - split_and!; [done | | done]. intros k. rewrite elem_of_nil. tauto.
  - destruct (IH (dict_set (node_id node) ∅ g)) as (IH1 & IH2 & IH3).
    split_and!.
    + intros Hnd. by apply IH1, NoDup_dict_keys_set.
    + intros k. rewrite IH2, elem_of_dict_keys_set, elem_of_cons. tauto.
    + intros He. apply IH3. intros k. rewrite deps_dict_set.
      by case_bool_decide.
Qed.

(** The second loop of [_build_execution_graph]. *)
Lemma build_edges_spec edges g :
  let g' := fold_left
    (fun g edge => dict_set (target edge) ({[ source edge ]} ∪ deps g (target edge)) g)
    edges g in
  (NoDup (dict_keys g) -> NoDup (dict_keys g'))
  /\ (forall k, k ∈ dict_keys g' <-> k ∈ dict_keys g \/ exists e, e ∈ edges /\ target e = k)
  /\ (forall s t, s ∈ deps g' t <->
        s ∈ deps g t \/ exists e, e ∈ edges /\ source e = s /\ target e = t).
Proof.
  revert g. induction edges as [|edge edges IH]; intros g; simpl.
  - split_and!; [done | |].
    + intros k. split; [tauto | intros [?|(e & He & _)]; [done | by apply elem_of_nil in He]].
    + intros s t. split; [tauto | intros [?|(e & He & _)]; [done | by apply elem_of_nil in He]].
  - destruct (IH (dict_set (target edge) ({[ source edge ]} ∪ deps g (target edge)) g))
      as (IH1 & IH2 & IH3).
    split_and!.
    + intros Hnd. by apply IH1, NoDup_dict_keys_set.
    + intros k. rewrite IH2, elem_of_dict_keys_set. split.
      * intros [[->|?]|(e & He & Ht)]; [right; exists edge; split; [left | done] | by left |].
        right. exists e. split; [by right | done].
      * intros [?|(e & [->|He]%elem_of_cons & Ht)]; [tauto | left; left; done |].
        right. by exists e.
    + intros s t. rewrite IH3, deps_dict_set. split.
      * intros [Hs|(e & He & Hst)].
        -- case_bool_decide as Ht; [|by left]. subst t.
           apply elem_of_union in Hs as [->%elem_of_singleton|Hs]; [|by left].
           right. exists edge. split; [left | done].
        -- right. exists e. split; [by right | done].
      * intros [Hs|(e & [->|He]%elem_of_cons & Hs & Ht)].
        -- left. case_bool_decide; [subst; set_solver | done].
        -- left. subst. rewrite bool_decide_eq_true_2 by done. set_solver.
        -- right. by exists e.
Qed.

Lemma build_NoDup nodes edges : NoDup (dict_keys (build_execution_graph nodes edges)).
Proof.
  unfold build_execution_graph.
  apply build_edges_spec, build_nodes_spec. apply NoDup_nil_2.
Qed.

Lemma build_keys nodes edges k :
  k ∈ dict_keys (build_execution_graph nodes edges)
  <-> k ∈ node_ids nodes \/ exists e, e ∈ edges /\ target e = k.
Proof.
  unfold build_execution_graph.
  destruct (build_edges_spec edges
    (fold_left (fun g node => dict_set (node_id node) (∅ : gset string) g) nodes []))
    as (_ & H & _).
  rewrite H. destruct (build_nodes_spec nodes []) as (_ & H' & _). rewrite H'.
  simpl. rewrite elem_of_nil. tauto.
Qed.

(** The graph records exactly the edges: [t] depends on [s] iff some edge
    goes from [s] to [t]. *)
Lemma build_deps nodes edges s t :
  s ∈ deps (build_execution_graph nodes edges) t
  <-> exists e, e ∈ edges /\ source e = s /\ target e = t.
Proof.
  unfold build_execution_graph.
  destruct (build_edges_spec edges
    (fold_left (fun g node => dict_set (node_id node) (∅ : gset string) g) nodes []))
    as (_ & _ & H).
  rewrite H. destruct (build_nodes_spec nodes []) as (_ & _ & H'). rewrite H' by done.
  set_solver.
Qed.

Lemma build_keys_wf nodes edges k :
  edges_reference_nodes nodes edges ->
  k ∈ dict_keys (build_execution_graph nodes edges) <-> k ∈ node_ids nodes.
Proof.
  intros Hwf. rewrite build_keys. split; [|tauto].
  intros [?|(e & He & <-)]; [done | by apply Hwf].
Qed.

(** ** Execution order: the invariant of the sort *)

(** A set in which every element has a successor inside the set contains
    arbitrarily long duplicate-free chains, unless some element reaches
    itself. *)
Lemma chain_in_closed_set {A : Type} (R : relation A) (P : A -> Prop) :
  (forall u, P u -> exists m, R u m /\ P m) ->
  (forall u, ~ tc R u u) ->
  forall k u, P u ->
    exists l : list A, length l = k /\ NoDup l /\ forall x, x ∈ l -> P x /\ tc R u x.
Proof.
  intros Hsucc Hirr. induction k as [|k IH]; intros u Hu.
  - exists []. split_and!; [done | apply NoDup_nil_2 | intros x Hx; by apply elem_of_nil in Hx].
  - destruct (Hsucc u Hu) as (m & Hum & Hm).
    destruct (IH m Hm) as (l & Hlen & Hnd & Hl).
    exists (m :: l). split_and!.
    + simpl. by rewrite Hlen.
    + apply NoDup_cons. split; [|done]. intros Hin. apply (Hirr m). by apply Hl.
    + intros x [->|Hx]%elem_of_cons.
      * split; [done | by apply tc_once].
      * split; [by apply Hl|]. eapply tc_l; [exact Hum | by apply Hl].
Qed.

(** In a finite set closed under an irreflexive-transitive relation, no
    non-empty subset has all its successors inside. *)
Lemma no_closed_subset (R : relation string) (K : list string) (P : string -> Prop) :
  (forall u, P u -> u ∈ K) ->
  (forall u, P u -> exists m, R u m /\ P m) ->
  (forall u, ~ tc R u u) ->
  forall u, ~ P u.
Proof.
  intros HK Hsucc Hirr u Hu.
  destruct (chain_in_closed_set R P Hsucc Hirr (S (length K)) u Hu) as (l & Hlen & Hnd & Hl).
  assert (l ⊆+ K) as Hsub.
  { apply NoDup_submseteq; [done|]. intros x Hx. apply HK. by apply Hl. }
  apply submseteq_length in Hsub. lia.
Qed.

Section Kahn.

Variable g : graph.
Hypothesis g_NoDup : NoDup (dict_keys g).

(** The inner loop, entry by entry. *)
Lemma release_dependents_spec c (h : graph) :
  NoDup (dict_keys h) ->
  forall in_degree queue,
  exists in_degree' added,
    release_dependents h c (in_degree, queue) = (in_degree', (queue ++ added)%list)
    /\ NoDup added
    /\ (forall n, n ∈ added <->
          exists s, (n, s) ∈ h /\ c ∈ s /\ (default 0 (dict_get n in_degree) - 1 = 0)%Z)
    /\ (forall n s, (n, s) ∈ h -> c ∈ s ->
          dict_get n in_degree' = Some (default 0 (dict_get n in_degree) - 1)%Z)
    /\ (forall n, (forall s, (n, s) ∈ h -> c ∉ s) -> dict_get n in_degree' = dict_get n in_degree)
    /\ (dict_keys h ⊆ dict_keys in_degree -> dict_keys in_degree' = dict_keys in_degree).
Proof.
  unfold release_dependents.
  induction h as [|[n0 s0] h IH]; intros Hnd in_degree queue; simpl.
  - exists in_degree, []. rewrite app_nil_r.
    split_and!; [done | apply NoDup_nil_2 | | | done | done].
    + intros n. split; [by intros ?%elem_of_nil | by intros (s & ?%elem_of_nil & _)].
    + intros n s Hin. by apply elem_of_nil in Hin.
  - apply NoDup_cons in Hnd as [Hn0 Hnd].
    assert (forall s, (n0, s) ∉ h) as Hn0'.
    { intros s Hin. apply Hn0. apply (list_elem_of_fmap_2 fst _ _ Hin). }
    case_bool_decide as Hc.
    + set (d := (default 0 (dict_get n0 in_degree) - 1)%Z).
      destruct (IH Hnd (dict_set n0 d in_degree)
                  (if (d =? 0)%Z then (queue ++ [n0])%list else queue))
        as (deg' & added & Heq & Hndadd & Hadd & Hdec & Hsame & Hkeys).
      assert (forall n, n <> n0 ->
                dict_get n (dict_set n0 d in_degree) = dict_get n in_degree) as Hne.
      { intros n Hn. by apply dict_get_set_ne. }
      exists deg', (if (d =? 0)%Z then n0 :: added else added).
      split_and!.
      * rewrite Heq. f_equal. destruct (d =? 0)%Z; [by rewrite <- app_assoc | done].
      * destruct (d =? 0)%Z; [|done]. apply NoDup_cons. split; [|done].
        rewrite Hadd. intros (s & Hin & _). by eapply Hn0'.
      * intros n. destruct (Z.eqb_spec d 0) as [Hd|Hd].
        -- rewrite elem_of_cons, Hadd. split.
           ++ intros [->|(s & Hin & Hcs & Hz)].
              ** exists s0. split_and!; [left | done | done].
              ** exists s. split_and!; [by right | done |].
                 rewrite <- Hne; [done|]. intros ->. by eapply Hn0'.
           ++ intros (s & [[= -> ->]|Hin]%elem_of_cons & Hcs & Hz); [by left|].
              right. exists s. split_and!; [done..|].
              rewrite Hne; [done|]. intros ->. by eapply Hn0'.
        -- rewrite Hadd. split.
           ++ intros (s & Hin & Hcs & Hz). exists s. split_and!; [by right | done |].
              rewrite <- Hne; [done|]. intros ->. by eapply Hn0'.
           ++ intros (s & [[= -> ->]|Hin]%elem_of_cons & Hcs & Hz); [done|].
              exists s. split_and!; [done..|].
              rewrite Hne; [done|]. intros ->. by eapply Hn0'.
      * intros n s [[= -> ->]|Hin]%elem_of_cons Hcs.
        -- rewrite Hsame; [apply dict_get_set_eq|]. intros s Hin. by apply Hn0' in Hin.
        -- rewrite (Hdec n s Hin Hcs), Hne; [done|]. intros ->. by eapply Hn0'.
      * intros n Hn. rewrite Hsame.
        -- apply Hne. intros ->. apply (Hn s0); [left | done].
        -- intros s Hin. apply Hn. by right.
      * intros Hsub. rewrite Hkeys.
        -- rewrite dict_keys_set. rewrite bool_decide_eq_true_2; [done|].
           apply Hsub. left.
        -- intros x Hx. apply elem_of_dict_keys_set. right. apply Hsub. by right.
    + destruct (IH Hnd in_degree queue)
        as (deg' & added & Heq & Hndadd & Hadd & Hdec & Hsame & Hkeys).
      exists deg', added. split_and!; [done | done | | | |].
      * intros n. rewrite Hadd. split.
        -- intros (s & Hin & Hcs & Hz). exists s. split_and!; [by right | done..].
        -- intros (s & [[= -> ->]|Hin]%elem_of_cons & Hcs & Hz); [done|]. by exists s.
      * intros n s [[= -> ->]|Hin]%elem_of_cons Hcs; [done|]. by eapply Hdec.
      * intros n Hn. apply Hsame. intros s Hin. apply Hn. by right.
      * intros Hsub. apply Hkeys. intros x Hx. apply Hsub. by right.
Qed.


Lemma size_remaining_step (X : gset string) (order : list string) (c : string) :
  c ∈ X -> c ∉ order ->
  size (X ∖ list_to_set order) = S (size (X ∖ list_to_set (order ++ [c]))).
Proof.
  intros Hc Hno.
  assert (X ∖ list_to_set order
          = {[ c ]} ∪ X ∖ (list_to_set (order ++ [c]) : gset string)) as ->.
  { rewrite list_to_set_app_L. apply set_eq. intros x.
    rewrite elem_of_union, !elem_of_difference, elem_of_union, elem_of_singleton,
      !elem_of_list_to_set, elem_of_cons, elem_of_nil.
    destruct (decide (x = c)) as [->|]; [tauto|]. tauto. }
  rewrite size_union, size_singleton; [done|].
  rewrite list_to_set_app_L. set_solver.
Qed.

Lemma size_difference_0 (X Y : gset string) : size (X ∖ Y) = 0 <-> X ⊆ Y.
Proof.
  rewrite size_empty_iff. split.
  - intros H x Hx. destruct (decide (x ∈ Y)) as [|Hno]; [done|].
    exfalso. apply (not_elem_of_empty (C:=gset string) x). apply H.
    by apply elem_of_difference.
  - intros H x. rewrite elem_of_difference. split; [|by intros ?%not_elem_of_empty].
    intros [Hx Hno]. exfalso. by apply Hno, H.
Qed.

Lemma subseteq_snoc (X : gset string) (order : list string) (c : string) :
  X ⊆ list_to_set order -> X ⊆ list_to_set (order ++ [c]).
Proof. rewrite list_to_set_app_L. set_solver. Qed.

Lemma size_remaining_same (X : gset string) (order : list string) (c : string) :
  c ∉ X -> X ∖ list_to_set (order ++ [c]) = X ∖ (list_to_set order : gset string).
Proof. intros Hc. rewrite list_to_set_app_L. set_solver. Qed.

Lemma kahn_inv_step K in_degree c queue order :
  NoDup K -> dict_keys g ⊆ K ->
  kahn_inv g K in_degree (c :: queue) order ->
  exists in_degree' queue',
    release_dependents g c (in_degree, queue) = (in_degree', queue')
    /\ kahn_inv g K in_degree' queue' (order ++ [c]).
Proof.
  intros HK Hsub (Hnd & Hkeys & Hdeg & Hmem & Hsorted).
  destruct (release_dependents_spec c g g_NoDup in_degree queue)
    as (deg' & added & Heq & Hndadd & Hadd & Hdec & Hsame & Hk).
  exists deg', (queue ++ added)%list. split; [done|].
  assert (c ∉ order) as Hc_order.
  { apply NoDup_app in Hnd as (_ & Hdisj & _). intros Hin.
    apply (Hdisj c Hin). left. }
  assert (c ∈ K /\ deps g c ⊆ list_to_set order) as [HcK Hcdeps].
  { apply Hmem. apply elem_of_app. right. left. }
  (* what [added] is, in terms of the graph *)
  assert (forall n, n ∈ added <->
            n ∈ dict_keys g /\ c ∈ deps g n
            /\ size (deps g n ∖ list_to_set (order ++ [c])) = 0) as Hadd'.
  { intros n. rewrite Hadd. split.
    - intros (s & Hin & Hcs & Hz).
      assert (n ∈ dict_keys g) as Hn by apply (list_elem_of_fmap_2 fst _ _ Hin).
      rewrite <- (deps_elem g n s g_NoDup Hin) in Hcs.
      split_and!; [done..|].
      rewrite (Hdeg n (Hsub _ Hn)) in Hz. simpl in Hz.
      rewrite (size_remaining_step _ _ c Hcs Hc_order) in Hz. lia.
    - intros (Hn & Hcs & Hz). exists (deps g n). split_and!; [by apply elem_deps | done |].
      rewrite (Hdeg n (Hsub _ Hn)). simpl.
      rewrite (size_remaining_step _ _ c Hcs Hc_order). lia. }
  split_and!.
  - (* no duplicates *)
    rewrite <- app_assoc. simpl.
    apply NoDup_app in Hnd as (Hnd1 & Hdisj & Hnd2).
    apply NoDup_cons in Hnd2 as [Hcq Hnd2].
    assert (forall n, n ∈ added -> n ∉ (order ++ c :: queue)%list) as Hfresh.
    { intros n [Hn [Hcs _]]%Hadd' Hin. apply Hmem in Hin as [_ Hin].
      apply Hc_order. apply Hin in Hcs. by apply elem_of_list_to_set in Hcs. }
    apply NoDup_app. split_and!; [done | |].
    + intros x Hx [->|Hin]%elem_of_cons; [done|].
      apply elem_of_app in Hin as [Hin|Hin].
      * apply (Hdisj x Hx). by right.
      * apply (Hfresh x Hin). apply elem_of_app. by left.
    + apply NoDup_cons. split.
      * intros [Hin|Hin]%elem_of_app; [done|].
        apply (Hfresh c Hin). apply elem_of_app. right. left.
      * apply NoDup_app. split_and!; [done | | done].
        intros x Hx Hin. apply (Hfresh x Hin). apply elem_of_app. right. by right.
  - rewrite Hk; [done|]. by rewrite Hkeys.
  - (* in-degrees *)
    intros n Hn. destruct (decide (c ∈ deps g n)) as [Hcs|Hcs].
    + assert (n ∈ dict_keys g) as Hng.
      { destruct (decide (n ∈ dict_keys g)) as [|Hno]; [done|].
        rewrite (deps_not_key g n Hno) in Hcs. by apply not_elem_of_empty in Hcs. }
      rewrite (Hdec n (deps g n) (elem_deps g n Hng) Hcs), (Hdeg n Hn). simpl.
      rewrite (size_remaining_step _ _ c Hcs Hc_order). f_equal. lia.
    + rewrite Hsame, (Hdeg n Hn), (size_remaining_same _ _ _ Hcs); [done|].
      intros s Hin. by rewrite <- (deps_elem g n s g_NoDup Hin).
  - (* membership *)
    intros n. rewrite <- app_assoc. simpl. split.
    + intros [Hin|[->|[Hin|Hin]%elem_of_app]%elem_of_cons]%elem_of_app.
      * assert (n ∈ (order ++ c :: queue)%list) as H by (apply elem_of_app; by left).
        apply Hmem in H as [? H]. split; [done|]. by apply subseteq_snoc.
      * split; [done|]. by apply subseteq_snoc.
      * assert (n ∈ (order ++ c :: queue)%list) as H.
        { apply elem_of_app. right. by right. }
        apply Hmem in H as [? H]. split; [done|]. by apply subseteq_snoc.
      * apply Hadd' in Hin as (Hn & Hcs & Hz). split; [by apply Hsub|].
        by apply size_difference_0.
    + intros [HnK Hdeps].
      destruct (decide (deps g n ⊆ list_to_set order)) as [Hold|Hnew].
      * assert (n ∈ (order ++ c :: queue)%list) as H by (apply Hmem; done).
        apply elem_of_app in H as [H|[->|H]%elem_of_cons].
        -- apply elem_of_app. by left.
        -- apply elem_of_app. right. left.
        -- apply elem_of_app. right. right. apply elem_of_app. by left.
      * assert (c ∈ deps g n) as Hcs.
        { destruct (decide (c ∈ deps g n)) as [|Hno]; [done|]. exfalso. apply Hnew.
          intros x Hx. specialize (Hdeps x Hx).
          rewrite list_to_set_app_L, elem_of_union, list_to_set_singleton,
            elem_of_singleton in Hdeps.
          destruct Hdeps as [?| ->]; done. }
        apply elem_of_app. right. right. apply elem_of_app. right.
        apply Hadd'. split_and!; [|done|].
        -- destruct (decide (n ∈ dict_keys g)) as [|Hno]; [done|].
           rewrite (deps_not_key g n Hno) in Hcs. by apply not_elem_of_empty in Hcs.
        -- by apply size_difference_0.
  - (* placed after its dependencies *)
    intros l1 t l2 Heq'.
    destruct l2 as [|x l2 _] using rev_ind.
    + apply (app_inj_tail order l1 c t) in Heq' as [-> ->]. done.
    + rewrite app_comm_cons, app_assoc in Heq'.
      apply app_inj_tail in Heq' as [-> ->]. by eapply Hsorted.
Qed.

Lemma kahn_loop_spec K fuel :
  NoDup K -> dict_keys g ⊆ K ->
  forall in_degree queue order,
    kahn_inv g K in_degree queue order ->
    length K < fuel + length order ->
    exists order' in_degree',
      kahn_loop fuel g in_degree queue order = Some order'
      /\ kahn_inv g K in_degree' [] order'.
Proof.
  intros HK Hsub. induction fuel as [|fuel IH]; intros in_degree queue order Hinv Hlen.
  - exfalso. destruct Hinv as (Hnd & _ & _ & Hmem & _).
    assert (order ⊆+ K) as Hle.
    { apply NoDup_submseteq; [by apply NoDup_app in Hnd as (? & _)|].
      intros x Hx. apply (Hmem x). apply elem_of_app. by left. }
    apply submseteq_length in Hle. lia.
  - destruct queue as [|c queue]; simpl.
    + by exists order, in_degree.
    + destruct (kahn_inv_step K in_degree c queue order HK Hsub Hinv)
        as (deg' & q' & Heq & Hinv').
      rewrite Heq. apply IH; [done|]. rewrite length_app. simpl. lia.
Qed.

End Kahn.

(** *** The initial state of the sort *)

Lemma in_degree_nodes_spec nodes (d : list (string * Z)) :
  let d' := fold_left (fun d node => dict_set (node_id node) 0%Z d) nodes d in
  (NoDup (dict_keys d) -> NoDup (dict_keys d'))
  /\ (forall k, k ∈ dict_keys d' <-> k ∈ dict_keys d \/ k ∈ node_ids nodes)
  /\ (forall k, k ∈ node_ids nodes \/ dict_get k d = Some 0%Z -> dict_get k d' = Some 0%Z).
Proof.
  revert d. induction nodes as [|node nodes IH]; intros d; simpl.
  - split_and!; [done | |].
    + intros k. rewrite elem_of_nil. tauto.
    + intros k [Hk|Hk]; [by apply elem_of_nil in Hk | done].
  - destruct (IH (dict_set (node_id node) 0%Z d)) as (IH1 & IH2 & IH3).
    split_and!.
    + intros Hnd. by apply IH1, NoDup_dict_keys_set.
    + intros k. rewrite IH2, elem_of_dict_keys_set, elem_of_cons. tauto.
    + intros k Hk. apply IH3. rewrite dict_get_set.
      case_bool_decide as Hne; [by right|].
      destruct Hk as [[->|Hk]%elem_of_cons|Hk]; [done | by left | by right].
Qed.

Lemma in_degree_graph_spec (h : graph) (d : list (string * Z)) :
  NoDup (dict_keys h) ->
  let d' := fold_left (fun d kv => dict_set (fst kv) (Z.of_nat (size (snd kv))) d) h d in
  (NoDup (dict_keys d) -> NoDup (dict_keys d'))
  /\ (forall k, k ∈ dict_keys d' <-> k ∈ dict_keys d \/ k ∈ dict_keys h)
  /\ (forall k, k ∈ dict_keys h -> dict_get k d' = Some (Z.of_nat (size (deps h k))))
  /\ (forall k, k ∉ dict_keys h -> dict_get k d' = dict_get k d).
Proof.
  revert d. induction h as [|[n0 s0] h IH]; intros d Hnd; simpl.
  - split_and!; [done | | |done].
    + intros k. rewrite elem_of_nil. tauto.
    + intros k Hk. by apply elem_of_nil in Hk.
  - apply NoDup_cons in Hnd as [Hn0 Hnd].
    destruct (IH (dict_set n0 (Z.of_nat (size s0)) d) Hnd) as (IH1 & IH2 & IH3 & IH4).
    split_and!.
    + intros Hd. by apply IH1, NoDup_dict_keys_set.
    + intros k. rewrite IH2, elem_of_dict_keys_set, elem_of_cons. tauto.
    + intros k Hk. unfold deps. simpl. destruct (String.eqb_spec k n0) as [->|Hne].
      * rewrite IH4 by done. apply dict_get_set_eq.
      * apply elem_of_cons in Hk as [?|Hk]; [done|]. by apply IH3.
    + intros k Hk. apply not_elem_of_cons in Hk as [Hne Hk].
      rewrite IH4 by done. by apply dict_get_set_ne.
Qed.

Lemma initial_in_degree_spec g nodes :
  NoDup (dict_keys g) ->
  NoDup (dict_keys (initial_in_degree g nodes))
  /\ (forall k, k ∈ dict_keys (initial_in_degree g nodes)
        <-> k ∈ node_ids nodes \/ k ∈ dict_keys g)
  /\ (forall k, k ∈ dict_keys (initial_in_degree g nodes) ->
        dict_get k (initial_in_degree g nodes) = Some (Z.of_nat (size (deps g k)))).
Proof.
  intros Hg. unfold initial_in_degree.
  destruct (in_degree_nodes_spec nodes []) as (N1 & N2 & N3).
  destruct (in_degree_graph_spec g
              (fold_left (fun d node => dict_set (node_id node) 0%Z d) nodes []) Hg)
    as (G1 & G2 & G3 & G4).
  split_and!.
  - apply G1, N1, NoDup_nil_2.
  - intros k. rewrite G2, N2. simpl. rewrite elem_of_nil. tauto.
  - intros k Hk. destruct (decide (k ∈ dict_keys g)) as [Hin|Hno]; [by apply G3|].
    rewrite G4 by done. rewrite (deps_not_key g k Hno), size_empty.
    apply N3. left. apply G2 in Hk as [Hk|Hk]; [|done].
    apply N2 in Hk as [Hk|Hk]; [by apply elem_of_nil in Hk | done].
Qed.

Lemma initial_queue_spec (d : list (string * Z)) :
  NoDup (dict_keys d) ->
  NoDup (initial_queue d)
  /\ forall n, n ∈ initial_queue d <-> dict_get n d = Some 0%Z.
Proof.
  unfold initial_queue. induction d as [|[k v] d IH]; intros Hnd.
  - split; [apply NoDup_nil_2|]. intros n. simpl. split; [by intros ?%elem_of_nil | done].
  - apply NoDup_cons in Hnd as [Hk Hnd]. destruct (IH Hnd) as [IH1 IH2].
    assert (forall n, n ∈ (filter (fun kv : string * Z => snd kv = 0%Z) d).*1 ->
              n ∈ dict_keys d) as Hsub.
    { intros n (kv & -> & Hin%list_elem_of_filter)%list_elem_of_fmap.
      apply (list_elem_of_fmap_2 fst). tauto. }
    rewrite filter_cons. simpl. destruct (decide (v = 0%Z)) as [->|Hv]; simpl.
    + split.
      * apply NoDup_cons. split; [|done]. intros Hin. by apply Hk, Hsub.
      * intros n. rewrite elem_of_cons, IH2.
        destruct (String.eqb_spec n k) as [->|Hne]; [tauto|].
        split; [intros [?|?]; done | tauto].
    + split; [done|]. intros n. rewrite IH2.
      destruct (String.eqb_spec n k) as [->|Hne]; [|done].
      split; [|congruence]. intros H. exfalso. apply Hk.
      apply (proj1 (dict_get_is_Some k d)). rewrite H. by eexists.
Qed.

Lemma kahn_inv_initial g nodes :
  NoDup (dict_keys g) ->
  let d := initial_in_degree g nodes in
  kahn_inv g (dict_keys d) d (initial_queue d) [].
Proof.
  intros Hg d. destruct (initial_in_degree_spec g nodes Hg) as (D1 & D2 & D3).
  fold d in D1, D2, D3. destruct (initial_queue_spec d D1) as [Q1 Q2].
  split_and!; [done | done | | |].
  - intros n Hn. simpl. rewrite difference_empty_L. by apply D3.
  - intros n. rewrite app_nil_l, Q2, <- size_difference_0.
    change (list_to_set []) with (∅ : gset string). rewrite difference_empty_L. split.
    + intros H. assert (n ∈ dict_keys d) as Hn.
      { apply (proj1 (dict_get_is_Some n d)). rewrite H. by eexists. }
      split; [done|]. rewrite (D3 n Hn) in H. injection H. lia.
    + intros [Hn Hz]. rewrite (D3 n Hn). f_equal. lia.
  - intros l1 t l2 H. by destruct l1.
Qed.

(** The loop always terminates within its bound, whatever the graph: the
    default in [calculate_execution_order] is never taken. *)
Lemma kahn_total g nodes :
  NoDup (dict_keys g) ->
  exists order in_degree,
    kahn g nodes = Some order
    /\ kahn_inv g (dict_keys (initial_in_degree g nodes)) in_degree [] order.
Proof.
  intros Hg. unfold kahn.
  destruct (initial_in_degree_spec g nodes Hg) as (D1 & D2 & D3).
  apply (kahn_loop_spec g Hg (dict_keys (initial_in_degree g nodes))).
  - done.
  - intros k Hk. apply D2. by right.
  - by apply kahn_inv_initial.
  - unfold dict_keys. rewrite length_map. simpl. lia.
Qed.

(** What the produced order always satisfies. *)
Lemma kahn_order_sound g nodes order :
  NoDup (dict_keys g) ->
  kahn g nodes = Some order ->
  NoDup order
  /\ (forall n, n ∈ order <->
        (n ∈ node_ids nodes \/ n ∈ dict_keys g) /\ deps g n ⊆ list_to_set order)
  /\ (forall s t, t ∈ order -> s ∈ deps g t -> before s t order).
Proof.
  intros Hg Hk. destruct (kahn_total g nodes Hg) as (o & deg & Ho & Hnd & _ & _ & Hmem & Hsorted).
  rewrite Hk in Ho. injection Ho as <-.
  destruct (initial_in_degree_spec g nodes Hg) as (_ & D2 & _).
  rewrite app_nil_r in Hnd. split_and!; [done | |].
  - intros n. specialize (Hmem n). rewrite app_nil_r in Hmem. by rewrite Hmem, D2.
  - intros s t Ht Hs. apply list_elem_of_split in Ht as (l1 & l2 & ->).
    specialize (Hsorted l1 t l2 eq_refl s Hs). apply elem_of_list_to_set in Hsorted.
    apply list_elem_of_split in Hsorted as (l1a & l1b & ->).
    exists l1a, l1b, l2. by rewrite <- app_assoc.
Qed.

Lemma not_subseteq_witness (X Y : gset string) : ~ X ⊆ Y -> exists x, x ∈ X /\ x ∉ Y.
Proof.
  intros H. destruct (decide (set_Forall (fun x => x ∈ Y) X)) as [Hall|Hno].
  - exfalso. apply H. intros x Hx. by apply Hall.
  - apply not_set_Forall_Exists in Hno; [|apply _].
    destruct Hno as (x & Hx & Hxy). by exists x.
Qed.

(** Dependencies that decrease a rank cannot form a cycle. *)
Lemma acyclic_by_rank (g : graph) (rank : string -> nat) :
  (forall n m, dep g n m -> rank m < rank n) -> acyclic g.
Proof.
  intros Hrank n Hn.
  assert (forall a b, tc (dep g) a b -> rank b < rank a) as Htc.
  { intros a b Hab. induction Hab as [a b Hab|a b c Hab _ IH].
    - by apply Hrank.
    - apply Hrank in Hab. lia. }
  apply Htc in Hn. lia.
Qed.

(** In an acyclic graph whose dependencies stay among the nodes, the sort
    places every node. *)
Lemma kahn_complete nodes edges order :
  edges_reference_nodes nodes edges ->
  acyclic (build_execution_graph nodes edges) ->
  kahn (build_execution_graph nodes edges) nodes = Some order ->
  forall n, n ∈ node_ids nodes -> n ∈ order.
Proof.
  intros Hwf Hacyc Hk.
  set (g := build_execution_graph nodes edges) in *.
  destruct (kahn_order_sound g nodes order (build_NoDup nodes edges) Hk) as (Hnd & Hmem & _).
  intros n Hn. destruct (decide (n ∈ order)) as [|Hno]; [done|]. exfalso.
  apply (no_closed_subset (dep g) (node_ids nodes)
           (fun u => u ∈ node_ids nodes /\ u ∉ order)) with (u := n); [tauto | | done | done].
  intros u [Hu Huo].
  assert (~ deps g u ⊆ list_to_set order) as Hsub.
  { intros Hsub. apply Huo, Hmem. split; [by left | done]. }
  apply not_subseteq_witness in Hsub as (m & Hm & Hmo).
  exists m. split; [done|]. split.
  - apply build_deps in Hm as (e & He & <- & _). by apply Hwf.
  - intros Hin. apply Hmo. by apply elem_of_list_to_set.
Qed.

(** C2. For an acyclic graph built from nodes with distinct ids and edges
    between listed nodes, the execution order is returned, holds every node
    id exactly once and places the source of every edge before its target;
    and for any snapshot the computation returns the produced order only
    when its length is the node count, and raises otherwise. *)
Theorem execution_order_topological :
  (forall nodes edges,
     NoDup (node_ids nodes) ->
     edges_reference_nodes nodes edges ->
     acyclic (build_execution_graph nodes edges) ->
     exists order,
       calculate_execution_order (build_execution_graph nodes edges) nodes = Ok order
       /\ NoDup order
       /\ (forall n, n ∈ order <-> n ∈ node_ids nodes)
       /\ order ≡ₚ node_ids nodes
       /\ forall e, e ∈ edges -> before (source e) (target e) order)
  /\ (forall nodes edges,
        exists order,
          kahn (build_execution_graph nodes edges) nodes = Some order
          /\ calculate_execution_order (build_execution_graph nodes edges) nodes =
             if bool_decide (length order = length nodes) then Ok order
             else Raise "Unable to determine execution order - graph may contain cycles").
Proof.
  split.
  - intros nodes edges Hids Hwf Hacyc.
    set (g := build_execution_graph nodes edges) in *.
    destruct (kahn_total g nodes (build_NoDup nodes edges)) as (order & deg & Hk & _).
    destruct (kahn_order_sound g nodes order (build_NoDup nodes edges) Hk)
      as (Hnd & Hmem & Hbefore).
    assert (forall n, n ∈ order <-> n ∈ node_ids nodes) as Hsame.
    { intros n. split.
      - intros [[?|Hn] _]%Hmem; [done|]. by apply (build_keys_wf nodes edges n Hwf).
      - by apply (kahn_complete nodes edges order). }
    assert (order ≡ₚ node_ids nodes) as Hperm by by apply NoDup_Permutation.
    exists order. split_and!; [|done..|].
    + unfold calculate_execution_order. rewrite Hk.
      apply Permutation_length in Hperm. unfold node_ids in Hperm.
      rewrite length_map in Hperm.
      by rewrite bool_decide_eq_false_2 by (intros H; apply H, Hperm).
    + intros e He. apply Hbefore.
      * apply Hsame. by apply Hwf.
      * apply build_deps. by exists e.
  - intros nodes edges.
    destruct (kahn_total (build_execution_graph nodes edges) nodes (build_NoDup nodes edges))
      as (order & deg & Hk & _).
    exists order. split; [done|]. unfold calculate_execution_order. rewrite Hk.
    case_bool_decide as H1; case_bool_decide as H2; done.
Qed.

(** ** Validation: the depth-first cycle check *)

Lemma graph_ids_key g n : n ∈ dict_keys g -> n ∈ graph_ids g.
Proof.
  induction g as [|[k s] g IH]; simpl; [by intros ?%elem_of_nil|].
  intros [->|Hn]%elem_of_cons; [|apply IH in Hn]; set_solver.
Qed.

Lemma graph_ids_deps g n m : m ∈ deps g n -> m ∈ graph_ids g.
Proof.
  unfold deps. induction g as [|[k s] g IH]; simpl; [by intros ?%not_elem_of_empty|].
  destruct (String.eqb n k); simpl.
  - intros Hm. set_solver.
  - intros Hm. apply IH in Hm. set_solver.
Qed.

Section Dfs.

Variable g : graph.


Lemma finished_reach visited rec_stack b c :
  finished_ok g visited rec_stack ->
  b ∈ visited -> b ∉ rec_stack -> tc (dep g) b c -> c ∈ visited /\ c ∉ rec_stack.
Proof.
  intros [Hclosed _] Hb1 Hb2 Hbc. induction Hbc as [b c Hbc|b m c Hbm _ IH].
  - by apply (Hclosed b).
  - destruct (Hclosed b Hb1 Hb2 m Hbm). by apply IH.
Qed.

Lemma size_unvisited_le (U V V' : gset string) : V ⊆ V' -> size (U ∖ V') <= size (U ∖ V).
Proof. intros H. apply subseteq_size. set_solver. Qed.

Lemma size_unvisited_lt (U V : gset string) n :
  n ∈ U -> n ∉ V -> size (U ∖ ({[ n ]} ∪ V)) < size (U ∖ V).
Proof.
  intros Hn HV. apply subset_size. split; [set_solver|].
  intros H. specialize (H n). set_solver.
Qed.


Lemma for_dependencies_spec (rec : string -> dfs_state -> option (bool * dfs_state))
    (bound : nat) :
  (forall d V R, d ∈ graph_ids g -> size (graph_ids g ∖ V) < bound -> finished_ok g V R ->
     returns_false g d V R (rec d (V, R))) ->
  forall ds V R,
    (forall d, d ∈ ds -> d ∈ graph_ids g) ->
    size (graph_ids g ∖ V) < bound -> finished_ok g V R ->
    exists b V' R',
      for_dependencies rec ds (V, R) = Some (b, (V', R'))
      /\ (b = false ->
          R' = R /\ V ⊆ V' /\ (forall d, d ∈ ds -> d ∈ V' /\ d ∉ R) /\ finished_ok g V' R).
Proof.
  intros Hrec. induction ds as [|d ds IH]; intros V R Hds Hsize Hok; simpl.
  - exists false, V, R. split; [done|]. intros _. split_and!; [done..| |done].
    intros d Hd. by apply elem_of_nil in Hd.
  - destruct (Hrec d V R) as (b & V1 & R1 & -> & Hb); [apply Hds; left | done | done |].
    destruct b.
    + exists true, V1, R1. by split.
    + destruct (Hb eq_refl) as (-> & HV & Hd1 & Hd2 & Hok1).
      destruct (IH V1 R) as (b & V2 & R2 & -> & Hb2).
      * intros x Hx. apply Hds. by right.
      * pose proof (size_unvisited_le (graph_ids g) V V1 HV). lia.
      * done.
      * exists b, V2, R2. split; [done|]. intros ->.
        destruct (Hb2 eq_refl) as (-> & HV2 & Hall & Hok2).
        split_and!; [done | set_solver | | done].
        intros x [->|Hx]%elem_of_cons; [|by apply Hall]. split; [set_solver | done].
Qed.

Lemma has_cycle_spec fuel :
  forall n V R,
    n ∈ graph_ids g \/ deps g n = ∅ ->
    size (graph_ids g ∖ V) < fuel -> finished_ok g V R ->
    returns_false g n V R (has_cycle fuel g n (V, R)).
Proof.
  induction fuel as [|fuel IH]; intros n V R Hn Hsize Hok; [lia|].
  simpl. case_bool_decide as HnR.
  - exists true, V, R. by split.
  - case_bool_decide as HnV.
    + exists false, V, R. split; [done|]. intros _. by split_and!.
    + assert (finished_ok g ({[ n ]} ∪ V) ({[ n ]} ∪ R)) as Hok1.
      { destruct Hok as [Hc Hn']. split.
        - intros b Hb1 Hb2 m Hm.
          assert (b ∈ V /\ b ∉ R) as [HbV HbR] by set_solver.
          destruct (Hc b HbV HbR m Hm) as [HmV HmR].
          split; [set_solver|]. intros [->%elem_of_singleton|?]%elem_of_union; done.
        - intros b Hb1 Hb2. apply Hn'; set_solver. }
      assert (exists b V' R',
                for_dependencies (has_cycle fuel g) (elements (deps g n))
                  ({[ n ]} ∪ V, {[ n ]} ∪ R) = Some (b, (V', R'))
                /\ (b = false ->
                    R' = {[ n ]} ∪ R /\ {[ n ]} ∪ V ⊆ V'
                    /\ (forall d, d ∈ elements (deps g n) -> d ∈ V' /\ d ∉ ({[ n ]} ∪ R))
                    /\ finished_ok g V' ({[ n ]} ∪ R))) as (b & V' & R' & -> & Hb).
      { destruct Hn as [Hn|Hn].
        - apply (for_dependencies_spec (has_cycle fuel g) fuel).
          + intros d V0 R0 Hd Hs Hk. apply IH; [by left | done | done].
          + intros d Hd%elem_of_elements. by eapply graph_ids_deps.
          + pose proof (size_unvisited_lt (graph_ids g) V n Hn HnV). lia.
          + done.
        - rewrite Hn, elements_empty. simpl. eexists false, _, _. split; [done|].
          intros _. split_and!; [done..| |done]. intros d Hd. by apply elem_of_nil in Hd. }
      destruct b.
      * exists true, V', R'. by split.
      * destruct (Hb eq_refl) as (-> & HV & Hall & [Hc Hnc]).
        exists false, V', (({[ n ]} ∪ R) ∖ {[ n ]}). split; [done|]. intros _.
        assert (forall m, m ∈ deps g n -> m ∈ V' /\ (m ∉ R) /\ m <> n) as Hdeps.
        { intros m Hm%elem_of_elements. destruct (Hall m Hm) as [? Hno].
          split_and!; [done | set_solver | set_solver]. }
        split_and!; [set_solver | set_solver | set_solver | done |].
        split.
        -- intros b Hb1 Hb2 m Hm. destruct (decide (b = n)) as [->|Hne].
           ++ destruct (Hdeps m Hm) as (? & ? & ?). done.
           ++ assert (b ∉ ({[ n ]} ∪ R)) as HbR by set_solver.
              destruct (Hc b Hb1 HbR m Hm) as [? Hno].
              split; [done | set_solver].
        -- intros b Hb1 Hb2 Hcyc. destruct (decide (b = n)) as [->|Hne].
           ++ apply tc_nsteps in Hcyc as (k & Hk & Hsteps).
              destruct k as [|k]; [lia|].
              inversion Hsteps as [|? ? m ? Hnm Hrest]; subst.
              destruct (Hdeps m Hnm) as (HmV & HmR & Hmn).
              destruct k as [|k].
              ** inversion Hrest; subst. done.
              ** assert (tc (dep g) m n) as Hmn'.
                 { apply tc_nsteps. exists (S k). split; [lia | done]. }
                 destruct (finished_reach V' ({[ n ]} ∪ R) m n) as [_ Hbad];
                   [by split | done | set_solver | done |].
                 apply Hbad. set_solver.
           ++ apply (Hnc b); [done | set_solver | done].
Qed.

Lemma validate_nodes_spec fuel nodes :
  forall V,
    size (graph_ids g) < fuel -> finished_ok g V ∅ ->
    exists b,
      validate_nodes fuel g nodes (V, ∅) = Some b
      /\ (b = true ->
          exists V', finished_ok g V' ∅ /\ forall node, node ∈ nodes -> node_id node ∈ V').
Proof.
  induction nodes as [|node nodes IH]; intros V Hfuel Hok; simpl.
  - exists true. split; [done|]. intros _. exists V. split; [done|].
    intros node Hn. by apply elem_of_nil in Hn.
  - assert (forall V1, V ⊆ V1 -> node_id node ∈ V1 -> finished_ok g V1 ∅ ->
              exists b, validate_nodes fuel g nodes (V1, ∅) = Some b
                /\ (b = true -> exists V', finished_ok g V' ∅
                      /\ forall x, x ∈ node :: nodes -> node_id x ∈ V')) as Hrest.
    { intros V1 HV Hin Hok1. destruct (IH V1 Hfuel Hok1) as (b & Hb & Htrue).
      exists b. split; [done|]. intros ->.
      destruct (Htrue eq_refl) as (V' & Hok' & Hall).
      clear Hb Htrue. revert Hall. generalize nodes. clear IH.
      intros l Hall.
      assert (V1 ⊆ V' \/ True) as _ by by right.
      exists (V' ∪ V1). split.
      - destruct Hok' as [Hc Hn], Hok1 as [Hc1 Hn1]. split.
        + intros x Hx _ m Hm. split; [|set_solver].
          apply elem_of_union in Hx as [Hx|Hx].
          * destruct (Hc x Hx (not_elem_of_empty x) m Hm). set_solver.
          * destruct (Hc1 x Hx (not_elem_of_empty x) m Hm). set_solver.
        + intros x [Hx|Hx]%elem_of_union _; [apply Hn | apply Hn1]; set_solver.
      - intros x [->|Hx]%elem_of_cons; [set_solver|]. apply elem_of_union. left.
        by apply Hall. }
    case_bool_decide as Hv.
    + simpl in Hv. by apply Hrest.
    + destruct (has_cycle_spec fuel (node_id node) V ∅) as (b & V1 & R1 & -> & Hb).
      * destruct (decide (node_id node ∈ dict_keys g)) as [Hk|Hk].
        -- left. by apply graph_ids_key.
        -- right. by apply deps_not_key.
      * assert (graph_ids g ∖ V ⊆ graph_ids g) as Hsub by set_solver.
        apply subseteq_size in Hsub. lia.
      * done.
      * destruct b.
        -- exists false. by split.
        -- destruct (Hb eq_refl) as (-> & HV & Hin & _ & Hok1). by apply Hrest.
Qed.

End Dfs.

(** The depth bound of [validate_execution_graph] always suffices. *)
Lemma validate_nodes_total g nodes :
  is_Some (validate_nodes (S (size (graph_ids g))) g nodes (∅, ∅)).
Proof.
  destruct (validate_nodes_spec g (S (size (graph_ids g))) nodes ∅) as (b & -> & _).
  - lia.
  - split; intros b Hb; by apply not_elem_of_empty in Hb.
  - by eexists.
Qed.

(** More frames never change what a call returns. *)
Lemma for_dependencies_mono (rec rec' : string -> dfs_state -> option (bool * dfs_state)) ds :
  (forall d st r, rec d st = Some r -> rec' d st = Some r) ->
  forall st r, for_dependencies rec ds st = Some r -> for_dependencies rec' ds st = Some r.
Proof.
  intros Hrec. induction ds as [|d ds IH]; intros st r; simpl; [done|].
  destruct (rec d st) as [[[] st']|] eqn:Hd; [| |done].
  - by rewrite (Hrec _ _ _ Hd).
  - rewrite (Hrec _ _ _ Hd). apply IH.
Qed.

Lemma has_cycle_mono g fuel :
  forall fuel' n st r,
    fuel <= fuel' -> has_cycle fuel g n st = Some r -> has_cycle fuel' g n st = Some r.
Proof.
  induction fuel as [|fuel IH]; intros fuel' n [V R] r Hle; [done|].
  destruct fuel' as [|fuel']; [lia|]. simpl.
  case_bool_decide; [done|]. case_bool_decide; [done|].
  destruct (for_dependencies (has_cycle fuel g) (elements (deps g n)) ({[n]} ∪ V, {[n]} ∪ R))
    as [res|] eqn:Hfor; [|done].
  rewrite (for_dependencies_mono (has_cycle fuel g) (has_cycle fuel' g) _
             (fun d st r0 => IH fuel' d st r0 ltac:(lia)) _ _ Hfor).
  done.
Qed.

Lemma validate_nodes_mono g fuel fuel' nodes :
  fuel <= fuel' ->
  forall st b, validate_nodes fuel g nodes st = Some b -> validate_nodes fuel' g nodes st = Some b.
Proof.
  intros Hle. induction nodes as [|node nodes IH]; intros st b; simpl; [done|].
  case_bool_decide; [apply IH|].
  destruct (has_cycle fuel g (node_id node) st) as [[[] st']|] eqn:Hc; [| |done].
  - by rewrite (has_cycle_mono g fuel fuel' _ _ _ Hle Hc).
  - rewrite (has_cycle_mono g fuel fuel' _ _ _ Hle Hc). apply IH.
Qed.

(** With more frames than the graph has ids, validation returns, and
    returns what [validate_execution_graph] says. *)
Lemma validate_within_enough frames g nodes :
  size (graph_ids g) < frames ->
  validate_within frames g nodes = Some (validate_execution_graph g nodes).
Proof.
  intros Hframes. unfold validate_within, validate_execution_graph.
  destruct (validate_nodes_total g nodes) as [b Hb]. rewrite Hb. simpl.
  apply (validate_nodes_mono g (S (size (graph_ids g)))); [lia | done].
Qed.

(** A graph that passes validation has no cycle through a listed node. *)
Lemma validate_no_cycle g nodes node :
  validate_execution_graph g nodes = true ->
  node ∈ nodes -> ~ tc (dep g) (node_id node) (node_id node).
Proof.
  unfold validate_execution_graph. intros Hv Hin.
  destruct (validate_nodes_spec g (S (size (graph_ids g))) nodes ∅) as (b & Hb & Htrue).
  - lia.
  - split; intros x Hx; by apply not_elem_of_empty in Hx.
  - rewrite Hb in Hv. simpl in Hv. subst b.
    destruct (Htrue eq_refl) as (V' & [_ Hn] & Hall).
    apply Hn; [by apply Hall | apply not_elem_of_empty].
Qed.

(** Every cycle among listed nodes is detected. *)
Lemma validate_rejects_cycle nodes edges :
  (forall e, e ∈ edges -> target e ∈ node_ids nodes) ->
  has_a_cycle (build_execution_graph nodes edges) ->
  validate_execution_graph (build_execution_graph nodes edges) nodes = false.
Proof.
  intros Hwf [c Hc].
  destruct (validate_execution_graph (build_execution_graph nodes edges) nodes) eqn:Hv; [|done].
  exfalso.
  assert (c ∈ node_ids nodes) as Hin.
  { apply tc_nsteps in Hc as (k & Hk & Hsteps). destruct k as [|k]; [lia|].
    inversion Hsteps as [|? ? m ? Hcm _]; subst.
    apply build_deps in Hcm as (e & He & _ & <-). by apply Hwf. }
  apply list_elem_of_fmap in Hin as (node & -> & Hin).
  by apply (validate_no_cycle _ _ _ Hv Hin).
Qed.

(** ** Input resolution *)

Lemma contains_dot_after s : contains_dot s = true -> is_Some (after_first_dot s).
Proof.
  induction s as [|c s IH]; simpl; [done|].
  destruct (Ascii.eqb c "."); [by eexists | exact IH].
Qed.

Lemma apply_mappings_total mappings content input_data :
  (forall m, m ∈ mappings -> is_Some (outputVariable m) /\ is_Some (targetVariable m)) ->
  exists d, apply_mappings mappings content input_data = Ok d.
Proof.
  revert input_data. induction mappings as [|m ms IH]; intros input_data Hwf; simpl.
  - by eexists.
  - destruct (Hwf m) as [[ov ->] [tv ->]]; [left|].
    apply IH. intros m' Hm'. apply Hwf. by right.
Qed.

Lemma resolve_single_output_total content th input_data :
  exists d, resolve_single_output content th input_data = Ok d.
Proof.
  unfold resolve_single_output.
  destruct content; destruct th as [th|];
    try destruct (String.eqb th ""); try by eexists.
  destruct (dict_get th d); [by eexists|].
  destruct (contains_dot th) eqn:Hdot; cbn [andb]; [|by eexists].
  destruct (startswith "output." th); [|by eexists].
  destruct (contains_dot_after th Hdot) as [v ->].
  destruct (dict_get v d); by eexists.
Qed.

Lemma resolve_dotted_source_total sh content th input_data :
  contains_dot sh = true ->
  exists d, resolve_dotted_source sh content th input_data = Ok d.
Proof.
  intros Hdot. unfold resolve_dotted_source.
  destruct (contains_dot_after sh Hdot) as [v ->].
  destruct content; destruct th as [th|]; try by eexists.
  destruct (dict_get v d); [|by eexists]. destruct (String.eqb th ""); by eexists.
Qed.

Lemma resolve_edge_total nid outs input_data edge :
  wf_edge edge -> exists d, resolve_edge nid outs input_data edge = Ok d.
Proof.
  intros Hwf. unfold resolve_edge.
  destruct (negb (String.eqb (target edge) nid)); [by eexists|].
  destruct (dict_get (source edge) outs) as [so|]; [|by eexists].
  destruct (sourceHandle edge) as [sh|]; [|by eexists].
  destruct (String.eqb sh ""); [by eexists|].
  unfold wf_edge in Hwf. destruct (data edge) as [| |multi ms]; [|done|].
  - cbn -[startswith contains_dot]. destruct (nested_output so) as [oc|]; [|by eexists].
    destruct (String.eqb sh "output"); [apply resolve_single_output_total|].
    destruct (contains_dot sh) eqn:Hdot; cbn [andb]; [|by eexists].
    destruct (startswith "output." sh); [|by eexists].
    by apply resolve_dotted_source_total.
  - destruct (multi && match ms with [] => false | _ => true end).
    + destruct (nested_output so) as [[]|]; try by eexists.
      by apply apply_mappings_total.
    + destruct (nested_output so) as [oc|]; [|by eexists].
      destruct (String.eqb sh "output"); [apply resolve_single_output_total|].
      destruct (contains_dot sh) eqn:Hdot; cbn [andb]; [|by eexists].
      destruct (startswith "output." sh); [|by eexists].
      by apply resolve_dotted_source_total.
Qed.

Lemma resolve_edges_total nid outs edges input_data :
  (forall e, e ∈ edges -> wf_edge e) ->
  exists d, resolve_edges nid outs edges input_data = Ok d.
Proof.
  revert input_data. induction edges as [|e edges IH]; intros input_data Hwf; simpl.
  - by eexists.
  - destruct (resolve_edge_total nid outs input_data e) as [d ->]; [apply Hwf; left|].
    apply IH. intros e' He'. apply Hwf. by right.
Qed.









Lemma dotted_handle field :
  contains_dot ("output." ++ field) = true
  /\ startswith "output." ("output." ++ field) = true
  /\ after_first_dot ("output." ++ field) = Some field
  /\ String.eqb ("output." ++ field) "" = false.
Proof. done. Qed.

(** The single-edge case of the [source_handle == 'output'] branch. *)
Lemma prepare_single_output nid node edge outs so oc :
  target edge = nid ->
  sourceHandle edge = Some "output" ->
  is_multi_variable edge = false ->
  data edge <> DataNotDict ->
  dict_get (source edge) outs = Some so ->
  nested_output so = Some oc ->
  prepare_component_input nid [edge] outs node
  = match resolve_single_output oc (targetHandle edge)
            (dict_update [] (default [] (input_values node))) with
    | Ok d => Ok d
    | Raise e => Raise e
    end.
Proof.
  intros Ht Hsh Hmulti Hdata Hso Hnested.
  unfold prepare_component_input. simpl. unfold resolve_edge.
  rewrite Ht, String.eqb_refl, Hso, Hsh. simpl.
  unfold is_multi_variable in Hmulti.
  destruct (data edge) as [| |multi ms]; [|done|].
  - simpl. by rewrite Hnested.
  - assert (multi && match ms with [] => false | _ => true end = false) as ->.
    { destruct multi, ms; done. }
    by rewrite Hnested.
Qed.

(** C4. With no configured values and one incoming edge from handle
    [output] to handle [text], the source output
    [{"output": {"text": "hi", "length": 2}}] resolves to exactly
    [{"text": "hi"}]. *)
Theorem resolve_named_field nid node edge outs :
  default [] (input_values node) = [] ->
  target edge = nid ->
  sourceHandle edge = Some "output" ->
  targetHandle edge = Some "text" ->
  is_multi_variable edge = false ->
  data edge <> DataNotDict ->
  dict_get (source edge) outs
    = Some (PDict [("output", PDict [("text", PStr "hi"); ("length", PInt 2)])]) ->
  prepare_component_input nid [edge] outs node = Ok [("text", PStr "hi")].
Proof.
  intros Hcfg Ht Hsh Hth Hmulti Hdata Hso.
  rewrite (prepare_single_output nid node edge outs _ _ Ht Hsh Hmulti Hdata Hso eq_refl).
  by rewrite Hcfg, Hth.
Qed.

(** C5. For an edge from handle [output] whose source output nests a dict
    under [output]: a target handle [output.<field>] that is not itself a
    key copies the value of [<field>] (under the target handle); without a
    target handle, or with one that is neither a key nor of the dotted
    form, all nested fields are merged into the input map; so
    [{"output": {"text": "hi", "length": 2}}] without a target handle
    yields both [text] and [length]. *)
Theorem resolve_nested_output nid node edge outs so content :
  target edge = nid ->
  sourceHandle edge = Some "output" ->
  is_multi_variable edge = false ->
  data edge <> DataNotDict ->
  dict_get (source edge) outs = Some so ->
  nested_output so = Some (PDict content) ->
  let configured := dict_update [] (default [] (input_values node)) in
  (forall field v,
     targetHandle edge = Some ("output." ++ field) ->
     dict_get ("output." ++ field) content = None ->
     dict_get field content = Some v ->
     prepare_component_input nid [edge] outs node
     = Ok (dict_set ("output." ++ field) v configured))
  /\ (str_truthy (targetHandle edge) = false
      \/ (exists th, targetHandle edge = Some th /\ dict_get th content = None
                     /\ startswith "output." th = false) ->
      prepare_component_input nid [edge] outs node = Ok (dict_update configured content))
  /\ (content = [("text", PStr "hi"); ("length", PInt 2)] ->
      str_truthy (targetHandle edge) = false ->
      exists input_data,
        prepare_component_input nid [edge] outs node = Ok input_data
        /\ dict_get "text" input_data = Some (PStr "hi")
        /\ dict_get "length" input_data = Some (PInt 2)).
Proof.
  intros Ht Hsh Hmulti Hdata Hso Hnested configured.
  rewrite (prepare_single_output nid node edge outs _ _ Ht Hsh Hmulti Hdata Hso Hnested).
  fold configured.
  assert (str_truthy (targetHandle edge) = false ->
          resolve_single_output (PDict content) (targetHandle edge) configured
          = Ok (dict_update configured content)) as Hnone.
  { unfold str_truthy. simpl. destruct (targetHandle edge) as [th|]; [|done].
    by destruct (String.eqb th ""). }
  split_and!.
  - intros field v -> Hkey Hfield.
    destruct (dotted_handle field) as (H1 & H2 & H3 & H4).
    unfold resolve_single_output. by rewrite H4, Hkey, H1, H2, H3, Hfield.
  - intros [Hth|(th & -> & Hkey & Hpre)]; [by rewrite Hnone|].
    unfold resolve_single_output. rewrite Hkey, Hpre, andb_false_r.
    by destruct (String.eqb th "").
  - intros -> Hth. rewrite (Hnone Hth). eexists. split; [done|].
    unfold dict_update. simpl. split.
    + by rewrite dict_get_set_ne, dict_get_set_eq.
    + by rewrite dict_get_set_eq.
Qed.

(** ** The worker pool *)

Lemma elem_of_port_range base count p :
  p ∈ port_range base count <-> (base <= p < base + count)%Z.
Proof. unfold port_range. by rewrite elem_of_list_to_set, elem_of_seqZ. Qed.

Lemma new_manager_partition base count : ports_partition (new_manager base count).
Proof. split; simpl; set_solver. Qed.

Lemma take_port_partition (pool used range : gset Z) p :
  p ∈ pool -> pool ## used -> pool ∪ used = range ->
  (pool ∖ {[ p ]}) ## ({[ p ]} ∪ used) /\ pool ∖ {[ p ]} ∪ ({[ p ]} ∪ used) = range.
Proof.
  intros Hp Hdisj <-. split; [set_solver|].
  apply set_eq. intros x. destruct (decide (x = p)); set_solver.
Qed.

Lemma return_port_partition (pool used range : gset Z) p :
  p ∈ pool -> pool ## used -> pool ∪ used = range ->
  ({[ p ]} ∪ pool ∖ {[ p ]}) ## (({[ p ]} ∪ used) ∖ {[ p ]})
  /\ {[ p ]} ∪ pool ∖ {[ p ]} ∪ ({[ p ]} ∪ used) ∖ {[ p ]} = range.
Proof.
  intros Hp Hdisj <-. split; [set_solver|].
  apply set_eq. intros x. destruct (decide (x = p)); set_solver.
Qed.

(** Taking a free port and giving it back keep the partition, whatever the
    start-up does. *)
Lemma create_process_partition env config m :
  env_ok m env -> ports_partition m -> ports_partition (create_process env config m).1.
Proof.
  unfold env_ok, ports_partition, create_process. intros Hp [Hdisj Hunion].
  case_bool_decide as Hempty; [done|].
  destruct (startup env); simpl;
    first [ by apply take_port_partition | by apply return_port_partition ].
Qed.

Lemma stop_process_partition env fp m :
  port fp ∈ port_range (base_port m) (max_processes m) ->
  ports_partition m -> ports_partition (stop_process env fp m).
Proof.
  unfold ports_partition, stop_process. intros Hp [Hdisj Hunion].
  destruct (terminate_raises env fp); [done|]. simpl. rewrite <- Hunion in *.
  split; [set_solver|].
  apply set_eq. intros x. destruct (decide (x = port fp)); set_solver.
Qed.

(** Stopping twice is stopping once. *)
Lemma stop_process_idempotent env fp m :
  stop_process env fp (stop_process env fp m) = stop_process env fp m.
Proof.
  unfold stop_process. destruct (terminate_raises env fp) eqn:Hr; rewrite ?Hr; [done|].
  simpl. f_equal.
  - apply delete_delete_eq.
  - set_solver.
  - set_solver.
Qed.

(** A start-up that times out hands the port back but leaves the process
    in the registry, marked [error]. *)
Lemma create_process_timeout env config m pid diagnostics :
  port_pool m <> ∅ ->
  startup env = timed_out pid diagnostics ->
  let m' := (create_process env config m).1 in
  (create_process env config m).2
    = Raise ("Failed to create flow process: " ++ startup_timeout_message diagnostics)
  /\ popped env ∈ port_pool m'
  /\ (popped env ∉ used_ports m')
  /\ exists fp,
       processes m' !! get_process_key (cfg_flow_id config) (cfg_flow_version config) = Some fp
       /\ fp_status fp = "error" /\ port fp = popped env.
Proof.
  intros Hpool Hstart. unfold create_process.
  rewrite bool_decide_eq_false_2 by done. rewrite Hstart. simpl.
  split_and!; [done | set_solver | set_solver |].
  eexists. split; [apply lookup_insert_eq | done].
Qed.

(** C7 (the code departs from it). A worker for flow [flow-a], version [1],
    is created on a fresh pool and never answers the health poll: the call
    raises with the captured diagnostics and port 8100 is free again, but
    the registry still holds the process under [flow-a:1], marked
    [error], with the port it no longer owns. *)
Theorem startup_timeout_keeps_registry_entry :
  let env := mkEnv 0 8100 (timed_out 4242 (communicated "" "Address already in use"))
               false (fun _ => false) in
  let r := create_process env (mkConfig "flow-a" "1") (new_manager 8100 50) in
  r.2 = Raise ("Failed to create flow process: "
               ++ "Process failed to start within 30 seconds. Error: Address already in use")
  /\ 8100%Z ∈ port_pool r.1
  /\ (8100%Z ∉ used_ports r.1)
  /\ ports_partition r.1
  /\ processes r.1 !! "flow-a:1"
     = Some (mkFlowProcess "flow-a" "1" 4242 8100 0 0 0 "error").
Proof.
  intros env r.
  assert (port_pool (new_manager 8100 50) <> ∅) as Hpool.
  { intros H. assert (8100%Z ∈ port_pool (new_manager 8100 50)) as Hin.
    { apply elem_of_port_range. lia. }
    rewrite H in Hin. by apply not_elem_of_empty in Hin. }
  destruct (create_process_timeout env (mkConfig "flow-a" "1") (new_manager 8100 50)
              4242 (communicated "" "Address already in use") Hpool eq_refl)
    as (H1 & H2 & H3 & _).
  split_and!; [exact H1 | exact H2 | exact H3 | |].
  - apply create_process_partition; [|apply new_manager_partition].
    unfold env_ok. apply elem_of_port_range. simpl. lia.
  - unfold r, create_process. rewrite bool_decide_eq_false_2 by done. simpl.
    apply lookup_insert_eq.
Qed.

(** C6 (the code departs from it). Three requests on a fresh pool: a
    worker for [flow-a] times out at start-up; a worker for [flow-b] is
    created and gets the port just handed back; [flow-a] is requested
    again, its stale entry is stopped (which frees the port [flow-b] is
    using) and a new worker is created on that same port. The port sets
    still partition the range, yet two live workers under distinct keys
    share port 8100. *)
Theorem live_workers_share_a_port :
  let m0 := new_manager 8100 50 in
  let env1 := mkEnv 0 8100 (timed_out 4242 communicate_failed) false (fun _ => false) in
  let env2 := mkEnv 10 8100 (became_ready 4243) false (fun _ => false) in
  let env3 := mkEnv 20 8100 (became_ready 4244) false (fun _ => false) in
  let a := mkConfig "flow-a" "1" in
  let b := mkConfig "flow-b" "1" in
  let m1 := (get_or_create_process env1 a m0).1 in
  let m2 := (get_or_create_process env2 b m1).1 in
  let m3 := (get_or_create_process env3 a m2).1 in
  let stale := mkFlowProcess "flow-a" "1" 4242 8100 0 0 0 "error" in
  env_ok m0 env1 /\ env_ok m1 env2 /\ env_ok (stop_process env3 stale m2) env3
  /\ processes m2 !! "flow-a:1" = Some stale
  /\ ports_partition m3
  /\ live m3 "flow-a:1" (mkFlowProcess "flow-a" "1" 4244 8100 20 20 0 "ready")
  /\ live m3 "flow-b:1" (mkFlowProcess "flow-b" "1" 4243 8100 10 10 0 "ready")
  /\ ~ live_ports_distinct m3.
Proof.
  intros m0 env1 env2 env3 a b m1 m2 m3 stale.
  assert (processes m1 = {[ "flow-a:1" := stale ]}
          /\ port_pool m1 = port_range 8100 50 /\ used_ports m1 = ∅) as (P1 & Q1 & U1).
  { by vm_compute. }
  assert (processes m2 !! "flow-a:1" = Some stale) as P2a by by vm_compute.
  assert (live m3 "flow-a:1" (mkFlowProcess "flow-a" "1" 4244 8100 20 20 0 "ready")) as La.
  { split; by vm_compute. }
  assert (live m3 "flow-b:1" (mkFlowProcess "flow-b" "1" 4243 8100 10 10 0 "ready")) as Lb.
  { split; by vm_compute. }
  split_and!; [| | |done| |done|done|].
  - unfold env_ok. apply elem_of_port_range. simpl. lia.
  - unfold env_ok. rewrite Q1. apply elem_of_port_range. simpl. lia.
  - unfold env_ok, stop_process. simpl. set_solver.
  - split.
    + apply (bool_decide_unpack _). by vm_compute.
    + apply (bool_decide_unpack _). by vm_compute.
  - intros Hdistinct. by apply (Hdistinct "flow-a:1" "flow-b:1" _ _ ltac:(done) La Lb).
Qed.

(** ** The execution loop *)

Lemma map_on_component_compose cid f h l :
  (forall ce, component_id (f ce) = component_id ce) ->
  map (on_component cid h) (map (on_component cid f) l)
  = map (on_component cid (fun ce => h (f ce))) l.
Proof.
  intros Hid. rewrite map_map. apply map_ext. intros ce. unfold on_component.
  destruct (String.eqb (component_id ce) cid) eqn:E; [by rewrite Hid, E | by rewrite E].
Qed.

Lemma on_component_id cid f ce :
  (forall ce, component_id (f ce) = component_id ce) ->
  component_id (on_component cid f ce) = component_id ce.
Proof. intros Hid. unfold on_component. by destruct (String.eqb _ _). Qed.

Lemma not_started_app (l1 l2 : list Notification) x :
  component_started x ∈ (l1 ++ l2)%list <-> component_started x ∈ l1 \/ component_started x ∈ l2.
Proof. apply elem_of_app. Qed.

(** Closes the cases of [run_node_frame] in which the iteration raises. *)
Ltac frame_failed :=
  eexists _, _; rewrite !map_on_component_compose by done;
  split_and!; try done;
  [ by rewrite <- !app_assoc
  | intros x; simpl; rewrite !elem_of_cons, elem_of_nil; intros H;
    repeat (destruct H as [H|H]; [done|]); done
  | done
  | first [ by left | by right; left | by right; right; left; eexists _, _
          | by right; right; right; eexists _, _, _ ] ].

Section EngineFacts.

Variable factory : ExecutorFactory.

(** What one iteration does to the state, whatever its outcome. *)
Lemma run_node_frame edges total i nid node outs db :
  let r := run_node factory edges total i nid node outs db in
  exists f rest,
    component_executions r.1 = map (on_component nid f) (component_executions db)
    /\ (forall ce, component_id (f ce) = component_id ce)
    /\ notifications r.1 = (notifications db ++ component_started nid :: rest)%list
    /\ (forall x, component_started x ∉ rest)
    /\ status (execution r.1) = status (execution db)
    /\ fe_error_message (execution r.1) = fe_error_message (execution db)
    /\ final_output (execution r.1) = final_output (execution db)
    /\ match r.2 with
       | Raise e =>
           (forall ce, ce_status (f ce) = "failed") /\ progress_values rest = []
           /\ (prepare_component_input nid edges outs node = Raise e
               \/ (factory (component_type node) = None
                   /\ e = "Unknown component type: " ++ component_type node)
               \/ (exists input executor,
                     prepare_component_input nid edges outs node = Ok input
                     /\ factory (component_type node) = Some executor
                     /\ executor (mkContext nid (component_type node) node input) = Raise e)
               \/ (exists input executor result,
                     prepare_component_input nid edges outs node = Ok input
                     /\ factory (component_type node) = Some executor
                     /\ executor (mkContext nid (component_type node) node input) = Ok result
                     /\ percent (Z.of_nat (i + 1)) (Z.of_nat total) = Raise e))
       | Ok outs' =>
           exists input executor result p,
             prepare_component_input nid edges outs node = Ok input
             /\ factory (component_type node) = Some executor
             /\ executor (mkContext nid (component_type node) node input) = Ok result
             /\ percent (Z.of_nat (i + 1)) (Z.of_nat total) = Ok p
             /\ outs' = dict_set nid (output_data result) outs
             /\ rest = [component_completed nid; execution_progress p]
             /\ forall ce, ce_status (f ce) = if success result then "completed" else "failed"
       end.
Proof.
  unfold run_node, run_component, component_failure, try_except, bind, lift, get_executor,
    update_execution_progress, update_component_execution, update_component_status,
    log_execution, notify, modify, ret, raise, set_component, set_execution.
  cbn -[percent prepare_component_input].
  destruct (prepare_component_input nid edges outs node) as [input|e] eqn:Hprep;
    [|cbn -[percent]; frame_failed].
  destruct (factory (component_type node)) as [executor|] eqn:Hfac;
    [|cbn -[percent]; frame_failed].
  cbn -[percent].
  destruct (executor _) as [result|e] eqn:Hexec; [|cbn -[percent]; frame_failed].
  cbn -[percent].
  destruct (percent (Z.of_nat (i + 1)) (Z.of_nat total)) as [p|e] eqn:Hp.
  - cbn. eexists _, _.
    rewrite map_on_component_compose by done.
    split_and!; try done.
    + by rewrite <- !app_assoc.
    + intros x. simpl. rewrite !elem_of_cons, elem_of_nil. intros [?|[?|?]]; done.
    + eexists input, executor, result, p. split_and!; try done.
  - cbn. frame_failed.
Qed.


Lemma lookup_node_cases nodes nid db :
  (exists node, dict_get nid (node_map nodes) = Some node
                /\ lookup_node nodes nid db = (db, Ok node))
  \/ (dict_get nid (node_map nodes) = None
      /\ lookup_node nodes nid db = (db, Raise (py_repr nid))).
Proof.
  unfold lookup_node. destruct (dict_get nid (node_map nodes)) as [node|].
  - left. by exists node.
  - by right.
Qed.

(** The loop as [execute_flow] runs it is [run_order] without its result. *)
Lemma execute_components_from_run nodes edges total l :
  forall i outs db,
    execute_components_from factory nodes edges total i l outs db
    = ((run_order factory nodes edges total i l outs db).1,
       match (run_order factory nodes edges total i l outs db).2 with
       | Ok _ => Ok tt
       | Raise e => Raise e
       end).
Proof.
  induction l as [|nid l IH]; intros i outs db; [done|].
  cbn [execute_components_from run_order]. unfold bind.
  destruct (lookup_node nodes nid db) as [db1 [node|e]]; [|done].
  fold (run_node factory edges total i nid node outs).
  destruct (run_node factory edges total i nid node outs db1) as [db2 [outs2|e]]; [|done].
  apply IH.
Qed.

Lemma run_order_app nodes edges total l1 l2 :
  forall i outs db,
    run_order factory nodes edges total i (l1 ++ l2) outs db
    = match run_order factory nodes edges total i l1 outs db with
      | (db1, Ok outs1) => run_order factory nodes edges total (i + length l1) l2 outs1 db1
      | (db1, Raise e) => (db1, Raise e)
      end.
Proof.
  induction l1 as [|nid l1 IH]; intros i outs db.
  - simpl. by rewrite Nat.add_0_r.
  - cbn [app run_order length]. unfold bind.
    destruct (lookup_node nodes nid db) as [db1 [node|e]]; [|done].
    destruct (run_node factory edges total i nid node outs db1) as [db2 [outs2|e]]; [|done].
    rewrite IH. by replace (i + S (length l1)) with (S i + length l1) by lia.
Qed.

(** What the loop over [l] does to the state, whatever its outcome: it only
    appends notifications, starts only nodes of [l], rewrites only rows of
    nodes of [l], and leaves status, message and final output of the
    execution row alone. *)
Lemma run_order_frame nodes edges total l :
  forall i outs db,
    let r := run_order factory nodes edges total i l outs db in
    (exists extra,
       notifications r.1 = (notifications db ++ extra)%list
       /\ forall x, component_started x ∈ extra -> x ∈ l)
    /\ (exists F,
         component_executions r.1 = map F (component_executions db)
         /\ (forall ce, component_id (F ce) = component_id ce)
         /\ (forall ce, component_id ce ∉ l -> F ce = ce))
    /\ status (execution r.1) = status (execution db)
    /\ fe_error_message (execution r.1) = fe_error_message (execution db)
    /\ final_output (execution r.1) = final_output (execution db).
Proof.
  induction l as [|nid l IH]; intros i outs db.
  - simpl. split_and!; try done.
    + exists []. split; [by rewrite app_nil_r|]. intros x Hx. by apply elem_of_nil in Hx.
    + exists (fun ce => ce). split_and!; [by rewrite map_id | done | done].
  - cbn [run_order]. unfold bind.
    destruct (lookup_node_cases nodes nid db) as [(node & _ & ->)|(_ & ->)].
    2:{ simpl. split_and!; try done.
        + exists []. split; [by rewrite app_nil_r|]. intros x Hx. by apply elem_of_nil in Hx.
        + exists (fun ce => ce). split_and!; [by rewrite map_id | done | done]. }
    pose proof (run_node_frame edges total i nid node outs db) as Hframe.
    destruct (run_node factory edges total i nid node outs db) as [db1 [outs1|e]].
    + destruct Hframe as (f & rest & Hces & Hid & Hnot & Hrest & Hst & Hmsg & Hout & _).
      simpl in Hces, Hnot, Hst, Hmsg, Hout.
      specialize (IH (S i) outs1 db1).
      destruct IH as ((extra & Hextra & Hstarted) & (F & HF & HFid & HFother) & Hst' & Hmsg' & Hout').
      split_and!; [| |congruence..].
      * exists (component_started nid :: rest ++ extra)%list. split.
        -- rewrite Hextra, Hnot. by rewrite <- app_assoc.
        -- intros x [[= ->]|[Hx|Hx]%elem_of_app]%elem_of_cons; [left | by apply Hrest in Hx |].
           right. by apply Hstarted.
      * exists (fun ce => F (on_component nid f ce)). split_and!.
        -- by rewrite HF, Hces, map_map.
        -- intros ce. by rewrite HFid, on_component_id.
        -- intros ce [Hne Hl]%not_elem_of_cons. unfold on_component.
           rewrite (proj2 (String.eqb_neq _ _) Hne). by apply HFother.
    + destruct Hframe as (f & rest & Hces & Hid & Hnot & Hrest & Hst & Hmsg & Hout & _).
      simpl in Hces, Hnot, Hst, Hmsg, Hout. simpl.
      split_and!; [| |done..].
      * exists (component_started nid :: rest). split; [done|].
        intros x [[= ->]|Hx]%elem_of_cons; [left | by apply Hrest in Hx].
      * exists (on_component nid f). split_and!; [done | by intros; apply on_component_id |].
        intros ce [Hne Hl]%not_elem_of_cons. unfold on_component.
        by rewrite (proj2 (String.eqb_neq _ _) Hne).
Qed.

End EngineFacts.

Lemma node_map_keys nodes x :
  is_Some (dict_get x (node_map nodes)) <-> x ∈ node_ids nodes.
Proof.
  rewrite dict_get_is_Some. unfold node_map.
  assert (forall m, x ∈ dict_keys (fold_left (fun m node => dict_set (node_id node) node m) nodes m)
            <-> x ∈ dict_keys m \/ x ∈ node_ids nodes) as H.
  { induction nodes as [|node nodes IH]; intros m; simpl.
    - rewrite elem_of_nil. tauto.
    - rewrite IH, elem_of_dict_keys_set, elem_of_cons. tauto. }
  rewrite H. simpl. rewrite elem_of_nil. tauto.
Qed.

Lemma create_records_from_spec nodes order :
  forall i db,
    create_records_from i nodes order db
    = (mkDb (execution db) (component_executions db ++ pending_records i nodes order)
         (execution_logs db) (notifications db),
       match list_find (fun x => dict_get x (node_map nodes) = None) order with
       | Some (_, x) => Raise (py_repr x)
       | None => Ok tt
       end).
Proof.
  induction order as [|nid order IH]; intros i db.
  - simpl. unfold ret. rewrite app_nil_r. by destruct db.
  - cbn [create_records_from pending_records list_find]. unfold bind, lookup_node.
    destruct (dict_get nid (node_map nodes)) as [node|] eqn:Hn.
    + unfold ret, modify. rewrite IH. cbn. rewrite <- app_assoc. simpl.
      by destruct (list_find _ order) as [[k x]|].
    + unfold raise. simpl. rewrite app_nil_r. by destruct db.
Qed.

Lemma pending_records_spec nodes order :
  (forall x, x ∈ order -> is_Some (dict_get x (node_map nodes))) ->
  forall i,
    map component_id (pending_records i nodes order) = order
    /\ forall ce, ce ∈ pending_records i nodes order -> ce_status ce = "pending".
Proof.
  induction order as [|nid order IH]; intros Hall i; simpl.
  - split; [done|]. intros ce Hce. by apply elem_of_nil in Hce.
  - destruct (Hall nid) as [node ->]; [left|].
    destruct (IH (fun x Hx => Hall x (list_elem_of_further _ _ _ Hx)) (S i)) as [IH1 IH2].
    simpl. split; [by rewrite IH1|].
    intros ce [->|Hce]%elem_of_cons; [done | by apply IH2].
Qed.

Section EngineRun.

Variable factory : ExecutorFactory.

Lemma finalize_execution_spec db :
  let r := finalize_execution db in
  r.2 = Ok tt
  /\ component_executions r.1 = component_executions db
  /\ (exists n, notifications r.1 = (notifications db ++ [n])%list
               /\ forall x, n <> component_started x)
  /\ (forallb (fun ce => String.eqb (ce_status ce) "completed") (component_executions db) = false ->
      status (execution r.1) = "failed"
      /\ fe_error_message (execution r.1) = Some "One or more components failed"
      /\ final_output (execution r.1) = final_output (execution db))
  /\ (forallb (fun ce => String.eqb (ce_status ce) "completed") (component_executions db) = true ->
      status (execution r.1) = "completed"
      /\ fe_error_message (execution r.1) = fe_error_message (execution db)
      /\ final_output (execution r.1) = Some (collect_final_output (component_executions db))).
Proof.
  unfold finalize_execution.
  destruct (forallb _ (component_executions db)); cbn;
    (split_and!; [done | done | eexists; split; [done | done] | done | done]).
Qed.

Lemma execution_failure_spec e db :
  let r := execution_failure e db in
  r.2 = Raise e
  /\ component_executions r.1 = component_executions db
  /\ notifications r.1 = (notifications db ++ [execution_failed e])%list
  /\ status (execution r.1) = "failed"
  /\ (e <> "" -> fe_error_message (execution r.1) = Some e)
  /\ final_output (execution r.1) = final_output (execution db).
Proof.
  unfold execution_failure. cbn. split_and!; try done.
  intros He. by rewrite (proj2 (String.eqb_neq _ _) He).
Qed.

(** The shape of a run that gets as far as the loop. *)
Lemma execute_flow_run nodes edges order :
  nodes <> [] ->
  validate_execution_graph (build_execution_graph nodes edges) nodes = true ->
  calculate_execution_order (build_execution_graph nodes edges) nodes = Ok order ->
  (forall x, x ∈ order -> is_Some (dict_get x (node_map nodes))) ->
  execute_flow factory nodes edges
  = match run_order factory nodes edges (length order) 0 order [] (running_db nodes order) with
    | (db1, Ok _) => finalize_execution db1
    | (db1, Raise e) => execution_failure e db1
    end.
Proof.
  intros Hne Hval Hcalc Hall.
  unfold execute_flow, try_except, execute_flow_body.
  destruct nodes as [|node nodes]; [done|].
  rewrite Hval, Hcalc. cbn [negb].
  unfold bind at 1. unfold lift at 1.
  unfold bind at 1. unfold create_component_execution_records.
  rewrite create_records_from_spec.
  assert (list_find (fun x => dict_get x (node_map (node :: nodes)) = None) order = None) as ->.
  { apply list_find_None. apply Forall_forall. intros x Hx Hnone.
    destruct (Hall x Hx) as [v Hv]. congruence. }
  unfold execute_components. cbn -[run_order execute_components_from pending_records node_map
    finalize_execution str_of_nat length execution_failure].
  unfold bind. rewrite execute_components_from_run.
  unfold running_db.
  destruct (run_order _ _ _ _ _ _ _ _) as [db1 [outs|e]]; cbn -[finalize_execution execution_failure].
  - pose proof (finalize_execution_spec db1) as [H _].
    destruct (finalize_execution db1) as [db2 o]. simpl in H. by subst.
  - done.
Qed.

(** A run that stops before the loop starts no component. *)
Lemma execute_flow_no_run nodes edges x :
  started x (execute_flow factory nodes edges).1 ->
  nodes <> []
  /\ validate_execution_graph (build_execution_graph nodes edges) nodes = true
  /\ exists order,
       calculate_execution_order (build_execution_graph nodes edges) nodes = Ok order
       /\ forall y, y ∈ order -> is_Some (dict_get y (node_map nodes)).
Proof.
  unfold started, execute_flow, try_except, execute_flow_body.
  destruct nodes as [|node nodes].
  { cbn. by intros ?%elem_of_nil. }
  destruct (validate_execution_graph _ _) eqn:Hval.
  2:{ cbn. by intros ?%elem_of_nil. }
  cbn [negb].
  destruct (calculate_execution_order _ _) as [order|e] eqn:Hcalc.
  2:{ cbn. rewrite elem_of_cons, elem_of_nil. intros [?|?]; done. }
  intros Hstarted. split_and!; [done | done |]. exists order. split; [done|].
  apply Forall_forall.
  destruct (decide (Forall (fun y => is_Some (dict_get y (node_map (node :: nodes)))) order))
    as [|Hno]; [done|]. exfalso.
  apply not_Forall_Exists in Hno; [|apply _].
  assert (exists k y, list_find (fun x => dict_get x (node_map (node :: nodes)) = None) order
                      = Some (k, y)) as (k & y & Hfind).
  { destruct (list_find _ order) as [[k y]|] eqn:Hfind; [by eexists _, _|].
    exfalso. apply list_find_None in Hfind.
    apply Exists_exists in Hno as (z & Hz & Hnone).
    rewrite Forall_forall in Hfind. apply (Hfind z Hz).
    simpl in Hnone. rewrite <- not_eq_None_Some in Hnone.
    destruct (dict_get z _); [exfalso; by apply Hnone | done]. }
  revert Hstarted.
  unfold bind at 1. unfold lift at 1.
  unfold bind at 1. unfold create_component_execution_records.
  rewrite create_records_from_spec, Hfind. cbn.
  rewrite elem_of_cons, elem_of_nil. intros [?|?]; done.
Qed.

End EngineRun.

Lemma calculate_Ok_kahn g nodes order :
  calculate_execution_order g nodes = Ok order -> kahn g nodes = Some order.
Proof.
  unfold calculate_execution_order. destruct (kahn g nodes) as [o|]; [|done].
  case_bool_decide; [done|]. by intros [= ->].
Qed.

(** The order of a run has no duplicates. *)
Lemma calculate_Ok_NoDup nodes edges order :
  calculate_execution_order (build_execution_graph nodes edges) nodes = Ok order ->
  NoDup order.
Proof.
  intros H%calculate_Ok_kahn.
  by destruct (kahn_order_sound _ _ _ (build_NoDup nodes edges) H) as [? _].
Qed.

(** Rows of node [x] after a rewrite [G] of the rows that keeps ids. *)
Lemma rows_status_map (G : ComponentExecution -> ComponentExecution) x s ces :
  (forall ce, component_id (G ce) = component_id ce) ->
  (forall ce, ce ∈ ces -> component_id ce = x -> ce_status (G ce) = s) ->
  (exists ce, ce ∈ ces /\ component_id ce = x) ->
  (exists ce, ce ∈ map G ces /\ component_id ce = x)
  /\ forall ce, ce ∈ map G ces -> component_id ce = x -> ce_status ce = s.
Proof.
  intros Hid Hst (ce0 & Hin & Hx). split.
  - exists (G ce0). split; [by apply list_elem_of_fmap_2 | by rewrite Hid].
  - intros ce (ce1 & -> & Hin1)%list_elem_of_fmap Hce. rewrite Hid in Hce. by apply Hst.
Qed.

Lemma rows_exist_map (G : ComponentExecution -> ComponentExecution) x ces :
  (forall ce, component_id (G ce) = component_id ce) ->
  x ∈ map component_id ces ->
  exists ce, ce ∈ map G ces /\ component_id ce = x.
Proof.
  intros Hid (ce & -> & Hin)%list_elem_of_fmap.
  exists (G ce). split; [by apply list_elem_of_fmap_2 | done].
Qed.

Section FailFast.

Variable factory : ExecutorFactory.
Variables (nodes : list Node) (edges : list Edge).
Variables (pre : list string) (n : string) (post : list string).

Hypothesis edges_wf : forall e, e ∈ edges -> wf_edge e.
Hypothesis order_ok :
  calculate_execution_order (build_execution_graph nodes edges) nodes
  = Ok (pre ++ n :: post)%list.
Hypothesis reached : started n (execute_flow factory nodes edges).1.

Let order := (pre ++ n :: post)%list.
Let total := length order.
Let db0 := running_db nodes order.

Lemma order_NoDup : (n ∉ pre) /\ (n ∉ post) /\ forall m, m ∈ post -> m ∉ pre.
Proof.
  pose proof (calculate_Ok_NoDup _ _ _ order_ok) as Hnd.
  apply NoDup_app in Hnd as (_ & Hdisj & [Hn _]%NoDup_cons).
  split_and!; [|done|].
  - intros Hin. apply (Hdisj n Hin). left.
  - intros m Hm Hin. apply (Hdisj m Hin). by right.
Qed.

Lemma order_lookups x : x ∈ order -> is_Some (dict_get x (node_map nodes)).
Proof.
  destruct (execute_flow_no_run factory nodes edges n reached) as (_ & _ & o & Ho & Hall).
  rewrite order_ok in Ho. injection Ho as <-. apply Hall.
Qed.

Lemma rows0 :
  map component_id (component_executions db0) = order
  /\ forall ce, ce ∈ component_executions db0 -> ce_status ce = "pending".
Proof. apply pending_records_spec. intros x. apply order_lookups. Qed.

(** The run reaches [n]: the loop over the nodes before it returned. *)
Lemma reached_prefix :
  exists db1 outs1 node,
    run_order factory nodes edges total 0 pre [] db0 = (db1, Ok outs1)
    /\ dict_get n (node_map nodes) = Some node
    /\ execute_flow factory nodes edges
       = match run_node factory edges total (length pre) n node outs1 db1 with
         | (db2, Raise e) => execution_failure e db2
         | (db2, Ok outs2) =>
             match run_order factory nodes edges total (S (length pre)) post outs2 db2 with
             | (db3, Ok _) => finalize_execution db3
             | (db3, Raise e) => execution_failure e db3
             end
         end.
Proof.
  destruct (execute_flow_no_run factory nodes edges n reached) as (Hne & Hval & o & Ho & Hall).
  rewrite order_ok in Ho. injection Ho as <-.
  assert (execute_flow factory nodes edges
          = match run_order factory nodes edges total 0 (pre ++ n :: post) [] db0 with
            | (db1, Ok _) => finalize_execution db1
            | (db1, Raise e) => execution_failure e db1
            end) as Hrun.
  { exact (execute_flow_run factory nodes edges _ Hne Hval order_ok Hall). }
  rewrite run_order_app in Hrun.
  pose proof (run_order_frame factory nodes edges total pre 0 [] db0) as Hframe.
  destruct (run_order factory nodes edges total 0 pre [] db0) as [db1 [outs1|e]].
  - destruct (order_lookups n) as [node Hnode].
    { apply elem_of_app. right. left. }
    exists db1, outs1, node. split_and!; [done..|].
    rewrite Hrun. cbn [run_order]. unfold bind, lookup_node. rewrite Hnode. unfold ret.
    cbn [Nat.add].
    destruct (run_node factory edges total (length pre) n node outs1 db1) as [db2 [outs2|e]];
      [|done].
    by destruct (run_order _ _ _ _ _ _ _ _) as [db3 [?|?]].
  - exfalso. destruct Hframe as ((extra & Hextra & Hstarted) & _).
    pose proof reached as Hr. unfold started in Hr. rewrite Hrun in Hr.
    destruct (execution_failure_spec e db1) as (_ & _ & Hnot & _). rewrite Hnot in Hr.
    simpl in Hextra. rewrite Hextra in Hr.
    apply elem_of_app in Hr as [[?|Hr]%elem_of_cons|Hr]; [done | |].
    + apply Hstarted in Hr. destruct order_NoDup as (Hn & _). by apply Hn.
    + apply elem_of_cons in Hr as [?|Hr]; [done | by apply elem_of_nil in Hr].
Qed.


Lemma prefix_state db1 outs1 :
  run_order factory nodes edges total 0 pre [] db0 = (db1, Ok outs1) ->
  final_output (execution db1) = None
  /\ (forall m, m ∉ pre -> ~ started m db1)
  /\ exists F,
       component_executions db1 = map F (component_executions db0)
       /\ (forall ce, component_id (F ce) = component_id ce)
       /\ (forall ce, component_id ce ∉ pre -> F ce = ce).
Proof.
  intros Hrun.
  pose proof (run_order_frame factory nodes edges total pre 0 [] db0) as Hframe.
  rewrite Hrun in Hframe. simpl in Hframe.
  destruct Hframe as ((extra & Hextra & Hstarted) & HF & _ & _ & Hout).
  split_and!; [done | | done].
  intros m Hm Hin. unfold started in Hin. rewrite Hextra in Hin.
  apply elem_of_cons in Hin as [?|Hin]; [done|]. by apply Hm, Hstarted.
Qed.

Lemma prepare_ok node outs :
  exists input, prepare_component_input n edges outs node = Ok input.
Proof. by apply resolve_edges_total. Qed.





End FailFast.


(** C9. A snapshot without nodes: the execution is marked completed with
    the message ["No components to execute"] and returned; the result does
    not depend on the edges or on the executors, no component row is
    created and nothing is sent to the notifier. *)
Theorem empty_flow_completes factory edges :
  execute_flow factory [] edges
  = (mkDb (mkFlowExecution "completed" 0 0 0 (Some "No components to execute") None) [] [] [],
     Ok tt).
Proof. reflexivity. Qed.

(** Within the recursion limit, a cycle through listed nodes fails the
    flow: on a snapshot whose edges join listed nodes and whose graph has
    fewer ids than the interpreter allows nested calls, validation returns
    [False], the execution goes straight to [failed] with the structural
    error, no component row is created and no node is started. *)
Lemma listed_cycle_fails_the_flow factory frames nodes edges :
  edges_reference_nodes nodes edges ->
  has_a_cycle (build_execution_graph nodes edges) ->
  size (graph_ids (build_execution_graph nodes edges)) < frames ->
  validate_within frames (build_execution_graph nodes edges) nodes = Some false
  /\ execute_flow factory nodes edges
     = (mkDb (mkFlowExecution "failed" 0 (Z.of_nat (length nodes)) 0
                (Some "Invalid flow structure") None) [] [] [],
        Ok tt)
  /\ forall x, ~ started x (execute_flow factory nodes edges).1.
Proof.
  intros Hwf Hcyc Hframes.
  assert (validate_execution_graph (build_execution_graph nodes edges) nodes = false) as Hval.
  { apply validate_rejects_cycle; [|done]. intros e He. by apply Hwf. }
  assert (execute_flow factory nodes edges
          = (mkDb (mkFlowExecution "failed" 0 (Z.of_nat (length nodes)) 0
                     (Some "Invalid flow structure") None) [] [] [], Ok tt)) as Hrun.
  { unfold execute_flow, try_except, execute_flow_body.
    destruct nodes as [|node nodes]; [|by rewrite Hval].
    exfalso. destruct Hcyc as [c Hc].
    apply tc_nsteps in Hc as (k & Hk & Hsteps). destruct k as [|k]; [lia|].
    inversion Hsteps as [|? ? m ? Hcm _]; subst.
    apply build_deps in Hcm as (e & He & _ & _).
    destruct (Hwf e He) as [Hs _]. by apply elem_of_nil in Hs. }
  split_and!; [by rewrite validate_within_enough, Hval | done |].
  intros x. rewrite Hrun. unfold started. simpl. apply not_elem_of_nil.
Qed.

(** C3 (the code departs from it). One node [A] and two edges X -> Y and
    Y -> X between ids that are no nodes: the dependency graph has a cycle,
    yet validation, which starts its search from the listed nodes only and
    never checks that the ids of the graph are nodes, returns [True]
    whatever the recursion limit; the sort returns [A], and the run starts
    [A] and ends completed. *)
Theorem cycle_outside_the_nodes_passes_validation :
  let nodes := [example_node "A" "ok"] in
  let edges := [example_edge "X" "Y"; example_edge "Y" "X"] in
  let g := build_execution_graph nodes edges in
  let r := execute_flow example_factory nodes edges in
  has_a_cycle g
  /\ validate_execution_graph g nodes = true
  /\ (forall frames, validate_within (S frames) g nodes = Some true)
  /\ calculate_execution_order g nodes = Ok ["A"]
  /\ started "A" r.1
  /\ status (execution r.1) = "completed"
  /\ r.2 = Ok tt.
Proof.
  intros nodes edges g r. split_and!.
  - exists "X". apply (tc_l _ "X" "Y" "X"); [|apply tc_once];
      unfold dep; apply (bool_decide_unpack _); by vm_compute.
  - by vm_compute.
  - intros frames. unfold validate_within.
    apply (validate_nodes_mono g 1 (S frames)); [lia | by vm_compute].
  - by vm_compute.
  - unfold started. apply list_elem_of_lookup. exists 1. by vm_compute.
  - by vm_compute.
  - by vm_compute.
Qed.

(** C8 (the code departs from it). A flow of 50 independent nodes that
    all succeed completes and sends 50 progress values, but the 29th is 57:
    [int((29 / 50) * 100)] in double precision, where the exact
    floor of 29/50*100 is 58. *)
Theorem progress_is_not_the_floor :
  let r := execute_flow example_factory (independent_nodes 50) [] in
  r.2 = Ok tt
  /\ status (execution r.1) = "completed"
  /\ length (progress_values (notifications r.1)) = 50
  /\ progress_values (notifications r.1) !! 28 = Some 57%Z
  /\ percent 29 50 = Ok 57%Z
  /\ (29 * 100 / 50 = 58)%Z.
Proof. vm_compute. by split_and!. Qed.


(** ** The statements at concrete inputs *)

Lemma edges_reference_nodes_Forall nodes edges :
  Forall (fun e => source e ∈ node_ids nodes /\ target e ∈ node_ids nodes) edges ->
  edges_reference_nodes nodes edges.
Proof. intros H e He. by apply (proj1 (Forall_forall _ _) H). Qed.

Lemma acyclic_build_by_rank nodes edges (rank : string -> nat) :
  Forall (fun e => rank (source e) < rank (target e)) edges ->
  acyclic (build_execution_graph nodes edges).
Proof.
  intros H. apply (acyclic_by_rank _ rank). intros n m Hdep.
  apply build_deps in Hdep as (e & He & <- & <-).
  by apply (proj1 (Forall_forall _ _) H).
Qed.

Lemma linear_flow_wf ta tb tc e : e ∈ (linear_flow ta tb tc).2 -> wf_edge e.
Proof.
  intros [->|[->|?%elem_of_nil]%elem_of_cons]%elem_of_cons; done.
Qed.

Lemma execution_order_topological_witness :
  exists order,
    calculate_execution_order
      (build_execution_graph (linear_flow "ok" "ok" "ok").1 (linear_flow "ok" "ok" "ok").2)
      (linear_flow "ok" "ok" "ok").1 = Ok order
    /\ NoDup order
    /\ (forall n, n ∈ order <-> n ∈ node_ids (linear_flow "ok" "ok" "ok").1)
    /\ order ≡ₚ node_ids (linear_flow "ok" "ok" "ok").1
    /\ forall e, e ∈ (linear_flow "ok" "ok" "ok").2 -> before (source e) (target e) order.
Proof.
  apply (proj1 execution_order_topological).
  - apply (bool_decide_unpack _). by vm_compute.
  - apply edges_reference_nodes_Forall. apply (bool_decide_unpack _). by vm_compute.
  - apply (acyclic_build_by_rank _ _ example_rank).
    apply (bool_decide_unpack _). by vm_compute.
Defined.



Lemma resolve_named_field_witness :
  prepare_component_input "B" [example_edge "A" "B"] [("A", hi_output)] (example_node "B" "echo")
  = Ok [("text", PStr "hi")].
Proof. by apply (resolve_named_field "B" _ (example_edge "A" "B")). Defined.

Lemma resolve_nested_output_witness :
  let edge := mkEdge "A" "B" (Some "output") None DataAbsent in
  let node := example_node "B" "echo" in
  let configured := dict_update [] (default [] (input_values node)) in
  (forall field v,
     targetHandle edge = Some ("output." ++ field) ->
     dict_get ("output." ++ field) [("text", PStr "hi"); ("length", PInt 2)] = None ->
     dict_get field [("text", PStr "hi"); ("length", PInt 2)] = Some v ->
     prepare_component_input "B" [edge] [("A", hi_output)] node
     = Ok (dict_set ("output." ++ field) v configured))
  /\ (str_truthy (targetHandle edge) = false
      \/ (exists th, targetHandle edge = Some th
                     /\ dict_get th [("text", PStr "hi"); ("length", PInt 2)] = None
                     /\ startswith "output." th = false) ->
      prepare_component_input "B" [edge] [("A", hi_output)] node
      = Ok (dict_update configured [("text", PStr "hi"); ("length", PInt 2)]))
  /\ ([("text", PStr "hi"); ("length", PInt 2)] = [("text", PStr "hi"); ("length", PInt 2)] ->
      str_truthy (targetHandle edge) = false ->
      exists input_data,
        prepare_component_input "B" [edge] [("A", hi_output)] node = Ok input_data
        /\ dict_get "text" input_data = Some (PStr "hi")
        /\ dict_get "length" input_data = Some (PInt 2)).
Proof.
  by apply (resolve_nested_output "B" (example_node "B" "echo")
              (mkEdge "A" "B" (Some "output") None DataAbsent) [("A", hi_output)] hi_output).
Defined.





(** * Further properties of the code *)

(** ** The dependency graph and the order *)

(** X1. [_build_execution_graph] gives every node and every edge target
    exactly one entry, and the entry of [t] holds [s] exactly when some
    edge goes from [s] to [t] (repeated edges collapse). *)
Theorem build_execution_graph_spec nodes edges :
  NoDup (dict_keys (build_execution_graph nodes edges))
  /\ (forall k, k ∈ dict_keys (build_execution_graph nodes edges)
        <-> k ∈ node_ids nodes \/ exists e, e ∈ edges /\ target e = k)
  /\ (forall s t, s ∈ deps (build_execution_graph nodes edges) t
        <-> exists e, e ∈ edges /\ source e = s /\ target e = t).
Proof.
  split_and!; [apply build_NoDup | apply build_keys | apply build_deps].
Qed.

Lemma before_lookup (a b : string) l :
  before a b l <-> exists i j, i < j /\ l !! i = Some a /\ l !! j = Some b.
Proof.
  split.
  - intros (l1 & l2 & l3 & ->). exists (length l1), (length l1 + S (length l2)).
    split_and!; [lia | |].
    + by rewrite lookup_app_r, Nat.sub_diag by lia.
    + rewrite lookup_app_r by lia.
      replace (length l1 + S (length l2) - length l1) with (S (length l2)) by lia.
      simpl. by rewrite lookup_app_r, Nat.sub_diag by lia.
  - intros (i & j & Hij & Hi & Hj).
    apply list_elem_of_split_length in Hi as (l1 & l2' & -> & ->).
    rewrite lookup_app_r in Hj by lia.
    destruct (j - length l1) as [|k] eqn:Hk; [lia|]. simpl in Hj.
    apply list_elem_of_split_length in Hj as (l2 & l3 & -> & _).
    by exists l1, l2, l3.
Qed.

Lemma before_trans (a b c : string) l :
  NoDup l -> before a b l -> before b c l -> before a c l.
Proof.
  intros Hnd. rewrite !before_lookup.
  intros (i & j & Hij & Hi & Hj) (j' & k & Hjk & Hj' & Hk).
  assert (j = j') as <- by by eapply NoDup_lookup.
  exists i, k. split_and!; [lia | done | done].
Qed.

Lemma before_irrefl (a : string) l : NoDup l -> ~ before a a l.
Proof.
  intros Hnd. rewrite before_lookup. intros (i & j & Hij & Hi & Hj).
  assert (i = j) by by eapply NoDup_lookup. lia.
Qed.

Lemma before_elem (a b : string) l : before a b l -> a ∈ l /\ b ∈ l.
Proof.
  intros (l1 & l2 & l3 & ->). split.
  - apply elem_of_app. right. left.
  - apply elem_of_app. right. right. apply elem_of_app. right. left.
Qed.

(** Whatever a placed node reaches along dependencies was placed before. *)
Lemma kahn_reach_before g nodes order t s :
  NoDup (dict_keys g) ->
  kahn g nodes = Some order ->
  t ∈ order -> tc (dep g) t s -> before s t order.
Proof.
  intros Hg Hk Ht Hts.
  destruct (kahn_order_sound g nodes order Hg Hk) as (Hnd & _ & Hbefore).
  induction Hts as [t s Hts|t m s Htm _ IH].
  - by apply Hbefore.
  - pose proof (Hbefore m t Ht Htm) as Hmt.
    apply (before_trans s m t); [done | | done].
    apply IH. by apply before_elem in Hmt as [? _].
Qed.

(** No node on a cycle is ever placed. *)
Lemma kahn_skips_cycles g nodes order c :
  NoDup (dict_keys g) ->
  kahn g nodes = Some order ->
  tc (dep g) c c -> c ∉ order.
Proof.
  intros Hg Hk Hc Hin.
  destruct (kahn_order_sound g nodes order Hg Hk) as (Hnd & _ & _).
  by apply (before_irrefl c order Hnd), (kahn_reach_before g nodes).
Qed.

Lemma size_list_to_set_le (l : list string) : size (list_to_set l : gset string) <= length l.
Proof.
  induction l as [|x l IH].
  - change (list_to_set []) with (∅ : gset string). rewrite size_empty. simpl. lia.
  - change (list_to_set (x :: l)) with ({[ x ]} ∪ (list_to_set l : gset string)).
    destruct (decide (x ∈ (list_to_set l : gset string))) as [Hin|Hin].
    + assert ({[ x ]} ∪ list_to_set l = (list_to_set l : gset string)) as -> by set_solver.
      simpl. lia.
    + rewrite size_union by set_solver. rewrite size_singleton. simpl. lia.
Qed.

(** When the edge targets are listed nodes, a listed node that the sort
    does not place makes the length check fail. *)
Lemma missing_node_raises nodes edges order c :
  (forall e, e ∈ edges -> target e ∈ node_ids nodes) ->
  kahn (build_execution_graph nodes edges) nodes = Some order ->
  c ∈ node_ids nodes -> c ∉ order ->
  calculate_execution_order (build_execution_graph nodes edges) nodes
  = Raise "Unable to determine execution order - graph may contain cycles".
Proof.
  intros Hwf Hk Hc Hno.
  destruct (kahn_order_sound _ nodes order (build_NoDup nodes edges) Hk) as (Hnd & Hmem & _).
  unfold calculate_execution_order. rewrite Hk.
  rewrite bool_decide_eq_true_2; [done|].
  assert (list_to_set order ⊆ (list_to_set (node_ids nodes) : gset string) ∖ {[ c ]}) as Hsub.
  { intros x Hx%elem_of_list_to_set. apply elem_of_difference. split.
    - apply elem_of_list_to_set. apply Hmem in Hx as [[Hx|Hx] _]; [done|].
      apply build_keys in Hx as [Hx|(e & He & <-)]; [done | by apply Hwf].
    - intros ->%elem_of_singleton. by apply Hno. }
  apply subseteq_size in Hsub.
  assert (size (list_to_set order : gset string) = length order) as Hlen
    by by apply size_list_to_set.
  assert (size ((list_to_set (node_ids nodes) : gset string) ∖ {[ c ]})
          < size (list_to_set (node_ids nodes) : gset string)) as Hlt.
  { apply subset_size. split; [set_solver|]. intros H. specialize (H c).
    assert (c ∈ (list_to_set (node_ids nodes) : gset string)) as Hc'
      by by apply elem_of_list_to_set.
    apply H in Hc'. set_solver. }
  assert (size (list_to_set (node_ids nodes) : gset string) <= length nodes) as Hle.
  { unfold node_ids. rewrite <- (length_map node_id nodes). apply size_list_to_set_le. }
  lia.
Qed.

(** X3. A cycle among the nodes makes [_calculate_execution_order] raise:
    no node of the cycle is ever placed, so the length check fails. *)
Theorem cyclic_order_raises nodes edges :
  (forall e, e ∈ edges -> target e ∈ node_ids nodes) ->
  has_a_cycle (build_execution_graph nodes edges) ->
  calculate_execution_order (build_execution_graph nodes edges) nodes
  = Raise "Unable to determine execution order - graph may contain cycles".
Proof.
  intros Hwf [c Hc].
  destruct (kahn_total _ nodes (build_NoDup nodes edges)) as (order & deg & Hk & _).
  apply (missing_node_raises nodes edges order c); [done | done | |].
  - apply tc_nsteps in Hc as (k & Hk' & Hsteps). destruct k as [|k]; [lia|].
    inversion Hsteps as [|? ? m ? Hcm _]; subst.
    apply build_deps in Hcm as (e & He & _ & <-). by apply Hwf.
  - by apply (kahn_skips_cycles _ nodes order c (build_NoDup nodes edges)).
Qed.

(** X5. An edge whose source is not a node (its target being one, like
    every other target) also makes [_calculate_execution_order] raise: its
    target waits for a dependency that is never processed. *)
Theorem dangling_source_raises nodes edges e :
  (forall e', e' ∈ edges -> target e' ∈ node_ids nodes) ->
  e ∈ edges -> source e ∉ node_ids nodes ->
  calculate_execution_order (build_execution_graph nodes edges) nodes
  = Raise "Unable to determine execution order - graph may contain cycles".
Proof.
  intros Hwf He Hsrc.
  destruct (kahn_total _ nodes (build_NoDup nodes edges)) as (order & deg & Hk & _).
  destruct (kahn_order_sound _ nodes order (build_NoDup nodes edges) Hk) as (Hnd & Hmem & _).
  apply (missing_node_raises nodes edges order (target e)); [done | done | by apply Hwf |].
  intros Hin. apply Hmem in Hin as [_ Hdeps].
  assert (source e ∈ deps (build_execution_graph nodes edges) (target e)) as Hs.
  { apply build_deps. by exists e. }
  apply Hdeps, elem_of_list_to_set, Hmem in Hs as [[Hs|Hs] _]; [done|].
  apply build_keys in Hs as [Hs|(e' & He' & Ht)]; [done|].
  apply Hsrc. rewrite <- Ht. by apply Hwf.
Qed.

(** X2. Whatever the snapshot, an order that [_calculate_execution_order]
    returns has no repeated id, has as many ids as there are nodes, and
    places the source of every edge before its target whenever the target
    is placed. *)
Theorem returned_order_sound nodes edges order :
  calculate_execution_order (build_execution_graph nodes edges) nodes = Ok order ->
  NoDup order
  /\ length order = length nodes
  /\ forall e, e ∈ edges -> target e ∈ order -> before (source e) (target e) order.
Proof.
  intros Hcalc. pose proof (calculate_Ok_kahn _ _ _ Hcalc) as Hk.
  destruct (kahn_order_sound _ nodes order (build_NoDup nodes edges) Hk) as (Hnd & _ & Hb).
  split_and!; [done | |].
  - unfold calculate_execution_order in Hcalc. rewrite Hk in Hcalc.
    by case_bool_decide as Hlen.
  - intros e He Ht. apply Hb; [done|]. apply build_deps. by exists e.
Qed.

(** ** Validation is exact *)

(** A call of [has_cycle] that returns [False] leaves the recursion stack
    as it found it. *)
Lemma has_cycle_false_stack g fuel :
  forall n V R V' R',
    has_cycle fuel g n (V, R) = Some (false, (V', R')) -> R' = R.
Proof.
  induction fuel as [|fuel IH]; intros n V R V' R'; [done|].
  simpl. case_bool_decide as HnR; [done|].
  case_bool_decide as HnV; [by intros [= _ ->]|].
  assert (forall ds V0 R0 V1 R1,
            for_dependencies (has_cycle fuel g) ds (V0, R0) = Some (false, (V1, R1)) ->
            R1 = R0) as Hloop.
  { induction ds as [|d ds IHds]; intros V0 R0 V1 R1; simpl; [by intros [= _ ->]|].
    destruct (has_cycle fuel g d (V0, R0)) as [[[] [V2 R2]]|] eqn:Hd; [done| |done].
    apply IH in Hd as ->. apply IHds. }
  destruct (for_dependencies _ _ _) as [[[] [V2 R2]]|] eqn:Hfor; [done| |done].
  intros [= <- <-]. apply Hloop in Hfor as ->. set_solver.
Qed.

(** A call of [has_cycle] that returns [True] has met a node that reaches
    itself, provided every node of the recursion stack reaches the node
    the call is about. *)
Lemma has_cycle_true_cycle g fuel :
  forall n V R st',
    (forall r, r ∈ R -> tc (dep g) r n) ->
    has_cycle fuel g n (V, R) = Some (true, st') -> has_a_cycle g.
Proof.
  induction fuel as [|fuel IH]; intros n V R st' Hstack; [done|].
  simpl. case_bool_decide as HnR.
  { intros _. exists n. by apply Hstack. }
  case_bool_decide as HnV; [done|].
  assert (forall ds V0,
            (forall d, d ∈ ds -> d ∈ deps g n) ->
            forall st1,
              for_dependencies (has_cycle fuel g) ds (V0, {[ n ]} ∪ R) = Some (true, st1) ->
              has_a_cycle g) as Hloop.
  { induction ds as [|d ds IHds]; intros V0 Hds st1; simpl; [done|].
    destruct (has_cycle fuel g d (V0, {[ n ]} ∪ R)) as [[[] [V2 R2]]|] eqn:Hd; [| |done].
    - intros _. apply (IH d V0 ({[ n ]} ∪ R) (V2, R2)); [|done].
      assert (dep g n d) as Hnd by (apply Hds; left).
      intros r [->%elem_of_singleton|Hr]%elem_of_union; [by apply tc_once|].
      eapply tc_r; [by apply Hstack | done].
    - apply has_cycle_false_stack in Hd as ->.
      apply IHds. intros x Hx. apply Hds. by right. }
  destruct (for_dependencies _ _ _) as [[[] [V2 R2]]|] eqn:Hfor; [|done|done].
  intros _. apply (Hloop _ _ (fun d Hd => proj1 (elem_of_elements _ _) Hd) _ Hfor).
Qed.

Lemma validate_nodes_false_cycle g fuel nodes :
  forall V, validate_nodes fuel g nodes (V, ∅) = Some false -> has_a_cycle g.
Proof.
  induction nodes as [|node nodes IH]; intros V; simpl; [done|].
  case_bool_decide; [apply IH|].
  destruct (has_cycle fuel g (node_id node) (V, ∅)) as [[[] [V' R']]|] eqn:Hc; [| |done].
  - intros _. apply (has_cycle_true_cycle g fuel _ _ _ _ (fun r Hr => False_ind _ (not_elem_of_empty r Hr)) Hc).
  - apply has_cycle_false_stack in Hc as ->. apply IH.
Qed.

(** Validation rejects only graphs that have a cycle. *)
Lemma validate_false_cycle g nodes :
  validate_execution_graph g nodes = false -> has_a_cycle g.
Proof.
  unfold validate_execution_graph.
  destruct (validate_nodes_total g nodes) as [b Hb]. rewrite Hb. simpl. intros ->.
  by apply (validate_nodes_false_cycle g (S (size (graph_ids g))) nodes ∅).
Qed.

(** X4. When the edges join listed nodes and the graph has fewer ids than
    the interpreter allows nested calls of [has_cycle],
    [_validate_execution_graph] returns (no [RecursionError]), and it
    returns [True] exactly when the graph has no cycle. *)
Theorem validate_iff_acyclic frames nodes edges :
  edges_reference_nodes nodes edges ->
  size (graph_ids (build_execution_graph nodes edges)) < frames ->
  exists b,
    validate_within frames (build_execution_graph nodes edges) nodes = Some b
    /\ (b = true <-> acyclic (build_execution_graph nodes edges)).
Proof.
  intros Hwf Hframes.
  exists (validate_execution_graph (build_execution_graph nodes edges) nodes).
  split; [by apply validate_within_enough|]. split.
  - intros Hv c Hc.
    assert (validate_execution_graph (build_execution_graph nodes edges) nodes = false) as H.
    { apply validate_rejects_cycle; [|by exists c]. intros e He. by apply Hwf. }
    congruence.
  - intros Hacyc.
    destruct (validate_execution_graph _ nodes) eqn:Hv; [done|].
    apply validate_false_cycle in Hv as [c Hc]. by apply Hacyc in Hc.
Qed.

Lemma validate_iff_acyclic_witness :
  exists b,
    validate_within 1000
      (build_execution_graph (linear_flow "ok" "ok" "ok").1 (linear_flow "ok" "ok" "ok").2)
      (linear_flow "ok" "ok" "ok").1 = Some b
    /\ (b = true
        <-> acyclic
              (build_execution_graph (linear_flow "ok" "ok" "ok").1
                 (linear_flow "ok" "ok" "ok").2)).
Proof.
  apply (validate_iff_acyclic 1000).
  - apply edges_reference_nodes_Forall. apply (bool_decide_unpack _). by vm_compute.
  - assert (size (graph_ids (build_execution_graph (linear_flow "ok" "ok" "ok").1
                               (linear_flow "ok" "ok" "ok").2)) = 3) as -> by by vm_compute.
    lia.
Defined.

(** The recursion limit at work: the chain A -> B -> C, searched from its
    last node, needs three nested calls; with two frames validation raises,
    with three it returns. *)
Lemma validation_raises_beyond_the_frames :
  let nodes := [example_node "C" "ok"; example_node "B" "ok"; example_node "A" "ok"] in
  let g := build_execution_graph nodes (linear_flow "ok" "ok" "ok").2 in
  validate_within 2 g nodes = None /\ validate_within 3 g nodes = Some true.
Proof. by vm_compute. Qed.

Lemma cyclic_order_raises_witness :
  calculate_execution_order (build_execution_graph cyclic_flow.1 cyclic_flow.2) cyclic_flow.1
  = Raise "Unable to determine execution order - graph may contain cycles".
Proof.
  apply cyclic_order_raises.
  - apply (proj1 (Forall_forall _ _)). apply (bool_decide_unpack _). by vm_compute.
  - exists "A".
    apply (tc_l _ "A" "C" "A"); [|apply (tc_l _ "C" "B" "A"); [|apply tc_once]];
      unfold dep; apply (bool_decide_unpack _); by vm_compute.
Defined.

Lemma dangling_source_raises_witness :
  calculate_execution_order
    (build_execution_graph [example_node "A" "ok"] [example_edge "ghost" "A"])
    [example_node "A" "ok"]
  = Raise "Unable to determine execution order - graph may contain cycles".
Proof.
  apply (dangling_source_raises _ _ (example_edge "ghost" "A")).
  - apply (proj1 (Forall_forall _ _)). apply (bool_decide_unpack _). by vm_compute.
  - left.
  - apply (bool_decide_unpack _). by vm_compute.
Defined.

Lemma returned_order_sound_witness :
  NoDup ["A"; "B"; "C"]
  /\ length ["A"; "B"; "C"] = length (linear_flow "ok" "ok" "ok").1
  /\ forall e, e ∈ (linear_flow "ok" "ok" "ok").2 -> target e ∈ ["A"; "B"; "C"] ->
       before (source e) (target e) ["A"; "B"; "C"].
Proof.
  apply (returned_order_sound (linear_flow "ok" "ok" "ok").1 (linear_flow "ok" "ok" "ok").2).
  by vm_compute.
Defined.

(** ** Input resolution, branch by branch *)


(** ** More on input resolution *)

Lemma resolve_edges_app nid outs l1 l2 input_data :
  resolve_edges nid outs (l1 ++ l2) input_data
  = match resolve_edges nid outs l1 input_data with
    | Ok d => resolve_edges nid outs l2 d
    | Raise e => Raise e
    end.
Proof.
  revert input_data. induction l1 as [|e l1 IH]; intros input_data; simpl; [done|].
  destruct (resolve_edge nid outs input_data e); [apply IH | done].
Qed.

Lemma resolve_edge_other nid outs input_data e :
  target e <> nid -> resolve_edge nid outs input_data e = Ok input_data.
Proof. intros H. unfold resolve_edge. by rewrite (proj2 (String.eqb_neq _ _) H). Qed.

(** X6. Only the edges that point at the node matter: resolving over all
    edges is resolving over the incoming ones, in the same order. *)
Theorem prepare_component_input_incoming nid edges outs node :
  prepare_component_input nid edges outs node
  = prepare_component_input nid (filter (fun e => target e = nid) edges) outs node.
Proof.
  unfold prepare_component_input. generalize (dict_update [] (default [] (input_values node))).
  induction edges as [|e edges IH]; intros d; [done|].
  rewrite filter_cons. destruct (decide (target e = nid)) as [Ht|Ht]; simpl.
  - destruct (resolve_edge nid outs d e); [apply IH | done].
  - rewrite (resolve_edge_other _ _ _ _ Ht). apply IH.
Qed.

Lemma dict_keys_update_incl {V} (d o : list (string * V)) k :
  k ∈ dict_keys d -> k ∈ dict_keys (dict_update d o).
Proof.
  unfold dict_update. revert d. induction o as [|[k' v'] o IH]; intros d Hk; simpl; [done|].
  apply IH. apply elem_of_dict_keys_set. by right.
Qed.

Lemma dict_keys_update_new {V} (d o : list (string * V)) k :
  k ∈ dict_keys o -> k ∈ dict_keys (dict_update d o).
Proof.
  revert d. induction o as [|[k' v'] o IH]; intros d Hk.
  - by apply elem_of_nil in Hk.
  - apply elem_of_cons in Hk as [->|Hk]; [|by apply IH].
    apply (dict_keys_update_incl (dict_set k' v' d) o). apply elem_of_dict_keys_set. by left.
Qed.

Lemma apply_mappings_keys mappings content input_data d k :
  apply_mappings mappings content input_data = Ok d ->
  k ∈ dict_keys input_data -> k ∈ dict_keys d.
Proof.
  revert input_data. induction mappings as [|m ms IH]; intros input_data; simpl.
  - by intros [= ->].
  - destruct (outputVariable m) as [ov|]; [|done].
    destruct (targetVariable m) as [tv|]; [|done].
    intros Happ Hk. apply (IH _ Happ).
    destruct (dict_get ov content); [|done]. apply elem_of_dict_keys_set. by right.
Qed.

Lemma resolve_single_output_keys oc th input_data d k :
  resolve_single_output oc th input_data = Ok d ->
  k ∈ dict_keys input_data -> k ∈ dict_keys d.
Proof.
  intros H Hk.
  assert (forall t v, k ∈ dict_keys (dict_set t v input_data)) as Hset.
  { intros t v. apply elem_of_dict_keys_set. by right. }
  assert (forall o, k ∈ dict_keys (dict_update input_data o)) as Hupd.
  { intros o. by apply dict_keys_update_incl. }
  unfold resolve_single_output in H.
  destruct oc; destruct th as [th|]; try destruct (String.eqb th "");
    try (injection H as <-; done).
  destruct (dict_get th d0); [by injection H as <-|].
  destruct (contains_dot th && startswith "output." th); [|by injection H as <-].
  destruct (after_first_dot th) as [var|]; [|done].
  destruct (dict_get var d0); by injection H as <-.
Qed.

Lemma resolve_dotted_source_keys sh oc th input_data d k :
  resolve_dotted_source sh oc th input_data = Ok d ->
  k ∈ dict_keys input_data -> k ∈ dict_keys d.
Proof.
  intros H Hk.
  assert (forall t v, k ∈ dict_keys (dict_set t v input_data)) as Hset.
  { intros t v. apply elem_of_dict_keys_set. by right. }
  unfold resolve_dotted_source in H.
  destruct (after_first_dot sh) as [var|]; [|done].
  destruct oc; destruct th as [th|]; try (injection H as <-; done).
  destruct (dict_get var d0); [|by injection H as <-].
  destruct (String.eqb th ""); by injection H as <-.
Qed.

Lemma resolve_legacy_keys sh so th input_data k :
  k ∈ dict_keys input_data -> k ∈ dict_keys (resolve_legacy sh so th input_data).
Proof.
  intros Hk. unfold resolve_legacy.
  destruct so; destruct th as [th|]; try done.
  destruct (dict_get sh d); [|done]. destruct (String.eqb th ""); [done|].
  apply elem_of_dict_keys_set. by right.
Qed.

Lemma resolve_edge_keys nid outs input_data e d k :
  resolve_edge nid outs input_data e = Ok d ->
  k ∈ dict_keys input_data -> k ∈ dict_keys d.
Proof.
  unfold resolve_edge. intros H Hk.
  destruct (negb (String.eqb (target e) nid)); [by injection H as <-|].
  destruct (dict_get (source e) outs) as [so|]; [|by injection H as <-].
  destruct (sourceHandle e) as [sh|]; [|by injection H as <-].
  destruct (String.eqb sh ""); [by injection H as <-|].
  assert (match nested_output so with
          | Some output_content =>
              if String.eqb sh "output"
              then resolve_single_output output_content (targetHandle e) input_data
              else if contains_dot sh && startswith "output." sh
                   then resolve_dotted_source sh output_content (targetHandle e) input_data
                   else Ok (resolve_legacy sh so (targetHandle e) input_data)
          | None => Ok (resolve_legacy sh so (targetHandle e) input_data)
          end = Ok d -> k ∈ dict_keys d) as Hhandles.
  { clear H. destruct (nested_output so) as [oc|].
    - destruct (String.eqb sh "output").
      { intros H. by apply (resolve_single_output_keys _ _ _ _ _ H). }
      destruct (contains_dot sh && startswith "output." sh).
      { intros H. by apply (resolve_dotted_source_keys _ _ _ _ _ _ H). }
      intros [= <-]. by apply resolve_legacy_keys.
    - intros [= <-]. by apply resolve_legacy_keys. }
  destruct (data e) as [| |multi ms]; [by apply Hhandles | done |].
  destruct (multi && match ms with [] => false | _ => true end); [|by apply Hhandles].
  destruct (nested_output so) as [[]|]; try (injection H as <-; done).
  by apply (apply_mappings_keys _ _ _ _ _ H).
Qed.

(** X7. The resolver only adds or overwrites: every configured key is
    still a key of the resolved input map. *)
Theorem configured_keys_survive nid edges outs node input_data k :
  prepare_component_input nid edges outs node = Ok input_data ->
  k ∈ dict_keys (default [] (input_values node)) ->
  k ∈ dict_keys input_data.
Proof.
  unfold prepare_component_input. intros H Hk.
  assert (k ∈ dict_keys (dict_update ([] : list (string * pyval))
                           (default [] (input_values node)))) as Hk0.
  { by apply dict_keys_update_new. }
  revert H Hk0. generalize (dict_update [] (default [] (input_values node))).
  induction edges as [|e edges IH]; intros d; simpl.
  - by intros [= ->].
  - destruct (resolve_edge nid outs d e) as [d'|] eqn:He; [|done].
    intros H Hkd. apply (IH d' H). by apply (resolve_edge_keys _ _ _ _ _ _ He).
Qed.

(** The legacy branch: the source handle is a top-level key of the source
    output, which has no nested [output]. *)
Lemma resolve_edge_legacy nid outs input_data e so sh th v :
  target e = nid ->
  sourceHandle e = Some sh -> sh <> "" ->
  targetHandle e = Some th -> th <> "" ->
  is_multi_variable e = false -> data e <> DataNotDict ->
  dict_get (source e) outs = Some (PDict so) ->
  dict_get "output" so = None ->
  dict_get sh so = Some v ->
  resolve_edge nid outs input_data e = Ok (dict_set th v input_data).
Proof.
  intros Ht Hsh Hsh' Hth Hth' Hmulti Hdata Hso Hnested Hv.
  unfold resolve_edge. rewrite Ht, String.eqb_refl, Hso, Hsh. cbn [negb].
  rewrite (proj2 (String.eqb_neq _ _) Hsh').
  unfold is_multi_variable in Hmulti.
  assert (resolve_legacy sh (PDict so) (Some th) input_data = dict_set th v input_data) as Hl.
  { unfold resolve_legacy. by rewrite Hv, (proj2 (String.eqb_neq _ _) Hth'). }
  assert (nested_output (PDict so) = None) as Hn by done.
  destruct (data e) as [| |multi ms]; [|done|].
  - cbn [andb]. by rewrite Hn, Hth, Hl.
  - assert (multi && match ms with [] => false | _ => true end = false) as ->.
    { destruct multi, ms; done. }
    by rewrite Hn, Hth, Hl.
Qed.

(** X8. Last write wins: when the last edge copies a top-level field of
    its source output to a target handle, the resolved map holds that value
    under the handle, whatever the earlier edges assigned. *)
Theorem last_edge_wins nid edges e outs node so sh th v :
  (forall e', e' ∈ edges -> wf_edge e') ->
  target e = nid ->
  sourceHandle e = Some sh -> sh <> "" ->
  targetHandle e = Some th -> th <> "" ->
  is_multi_variable e = false -> data e <> DataNotDict ->
  dict_get (source e) outs = Some (PDict so) ->
  dict_get "output" so = None ->
  dict_get sh so = Some v ->
  exists input_data,
    prepare_component_input nid (edges ++ [e]) outs node = Ok input_data
    /\ dict_get th input_data = Some v.
Proof.
  intros Hwf Ht Hsh Hsh' Hth Hth' Hmulti Hdata Hso Hnested Hv.
  unfold prepare_component_input. rewrite resolve_edges_app.
  destruct (resolve_edges_total nid outs edges
              (dict_update [] (default [] (input_values node))) Hwf) as [d ->].
  simpl. rewrite (resolve_edge_legacy nid outs d e so sh th v) by done.
  eexists. split; [done | apply dict_get_set_eq].
Qed.

(** X9. Edge data that is not an object makes the resolver raise as soon
    as the edge is active (its source has an output and it has a source
    handle), provided the edges before it are well formed. *)
Theorem null_edge_data_raises nid edges e rest outs node so sh :
  (forall e', e' ∈ edges -> wf_edge e') ->
  target e = nid ->
  dict_get (source e) outs = Some so ->
  sourceHandle e = Some sh -> sh <> "" ->
  data e = DataNotDict ->
  prepare_component_input nid (edges ++ e :: rest) outs node
  = Raise "'NoneType' object has no attribute 'get'".
Proof.
  intros Hwf Ht Hso Hsh Hsh' Hdata.
  unfold prepare_component_input. rewrite resolve_edges_app.
  destruct (resolve_edges_total nid outs edges
              (dict_update [] (default [] (input_values node))) Hwf) as [d ->].
  simpl. unfold resolve_edge.
  by rewrite Ht, String.eqb_refl, Hso, Hsh, (proj2 (String.eqb_neq _ _) Hsh'), Hdata.
Qed.

Lemma apply_mappings_incomplete before_m m after_m content d :
  (forall m', m' ∈ before_m -> is_Some (outputVariable m') /\ is_Some (targetVariable m')) ->
  outputVariable m = None ->
  apply_mappings (before_m ++ m :: after_m) content d = Raise "'outputVariable'".
Proof.
  intros Hbefore Hm. revert d. induction before_m as [|m0 ms IH]; intros d; simpl.
  - by rewrite Hm.
  - destruct (Hbefore m0) as [[ov ->] [tv ->]]; [left|].
    apply IH. intros m' Hm'. apply Hbefore. by right.
Qed.

(** X10. A variable mapping that lacks [outputVariable] makes the
    resolver raise [KeyError] when it is reached: the edge is active, the
    source output nests a dict under [output], and the mappings before it
    are complete. *)
Theorem incomplete_mapping_raises nid e outs node so sh content before_m m after_m :
  target e = nid ->
  dict_get (source e) outs = Some so ->
  sourceHandle e = Some sh -> sh <> "" ->
  data e = DataDict true (before_m ++ m :: after_m) ->
  (forall m', m' ∈ before_m -> is_Some (outputVariable m') /\ is_Some (targetVariable m')) ->
  outputVariable m = None ->
  nested_output so = Some (PDict content) ->
  prepare_component_input nid [e] outs node = Raise "'outputVariable'".
Proof.
  intros Ht Hso Hsh Hsh' Hdata Hbefore Hm Hnested.
  unfold prepare_component_input. simpl. unfold resolve_edge.
  rewrite Ht, String.eqb_refl, Hso, Hsh, (proj2 (String.eqb_neq _ _) Hsh'), Hdata.
  assert ((true && match (before_m ++ m :: after_m)%list with [] => false | _ => true end)
          = true) as -> by by destruct before_m.
  rewrite Hnested. by rewrite apply_mappings_incomplete.
Qed.

Lemma apply_mappings_get mappings content input_data :
  (forall m, m ∈ mappings -> is_Some (outputVariable m) /\ is_Some (targetVariable m)) ->
  NoDup (map targetVariable mappings) ->
  exists d,
    apply_mappings mappings content input_data = Ok d
    /\ (forall m ov tv v, m ∈ mappings -> outputVariable m = Some ov ->
          targetVariable m = Some tv -> dict_get ov content = Some v ->
          dict_get tv d = Some v)
    /\ (forall k, Some k ∉ map targetVariable mappings -> dict_get k d = dict_get k input_data).
Proof.
  revert input_data. induction mappings as [|m ms IH]; intros input_data Hwf Hnd; simpl.
  - exists input_data. split_and!; [done | | done]. intros m ov tv v Hm. by apply elem_of_nil in Hm.
  - destruct (Hwf m) as [[ov Hov] [tv Htv]]; [left|]. rewrite Hov, Htv.
    apply NoDup_cons in Hnd as [Hfresh Hnd]. rewrite Htv in Hfresh.
    destruct (IH (match dict_get ov content with
                  | Some v => dict_set tv v input_data
                  | None => input_data
                  end) (fun m' Hm' => Hwf m' (list_elem_of_further _ _ _ Hm')) Hnd)
      as (d & -> & Hset & Hother).
    exists d. split_and!; [done | |].
    + intros m' ov' tv' v [->|Hm']%elem_of_cons Hov' Htv' Hv; [|by eapply Hset].
      rewrite Hov in Hov'. injection Hov' as <-. rewrite Htv in Htv'. injection Htv' as <-.
      rewrite (Hother tv Hfresh), Hv. apply dict_get_set_eq.
    + intros k Hk. apply not_elem_of_cons in Hk as [Hne Hk]. rewrite (Hother k Hk).
      destruct (dict_get ov content); [|done]. apply dict_get_set_ne. congruence.
Qed.

(** X11. An edge with variable mappings ignores the handles beyond
    their presence: when the source output nests a dict under [output] and
    the mappings are complete with distinct target variables, every mapping
    whose output variable exists copies it to its target variable, and no
    other key of the input map changes. *)
Theorem multi_variable_edge nid e outs input_data so sh content mappings :
  target e = nid ->
  dict_get (source e) outs = Some so ->
  sourceHandle e = Some sh -> sh <> "" ->
  data e = DataDict true mappings -> mappings <> [] ->
  (forall m, m ∈ mappings -> is_Some (outputVariable m) /\ is_Some (targetVariable m)) ->
  NoDup (map targetVariable mappings) ->
  nested_output so = Some (PDict content) ->
  exists d,
    resolve_edge nid outs input_data e = Ok d
    /\ (forall m ov tv v, m ∈ mappings -> outputVariable m = Some ov ->
          targetVariable m = Some tv -> dict_get ov content = Some v ->
          dict_get tv d = Some v)
    /\ (forall k, Some k ∉ map targetVariable mappings -> dict_get k d = dict_get k input_data).
Proof.
  intros Ht Hso Hsh Hsh' Hdata Hne Hwf Hnd Hnested.
  unfold resolve_edge.
  rewrite Ht, String.eqb_refl, Hso, Hsh, (proj2 (String.eqb_neq _ _) Hsh'), Hdata.
  assert ((true && match mappings with [] => false | _ => true end) = true) as ->
    by by destruct mappings.
  rewrite Hnested. by apply apply_mappings_get.
Qed.

(** X12. A source handle of the form [output.<field>] copies that field
    of the nested output to the target handle; it adds nothing when the
    field is absent or there is no target handle. *)
Theorem dotted_source_handle nid e outs input_data so content field :
  target e = nid ->
  dict_get (source e) outs = Some so ->
  sourceHandle e = Some ("output." ++ field) ->
  is_multi_variable e = false -> data e <> DataNotDict ->
  nested_output so = Some (PDict content) ->
  resolve_edge nid outs input_data e
  = Ok (match dict_get field content, targetHandle e with
        | Some v, Some th => if String.eqb th "" then input_data else dict_set th v input_data
        | _, _ => input_data
        end).
Proof.
  intros Ht Hso Hsh Hmulti Hdata Hnested.
  unfold resolve_edge. rewrite Ht, String.eqb_refl, Hso, Hsh.
  destruct (dotted_handle field) as (H1 & H2 & H3 & H4). rewrite H4.
  assert (String.eqb ("output." ++ field) "output" = false) as Hne.
  { apply String.eqb_neq. intros H. simpl in H. discriminate H. }
  unfold is_multi_variable in Hmulti.
  assert (resolve_dotted_source ("output." ++ field) (PDict content) (targetHandle e) input_data
          = Ok (match dict_get field content, targetHandle e with
                | Some v, Some th =>
                    if String.eqb th "" then input_data else dict_set th v input_data
                | _, _ => input_data
                end)) as Hd.
  { unfold resolve_dotted_source. rewrite H3.
    destruct (targetHandle e) as [th|]; destruct (dict_get field content); try done.
    by destruct (String.eqb th ""). }
  destruct (data e) as [| |multi ms]; [|done|].
  - cbn -[contains_dot startswith String.eqb append]. by rewrite Hnested, Hne, H1, H2.
  - assert (multi && match ms with [] => false | _ => true end = false) as ->.
    { destruct multi, ms; done. }
    by rewrite Hnested, Hne, H1, H2.
Qed.

Lemma configured_keys_survive_witness : "text" ∈ dict_keys [("text", PStr "hi")].
Proof.
  apply (configured_keys_survive "B" [example_edge "A" "B"] [("A", hi_output)]
           (mkNode "B" "echo" (Some [("text", PStr "configured")])) _ "text").
  - by vm_compute.
  - left.
Defined.

Lemma last_edge_wins_witness :
  exists input_data,
    prepare_component_input "D"
      ([mkEdge "A" "D" (Some "result") (Some "x") DataAbsent]
       ++ [mkEdge "C" "D" (Some "result") (Some "x") DataAbsent])
      [("A", PDict [("result", PInt 1)]); ("C", PDict [("result", PInt 2)])]
      (example_node "D" "echo") = Ok input_data
    /\ dict_get "x" input_data = Some (PInt 2).
Proof.
  apply (last_edge_wins "D" _ (mkEdge "C" "D" (Some "result") (Some "x") DataAbsent) _ _
           [("result", PInt 2)] "result" "x" (PInt 2)); try done.
  intros e [->|?%elem_of_nil]%elem_of_cons; done.
Defined.

Lemma null_edge_data_raises_witness :
  prepare_component_input "B"
    ([] ++ mkEdge "A" "B" (Some "output") (Some "text") DataNotDict :: [])
    [("A", hi_output)] (example_node "B" "echo")
  = Raise "'NoneType' object has no attribute 'get'".
Proof.
  apply (null_edge_data_raises "B" [] _ [] _ _ hi_output "output"); try done.
  intros e ?%elem_of_nil. done.
Defined.

Lemma incomplete_mapping_raises_witness :
  prepare_component_input "B"
    [mkEdge "A" "B" (Some "output") None
       (DataDict true ([mkMapping (Some "text") (Some "prompt")]
                       ++ mkMapping None (Some "size") :: []))]
    [("A", hi_output)] (example_node "B" "echo")
  = Raise "'outputVariable'".
Proof.
  apply (incomplete_mapping_raises "B" _ _ _ hi_output "output"
           [("text", PStr "hi"); ("length", PInt 2)]
           [mkMapping (Some "text") (Some "prompt")] (mkMapping None (Some "size")) []);
    try done.
  intros m [->|?%elem_of_nil]%elem_of_cons; [|done]. split; by eexists.
Defined.

Lemma multi_variable_edge_witness :
  let mappings := [mkMapping (Some "text") (Some "prompt"); mkMapping (Some "length") (Some "size")] in
  let e := mkEdge "A" "B" (Some "output") (Some "ignored") (DataDict true mappings) in
  exists d,
    resolve_edge "B" [("A", hi_output)] [("keep", PInt 7)] e = Ok d
    /\ (forall m ov tv v, m ∈ mappings -> outputVariable m = Some ov ->
          targetVariable m = Some tv ->
          dict_get ov [("text", PStr "hi"); ("length", PInt 2)] = Some v ->
          dict_get tv d = Some v)
    /\ (forall k, Some k ∉ map targetVariable mappings ->
          dict_get k d = dict_get k [("keep", PInt 7)]).
Proof.
  apply (multi_variable_edge "B" _ _ _ hi_output "output"); try done.
  - intros m [->|[->|?%elem_of_nil]%elem_of_cons]%elem_of_cons; [| |done]; split; by eexists.
  - apply (bool_decide_unpack _). by vm_compute.
Defined.

Lemma dotted_source_handle_witness :
  resolve_edge "B" [("A", hi_output)] []
    (mkEdge "A" "B" (Some ("output." ++ "length")) (Some "size") DataAbsent)
  = Ok (match dict_get "length" [("text", PStr "hi"); ("length", PInt 2)],
              targetHandle (mkEdge "A" "B" (Some ("output." ++ "length")) (Some "size") DataAbsent)
        with
        | Some v, Some th => if String.eqb th "" then [] else dict_set th v []
        | _, _ => []
        end).
Proof. by apply (dotted_source_handle "B" _ _ _ hi_output). Defined.

(** ** The progress computation *)

Lemma percent_table_entry bound n k :
  percent_table_ok bound = true ->
  1 <= n <= bound -> 1 <= k <= n ->
  percent_entry_ok n k = true.
Proof.
  unfold percent_table_ok. intros Htable Hn Hk.
  rewrite forallb_forall in Htable.
  assert (In n (seq 1 bound)) as Hin by (apply in_seq; lia).
  specialize (Htable n Hin). rewrite forallb_forall in Htable.
  apply Htable. apply in_seq. lia.
Qed.

Lemma percent_table_200 : percent_table_ok 200 = true.
Proof. by vm_compute. Qed.

(** X13. For flows of up to 200 components the progress computation
    [int((k / n) * 100)] never raises; its value lies between 0 and 100, is
    the exact floor of [100 k / n] or one below it, is 100 after the last
    component, and never decreases from one component to the next. *)
Theorem percent_small_flows (n k : nat) :
  1 <= k <= n -> n <= 200 ->
  exists p,
    percent (Z.of_nat k) (Z.of_nat n) = Ok p
    /\ (0 <= p <= 100)%Z
    /\ (100 * Z.of_nat k / Z.of_nat n - 1 <= p <= 100 * Z.of_nat k / Z.of_nat n)%Z
    /\ (k = n -> p = 100%Z)
    /\ exists q, percent (Z.of_nat (k - 1)) (Z.of_nat n) = Ok q /\ (q <= p)%Z.
Proof.
  intros Hk Hn.
  pose proof (percent_table_entry 200 n k percent_table_200 ltac:(lia) Hk) as H.
  unfold percent_entry_ok in H.
  destruct (percent (Z.of_nat k) (Z.of_nat n)) as [p|e]; [|done].
  destruct (percent (Z.of_nat (k - 1)) (Z.of_nat n)) as [q|e]; [|by rewrite andb_false_r in H].
  repeat (apply andb_prop in H as [H ?]).
  exists p. split_and!; try done; try lia.
  - intros ->. rewrite Nat.eqb_refl in *. lia.
  - exists q. split; [done | lia].
Qed.

Lemma percent_small_flows_witness :
  exists p,
    percent (Z.of_nat 29) (Z.of_nat 50) = Ok p
    /\ (0 <= p <= 100)%Z
    /\ (100 * Z.of_nat 29 / Z.of_nat 50 - 1 <= p <= 100 * Z.of_nat 29 / Z.of_nat 50)%Z
    /\ (29 = 50 -> p = 100%Z)
    /\ exists q, percent (Z.of_nat (29 - 1)) (Z.of_nat 50) = Ok q /\ (q <= p)%Z.
Proof. apply (percent_small_flows 50 29); lia. Defined.

(** ** Runs of [execute_flow] *)



Lemma started_ids_elem x ns : x ∈ started_ids ns <-> component_started x ∈ ns.
Proof.
  induction ns as [|n ns IH]; simpl.
  - by rewrite !elem_of_nil.
  - destruct n; rewrite ?elem_of_cons, IH; [| |naive_solver| | | |]; naive_solver.
Qed.

Section EngineMore.

Variable factory : ExecutorFactory.




Lemma order_within_nodes nodes edges order :
  (forall e, e ∈ edges -> target e ∈ node_ids nodes) ->
  calculate_execution_order (build_execution_graph nodes edges) nodes = Ok order ->
  forall x, x ∈ order -> x ∈ node_ids nodes.
Proof.
  intros Hwf Hcalc%calculate_Ok_kahn x Hx.
  destruct (kahn_order_sound _ nodes order (build_NoDup nodes edges) Hcalc) as (_ & Hmem & _).
  apply Hmem in Hx as [[Hx|Hx] _]; [done|].
  apply build_keys in Hx as [Hx|(e & He & <-)]; [done | by apply Hwf].
Qed.

End EngineMore.





Section StopAtRaise.

Variable factory : ExecutorFactory.
Variables (nodes : list Node) (edges : list Edge).
Variables (pre : list string) (n : string) (post : list string).

Hypothesis order_ok :
  calculate_execution_order (build_execution_graph nodes edges) nodes
  = Ok (pre ++ n :: post)%list.
Hypothesis reached : started n (execute_flow factory nodes edges).1.

(** Whatever makes the iteration of [n] raise, the run stops there. *)
Lemma stops_at_raise db1 outs1 node db2 e :
  run_order factory nodes edges (length (pre ++ n :: post)) 0 pre []
    (running_db nodes (pre ++ n :: post)) = (db1, Ok outs1) ->
  run_node factory edges (length (pre ++ n :: post)) (length pre) n node outs1 db1
  = (db2, Raise e) ->
  execute_flow factory nodes edges = execution_failure e db2 ->
  let r := execute_flow factory nodes edges in
  r.2 = Raise e
  /\ status (execution r.1) = "failed"
  /\ (e <> "" -> fe_error_message (execution r.1) = Some e)
  /\ final_output (execution r.1) = None
  /\ record_status n "failed" r.1
  /\ forall m, m ∈ post -> ~ started m r.1 /\ record_status m "pending" r.1.
Proof.
  intros Hpre Hnode Hrun r.
  destruct (prefix_state factory nodes edges pre n post db1 outs1 Hpre)
    as (Hout1 & Hns1 & F & HF & HFid & HFother).
  destruct (rows0 factory nodes edges pre n post order_ok reached) as [Hids Hpending].
  destruct (order_NoDup nodes edges pre n post order_ok) as (Hnpre & Hnpost & Hpostpre).
  pose proof (run_node_frame factory edges (length (pre ++ n :: post)) (length pre) n node
                outs1 db1) as Hframe.
  rewrite Hnode in Hframe.
  destruct Hframe as (f & rest & Hces & Hid & Hnot & Hrest & Hst & Hmsg & Hout & Hfailed & _).
  simpl in Hces, Hnot, Hst, Hmsg, Hout.
  unfold r. rewrite Hrun.
  destruct (execution_failure_spec e db2) as (H1 & H2 & H3 & H4 & H5 & H6).
  split_and!; [done | done | done | congruence | |].
  - unfold record_status. rewrite H2, Hces, HF.
    apply rows_status_map; [by intros; apply on_component_id | |].
    + intros ce _ Hce. unfold on_component. by rewrite Hce, String.eqb_refl.
    + apply rows_exist_map; [done|]. rewrite Hids. apply elem_of_app. right. left.
  - intros m Hm. assert (m <> n) as Hmn by (intros ->; done).
    split.
    + unfold started. rewrite H3, Hnot. intros [[Hin|Hin]%elem_of_app|Hin]%elem_of_app.
      * by apply (Hns1 m (Hpostpre m Hm)).
      * apply elem_of_cons in Hin as [[= ?]|Hin]; [done | by apply Hrest in Hin].
      * apply elem_of_cons in Hin as [?|Hin]; [done | by apply elem_of_nil in Hin].
    + unfold record_status. rewrite H2, Hces, HF.
      apply rows_status_map; [by intros; apply on_component_id | |].
      * intros ce (ce0 & -> & Hin0)%list_elem_of_fmap Hce. rewrite HFid in Hce.
        unfold on_component. rewrite HFid, Hce, (proj2 (String.eqb_neq _ _) Hmn).
        rewrite HFother by (rewrite Hce; by apply Hpostpre). by apply Hpending.
      * apply rows_exist_map; [done|]. rewrite Hids. apply elem_of_app. right. by right.
Qed.

End StopAtRaise.

(** X15. A component whose type has no registered executor stops the run
    when the loop reaches it: the call raises [Unknown component type: T],
    the row of the component and the execution are marked failed with that
    message, and the later nodes are neither started nor touched. *)
Theorem unknown_component_type_stops_run factory nodes edges pre n post node :
  (forall e, e ∈ edges -> wf_edge e) ->
  calculate_execution_order (build_execution_graph nodes edges) nodes
  = Ok (pre ++ n :: post)%list ->
  started n (execute_flow factory nodes edges).1 ->
  dict_get n (node_map nodes) = Some node ->
  factory (component_type node) = None ->
  let r := execute_flow factory nodes edges in
  let e := "Unknown component type: " ++ component_type node in
  r.2 = Raise e
  /\ status (execution r.1) = "failed"
  /\ fe_error_message (execution r.1) = Some e
  /\ final_output (execution r.1) = None
  /\ record_status n "failed" r.1
  /\ forall m, m ∈ post -> ~ started m r.1 /\ record_status m "pending" r.1.
Proof.
  intros Hwf Horder Hreached Hnode Hnone r e.
  destruct (reached_prefix factory nodes edges pre n post Horder Hreached)
    as (db1 & outs1 & node' & Hpre & Hnode' & Hrun).
  rewrite Hnode in Hnode'. injection Hnode' as <-.
  pose proof (run_node_frame factory edges (length (pre ++ n :: post)) (length pre) n node
                outs1 db1) as Hframe.
  destruct (run_node factory edges (length (pre ++ n :: post)) (length pre) n node outs1 db1)
    as [db2 [outs2|e']] eqn:Hrn.
  { exfalso. destruct Hframe as (f & rest & _ & _ & _ & _ & _ & _ & _ & Hex).
    destruct Hex as (input & ex & res & p & _ & Hfac & _). by rewrite Hnone in Hfac. }
  assert (e' = e) as ->.
  { destruct Hframe as (f & rest & _ & _ & _ & _ & _ & _ & _ & _ & _ & Hcause).
    destruct (prepare_ok edges n Hwf node outs1) as [input Hprep].
    destruct Hcause as [Hc|[[_ Hc]|[(input' & ex & _ & Hfac & _)
                                   |(input' & ex & res & _ & Hfac & _)]]].
    - by rewrite Hprep in Hc.
    - done.
    - by rewrite Hnone in Hfac.
    - by rewrite Hnone in Hfac. }
  destruct (stops_at_raise factory nodes edges pre n post Horder Hreached db1 outs1 node db2 e
              Hpre Hrn Hrun) as (H1 & H2 & H3 & H4 & H5 & H6).
  split_and!; try done. by apply H3.
Qed.

Lemma unknown_component_type_stops_run_witness :
  let nodes := (linear_flow "ok" "mystery" "ok").1 in
  let edges := (linear_flow "ok" "mystery" "ok").2 in
  let r := execute_flow example_factory nodes edges in
  let e := "Unknown component type: " ++ component_type (example_node "B" "mystery") in
  r.2 = Raise e
  /\ status (execution r.1) = "failed"
  /\ fe_error_message (execution r.1) = Some e
  /\ final_output (execution r.1) = None
  /\ record_status "B" "failed" r.1
  /\ forall m, m ∈ ["C"] -> ~ started m r.1 /\ record_status m "pending" r.1.
Proof.
  apply (unknown_component_type_stops_run example_factory (linear_flow "ok" "mystery" "ok").1
           (linear_flow "ok" "mystery" "ok").2 ["A"] "B" ["C"] (example_node "B" "mystery")).
  - apply linear_flow_wf.
  - by vm_compute.
  - unfold started. apply list_elem_of_lookup. exists 4. by vm_compute.
  - done.
  - done.
Defined.

Lemma order_lookup_cases nodes (order : list string) :
  (forall x, x ∈ order -> is_Some (dict_get x (node_map nodes)))
  \/ exists pre x post,
       order = (pre ++ x :: post)%list
       /\ (forall y, y ∈ pre -> is_Some (dict_get y (node_map nodes)))
       /\ dict_get x (node_map nodes) = None.
Proof.
  induction order as [|y order IH].
  - left. intros x Hx. by apply elem_of_nil in Hx.
  - destruct (dict_get y (node_map nodes)) as [node|] eqn:Hy.
    + destruct IH as [IH|(pre & x & post & -> & Hpre & Hx)].
      * left. intros x [->|Hx]%elem_of_cons; [by exists node | by apply IH].
      * right. exists (y :: pre), x, post. split_and!; [done | | done].
        intros z [->|Hz]%elem_of_cons; [by exists node | by apply Hpre].
    + right. exists [], y, order. split_and!; [done | | done].
      intros z Hz. by apply elem_of_nil in Hz.
Qed.

Lemma list_find_first_missing nodes pre x post :
  (forall y, y ∈ pre -> is_Some (dict_get y (node_map nodes))) ->
  dict_get x (node_map nodes) = None ->
  list_find (fun x => dict_get x (node_map nodes) = None) (pre ++ x :: post)
  = Some (length pre, x).
Proof.
  intros Hpre Hx. apply list_find_Some. split_and!.
  - by apply list_lookup_middle.
  - done.
  - intros j y Hj Hlt Hnone. rewrite lookup_app_l in Hj by done.
    apply list_elem_of_lookup_2, Hpre in Hj as [v Hv]. congruence.
Qed.

Lemma pending_records_app nodes pre x post i :
  (forall y, y ∈ pre -> is_Some (dict_get y (node_map nodes))) ->
  dict_get x (node_map nodes) = None ->
  pending_records i nodes (pre ++ x :: post) = pending_records i nodes pre.
Proof.
  revert i. induction pre as [|y pre IH]; intros i Hpre Hx; simpl.
  - by rewrite Hx.
  - destruct (Hpre y) as [node ->]; [left|]. f_equal. apply IH; [|done].
    intros z Hz. apply Hpre. by right.
Qed.

(** X16. An order that names an id which is no node (the snapshot has
    edges to and from ids that are not nodes, so that validation and the
    sort both pass) fails at row creation: the call raises the [KeyError] of
    the first such id, whose text is the [repr] of the id, the execution is
    marked failed with it, the rows of the ids before it are left pending,
    and no component is started. *)
Theorem unknown_id_in_order_raises factory nodes edges pre x post :
  nodes <> [] ->
  validate_execution_graph (build_execution_graph nodes edges) nodes = true ->
  calculate_execution_order (build_execution_graph nodes edges) nodes
  = Ok (pre ++ x :: post)%list ->
  (forall y, y ∈ pre -> y ∈ node_ids nodes) ->
  x ∉ node_ids nodes ->
  let r := execute_flow factory nodes edges in
  let e := py_repr x in
  r.2 = Raise e
  /\ status (execution r.1) = "failed"
  /\ fe_error_message (execution r.1) = Some e
  /\ map component_id (component_executions r.1) = pre
  /\ (forall ce, ce ∈ component_executions r.1 -> ce_status ce = "pending")
  /\ notifications r.1 = [execution_failed e].
Proof.
  intros Hne Hval Hcalc Hpre Hx r e.
  assert (forall y, y ∈ pre -> is_Some (dict_get y (node_map nodes))) as Hpre'.
  { intros y Hy. by apply node_map_keys, Hpre. }
  assert (dict_get x (node_map nodes) = None) as Hx'.
  { apply eq_None_not_Some. by rewrite node_map_keys. }
  destruct (pending_records_spec nodes pre Hpre' 0) as [Hids Hpending].
  assert (execute_flow factory nodes edges
          = execution_failure e
              (mkDb (execution (create_execution_record nodes))
                 (pending_records 0 nodes pre) [] [])) as Hrun.
  { unfold execute_flow, try_except, execute_flow_body.
    destruct nodes as [|node nodes]; [done|].
    rewrite Hval, Hcalc. cbn [negb].
    unfold bind at 1. unfold lift at 1.
    unfold bind at 1. unfold create_component_execution_records.
    rewrite create_records_from_spec, (list_find_first_missing _ pre x post Hpre' Hx').
    by rewrite (pending_records_app _ pre x post 0 Hpre' Hx'). }
  unfold r. rewrite Hrun.
  destruct (execution_failure_spec e
              (mkDb (execution (create_execution_record nodes))
                 (pending_records 0 nodes pre) [] [])) as (H1 & H2 & H3 & H4 & H5 & H6).
  split_and!; [done | done | by apply H5 | by rewrite H2 | by rewrite H2 | done].
Qed.

Lemma unknown_id_in_order_raises_witness :
  let nodes := [example_node "A" "ok"; example_node "B" "ok"] in
  let edges := [example_edge "X" "B"; example_edge "A" "it's"] in
  let r := execute_flow example_factory nodes edges in
  let e := py_repr "it's" in
  r.2 = Raise e
  /\ status (execution r.1) = "failed"
  /\ fe_error_message (execution r.1) = Some e
  /\ map component_id (component_executions r.1) = ["A"]
  /\ (forall ce, ce ∈ component_executions r.1 -> ce_status ce = "pending")
  /\ notifications r.1 = [execution_failed e].
Proof.
  apply (unknown_id_in_order_raises example_factory
           [example_node "A" "ok"; example_node "B" "ok"]
           [example_edge "X" "B"; example_edge "A" "it's"] ["A"] "it's" []).
  - done.
  - by vm_compute.
  - by vm_compute.
  - intros y Hy. apply (bool_decide_unpack _). revert y Hy. apply Forall_forall.
    apply (bool_decide_unpack _). by vm_compute.
  - apply (bool_decide_unpack _). by vm_compute.
Defined.

(** [repr] on some ids: plain; with a single quote (double quotes are
    used); with both quotes (the single one is escaped); with a backslash;
    with a tab and a control character. *)
Lemma py_repr_examples :
  py_repr "Y" = "'Y'"
  /\ py_repr "it's" = String double_quote ("it's" ++ String double_quote EmptyString)
  /\ py_repr (String double_quote "it's") = "'" ++ String double_quote "it\'s'"
  /\ py_repr "a\b" = "'a\\b'"
  /\ py_repr (String "009" (String "001" EmptyString)) = "'\t\x01'".
Proof. by vm_compute. Qed.

(** The four ways in which [execute_flow] ends. *)
Lemma execute_flow_cases factory nodes edges :
  let r := execute_flow factory nodes edges in
  (nodes = []
   /\ r = (mkDb (mkFlowExecution "completed" 0 0 0 (Some "No components to execute") None)
             [] [] [], Ok tt))
  \/ (validate_execution_graph (build_execution_graph nodes edges) nodes = false
      /\ r = (mkDb (mkFlowExecution "failed" 0 (Z.of_nat (length nodes)) 0
                      (Some "Invalid flow structure") None) [] [] [], Ok tt))
  \/ (exists e db, r = execution_failure e db /\ final_output (execution db) = None)
  \/ (exists db, r = finalize_execution db /\ final_output (execution db) = None).
Proof.
  intros r. unfold r.
  destruct nodes as [|node nodes]; [by left|]. right.
  destruct (validate_execution_graph (build_execution_graph (node :: nodes) edges)
              (node :: nodes)) eqn:Hval.
  2:{ left. split; [done|]. unfold execute_flow, try_except, execute_flow_body.
      by rewrite Hval. }
  right.
  destruct (calculate_execution_order (build_execution_graph (node :: nodes) edges)
              (node :: nodes)) as [order|e] eqn:Hcalc.
  2:{ left. exists e, (create_execution_record (node :: nodes)). split; [|done].
      unfold execute_flow, try_except, execute_flow_body. by rewrite Hval, Hcalc. }
  destruct (order_lookup_cases (node :: nodes) order)
    as [Hall|(pre & x & post & -> & Hpre & Hx)].
  - assert (node :: nodes <> []) as Hne by done.
    rewrite (execute_flow_run factory _ edges order Hne Hval Hcalc Hall).
    pose proof (run_order_frame factory (node :: nodes) edges (length order) order 0 []
                  (running_db (node :: nodes) order)) as (_ & _ & _ & _ & Hout).
    destruct (run_order _ _ _ _ _ _ _ _) as [db1 [outs|e]].
    + right. by exists db1.
    + left. by exists e, db1.
  - left. eexists _, _. split.
    + unfold execute_flow, try_except, execute_flow_body.
      rewrite Hval, Hcalc. cbn [negb].
      unfold bind at 1. unfold lift at 1.
      unfold bind at 1. unfold create_component_execution_records.
      rewrite create_records_from_spec, (list_find_first_missing _ pre x post Hpre Hx).
      done.
    + done.
Qed.

Lemma forallb_completed_inv ces :
  forallb (fun ce => String.eqb (ce_status ce) "completed") ces = true ->
  forall ce, ce ∈ ces -> ce_status ce = "completed".
Proof.
  intros H ce Hce%list_elem_of_In. rewrite forallb_forall in H.
  by apply String.eqb_eq, H.
Qed.

(** X17. However a run goes, [execute_flow] leaves the execution either
    completed or failed, never pending or running.  When the call raises,
    the execution is failed with the error and [execution_failed] is the
    last notification; when the execution is completed, the call returned
    and every component row is completed; when the call returns a failed
    execution, the message is one of the two fixed ones. *)
Theorem execute_flow_ends_completed_or_failed factory nodes edges :
  let r := execute_flow factory nodes edges in
  (status (execution r.1) = "completed" \/ status (execution r.1) = "failed")
  /\ (forall e, r.2 = Raise e ->
        status (execution r.1) = "failed"
        /\ (e <> "" -> fe_error_message (execution r.1) = Some e)
        /\ last (notifications r.1) = Some (execution_failed e))
  /\ (status (execution r.1) = "completed" ->
        r.2 = Ok tt
        /\ forall ce, ce ∈ component_executions r.1 -> ce_status ce = "completed")
  /\ (r.2 = Ok tt -> status (execution r.1) = "failed" ->
        fe_error_message (execution r.1) = Some "Invalid flow structure"
        \/ fe_error_message (execution r.1) = Some "One or more components failed").
Proof.
  intros r.
  destruct (execute_flow_cases factory nodes edges)
    as [[_ Hr]|[[_ Hr]|[(e & db & Hr & _)|(db & Hr & _)]]]; fold r in Hr; rewrite Hr.
  - simpl. split_and!; [by left | done | | done].
    intros _. split; [done|]. intros ce Hce. by apply elem_of_nil in Hce.
  - simpl. split_and!; [by right | done | done | by left].
  - destruct (execution_failure_spec e db) as (H1 & H2 & H3 & H4 & H5 & H6).
    split_and!.
    + by right.
    + intros e'. rewrite H1. intros [= <-]. split_and!; [done | done |].
      rewrite H3. apply last_snoc.
    + by rewrite H4.
    + by rewrite H1.
  - destruct (finalize_execution_spec db) as (H1 & H2 & (n & H3 & _) & Hfalse & Htrue).
    destruct (forallb (fun ce => String.eqb (ce_status ce) "completed")
                (component_executions db)) eqn:Hall.
    + destruct (Htrue eq_refl) as (S1 & S2 & S3).
      split_and!; [by left | by rewrite H1 | | by rewrite S1].
      intros _. split; [done|]. rewrite H2. by apply forallb_completed_inv.
    + destruct (Hfalse eq_refl) as (S1 & S2 & S3).
      split_and!; [by right | by rewrite H1 | by rewrite S1 | by right].
Qed.

Lemma collect_final_output_fold ces :
  forall acc k v,
    dict_get k
      (fold_left
         (fun acc ce =>
            match ce_output_data ce with
            | Some out =>
                if truthy out && is_output_type (ce_component_type ce)
                then dict_set (component_id ce) out acc else acc
            | None => acc
            end) ces acc) = Some v ->
    dict_get k acc = Some v
    \/ exists ce, ce ∈ ces /\ component_id ce = k /\ ce_output_data ce = Some v
                  /\ truthy v = true /\ is_output_type (ce_component_type ce) = true.
Proof.
  induction ces as [|ce ces IH]; intros acc k v; simpl; [by left|].
  intros [H|(ce' & Hin & H)]%IH.
  - destruct (ce_output_data ce) as [out|] eqn:Hout; [|by left].
    destruct (truthy out && is_output_type (ce_component_type ce)) eqn:Hq; [|by left].
    apply andb_prop in Hq as [Ht Hty].
    destruct (decide (k = component_id ce)) as [->|Hne].
    + rewrite dict_get_set_eq in H. injection H as <-.
      right. exists ce. split_and!; [left | done..].
    + rewrite dict_get_set_ne in H by done. by left.
  - right. exists ce'. split; [by right | done].
Qed.

Lemma collect_final_output_fold_Some ces :
  forall acc ce,
    ce ∈ ces ->
    (exists out, ce_output_data ce = Some out /\ truthy out = true)
    -> is_output_type (ce_component_type ce) = true ->
    is_Some (dict_get (component_id ce)
      (fold_left
         (fun acc ce =>
            match ce_output_data ce with
            | Some out =>
                if truthy out && is_output_type (ce_component_type ce)
                then dict_set (component_id ce) out acc else acc
            | None => acc
            end) ces acc)).
Proof.
  assert (forall ces acc k,
            is_Some (dict_get k acc) ->
            is_Some (dict_get k
              (fold_left
                 (fun acc ce =>
                    match ce_output_data ce with
                    | Some out =>
                        if truthy out && is_output_type (ce_component_type ce)
                        then dict_set (component_id ce) out acc else acc
                    | None => acc
                    end) ces acc))) as Hkeep.
  { induction ces0 as [|ce ces0 IH]; intros acc k Hk; simpl; [done|].
    apply IH. destruct (ce_output_data ce) as [out|]; [|done].
    destruct (truthy out && is_output_type (ce_component_type ce)); [|done].
    destruct (decide (k = component_id ce)) as [->|Hne].
    - rewrite dict_get_set_eq. by eexists.
    - by rewrite dict_get_set_ne. }
  induction ces as [|ce0 ces IH]; intros acc ce Hin (out & Hout & Ht) Hty.
  - by apply elem_of_nil in Hin.
  - apply elem_of_cons in Hin as [<-|Hin]; simpl.
    + apply Hkeep. rewrite Hout, Ht, Hty. simpl. rewrite dict_get_set_eq. by eexists.
    + apply IH; [done | by exists out | done].
Qed.

(** X18. The final output is stored only by a completed run, and it holds
    the outputs of the output components and nothing else: every entry is
    the non-empty output of a row of type [text_output], [file_output] or
    [data_output], filed under the id of that row, and every such row has
    an entry. *)
Theorem final_output_holds_output_components factory nodes edges out :
  final_output (execution (execute_flow factory nodes edges).1) = Some out ->
  let r := execute_flow factory nodes edges in
  status (execution r.1) = "completed"
  /\ r.2 = Ok tt
  /\ (forall k v, dict_get k out = Some v ->
        exists ce, ce ∈ component_executions r.1 /\ component_id ce = k
                   /\ ce_output_data ce = Some v /\ truthy v = true
                   /\ is_output_type (ce_component_type ce) = true)
  /\ (forall ce v, ce ∈ component_executions r.1 ->
        ce_output_data ce = Some v -> truthy v = true ->
        is_output_type (ce_component_type ce) = true ->
        is_Some (dict_get (component_id ce) out)).
Proof.
  intros Hsome r. unfold r.
  destruct (execute_flow_cases factory nodes edges)
    as [[_ Hr]|[[_ Hr]|[(e & db & Hr & Hnone)|(db & Hr & Hnone)]]];
    rewrite Hr in Hsome |- *.
  - done.
  - done.
  - destruct (execution_failure_spec e db) as (_ & _ & _ & _ & _ & H6). congruence.
  - destruct (finalize_execution_spec db) as (H1 & H2 & _ & Hfalse & Htrue).
    destruct (forallb (fun ce => String.eqb (ce_status ce) "completed")
                (component_executions db)) eqn:Hall.
    2:{ destruct (Hfalse eq_refl) as (_ & _ & S3). congruence. }
    destruct (Htrue eq_refl) as (S1 & _ & S3).
    rewrite S3 in Hsome. injection Hsome as <-. rewrite H2.
    split_and!; [done | done | |].
    + intros k v Hk. unfold collect_final_output in Hk.
      by apply collect_final_output_fold in Hk as [Hk|Hk].
    + intros ce v Hin Hout Ht Hty. apply collect_final_output_fold_Some; [done | | done].
      by exists v.
Qed.

Lemma final_output_holds_output_components_witness :
  let nodes := (linear_flow "ok" "text_output" "text_output").1 in
  let edges := (linear_flow "ok" "text_output" "text_output").2 in
  let out := [("B", PDict [("text", PStr "hi")])] in
  let r := execute_flow sink_factory nodes edges in
  status (execution r.1) = "completed"
  /\ r.2 = Ok tt
  /\ (forall k v, dict_get k out = Some v ->
        exists ce, ce ∈ component_executions r.1 /\ component_id ce = k
                   /\ ce_output_data ce = Some v /\ truthy v = true
                   /\ is_output_type (ce_component_type ce) = true)
  /\ (forall ce v, ce ∈ component_executions r.1 ->
        ce_output_data ce = Some v -> truthy v = true ->
        is_output_type (ce_component_type ce) = true ->
        is_Some (dict_get (component_id ce) out)).
Proof.
  apply (final_output_holds_output_components sink_factory
           (linear_flow "ok" "text_output" "text_output").1
           (linear_flow "ok" "text_output" "text_output").2
           [("B", PDict [("text", PStr "hi")])]).
  by vm_compute.
Defined.

Lemma map_row_key_on_component cid f ces :
  (forall ce, row_key (f ce) = row_key ce) ->
  map row_key (map (on_component cid f) ces) = map row_key ces.
Proof.
  intros Hf. rewrite map_map. apply map_ext. intros ce. unfold on_component.
  by destruct (String.eqb (component_id ce) cid).
Qed.

Section RowKeys.

Variable factory : ExecutorFactory.

(** An iteration rewrites rows but never their id, type or position. *)
Lemma run_node_keys edges total i nid node outs db :
  map row_key (component_executions (run_node factory edges total i nid node outs db).1)
  = map row_key (component_executions db).
Proof.
  unfold run_node, run_component, component_failure, try_except, bind, lift, get_executor,
    update_execution_progress, update_component_execution, update_component_status,
    log_execution, notify, modify, ret, raise, set_component, set_execution.
  cbn -[percent prepare_component_input].
  destruct (prepare_component_input nid edges outs node) as [input|e];
    [|cbn -[percent]; by rewrite !map_row_key_on_component].
  destruct (factory (component_type node)) as [executor|];
    [|cbn -[percent]; by rewrite !map_row_key_on_component].
  cbn -[percent].
  destruct (executor _) as [result|e]; [|cbn -[percent]; by rewrite !map_row_key_on_component].
  cbn -[percent].
  destruct (percent (Z.of_nat (i + 1)) (Z.of_nat total)) as [p|e];
    cbn; by rewrite !map_row_key_on_component.
Qed.

Lemma run_order_keys nodes edges total l :
  forall i outs db,
    map row_key (component_executions (run_order factory nodes edges total i l outs db).1)
    = map row_key (component_executions db).
Proof.
  induction l as [|nid l IH]; intros i outs db; [done|].
  cbn [run_order]. unfold bind.
  destruct (lookup_node_cases nodes nid db) as [(node & _ & ->)|(_ & ->)]; [|done].
  pose proof (run_node_keys edges total i nid node outs db) as Hk.
  destruct (run_node factory edges total i nid node outs db) as [db1 [outs1|e]]; [|done].
  by rewrite IH.
Qed.

End RowKeys.

Lemma pending_records_keys nodes order :
  (forall x, x ∈ order -> is_Some (dict_get x (node_map nodes))) ->
  forall i,
    map execution_order (pending_records i nodes order)
    = map Z.of_nat (seq i (length order))
    /\ forall ce, ce ∈ pending_records i nodes order ->
         exists node, dict_get (component_id ce) (node_map nodes) = Some node
                      /\ ce_component_type ce = component_type node.
Proof.
  induction order as [|nid order IH]; intros Hall i; simpl.
  - split; [done|]. intros ce Hce. by apply elem_of_nil in Hce.
  - destruct (Hall nid) as [node Hnode]; [left|]. rewrite Hnode.
    destruct (IH (fun x Hx => Hall x (list_elem_of_further _ _ _ Hx)) (S i)) as [IH1 IH2].
    simpl. split; [by rewrite IH1|].
    intros ce [->|Hce]%elem_of_cons; [by exists node | by apply IH2].
Qed.

(** X19. Once validation and the sort have passed on a snapshot whose
    edges point at listed nodes, the run has exactly one row per node,
    in execution order, numbered from 0 and carrying the type of its node,
    and nothing the loop or the executors do changes that. *)
Theorem rows_follow_execution_order factory nodes edges order :
  nodes <> [] ->
  (forall e, e ∈ edges -> target e ∈ node_ids nodes) ->
  validate_execution_graph (build_execution_graph nodes edges) nodes = true ->
  calculate_execution_order (build_execution_graph nodes edges) nodes = Ok order ->
  let r := execute_flow factory nodes edges in
  map component_id (component_executions r.1) = order
  /\ map execution_order (component_executions r.1) = map Z.of_nat (seq 0 (length nodes))
  /\ forall ce, ce ∈ component_executions r.1 ->
       exists node, dict_get (component_id ce) (node_map nodes) = Some node
                    /\ ce_component_type ce = component_type node.
Proof.
  intros Hne Hwf Hval Hcalc r.
  assert (forall x, x ∈ order -> is_Some (dict_get x (node_map nodes))) as Hall.
  { intros x Hx. apply node_map_keys. by apply (order_within_nodes nodes edges order). }
  assert (length order = length nodes) as Hlen.
  { unfold calculate_execution_order in Hcalc.
    destruct (kahn _ _); [|done]. case_bool_decide; [done|].
    injection Hcalc as <-. by destruct (decide (length l = length nodes)). }
  assert (map row_key (component_executions r.1)
          = map row_key (pending_records 0 nodes order)) as Hkeys.
  { unfold r. rewrite (execute_flow_run factory nodes edges order Hne Hval Hcalc Hall).
    pose proof (run_order_keys factory nodes edges (length order) order 0 []
                  (running_db nodes order)) as Hk.
    destruct (run_order _ _ _ _ _ _ _ _) as [db1 [outs|e]]; simpl in Hk.
    - destruct (finalize_execution_spec db1) as (_ & -> & _). done.
    - destruct (execution_failure_spec e db1) as (_ & -> & _). done. }
  destruct (pending_records_spec nodes order Hall 0) as [Hids _].
  destruct (pending_records_keys nodes order Hall 0) as [Hord Htypes].
  split_and!.
  - rewrite <- Hids.
    change (map component_id) with (map (fun ce => (row_key ce).1.1)).
    rewrite <- !(map_map row_key (fun k => k.1.1)). by rewrite Hkeys.
  - rewrite <- Hlen, <- Hord.
    change (map execution_order) with (map (fun ce => (row_key ce).2)).
    rewrite <- !(map_map row_key (fun k => k.2)). by rewrite Hkeys.
  - intros ce Hce.
    assert (row_key ce ∈ map row_key (pending_records 0 nodes order)) as Hk.
    { rewrite <- Hkeys. by apply list_elem_of_fmap_2. }
    apply list_elem_of_fmap in Hk as (ce0 & Heq & Hin0).
    destruct (Htypes ce0 Hin0) as (node & Hnode & Hty).
    unfold row_key in Heq. injection Heq as E1 E2 E3.
    exists node. by rewrite E1, E2.
Qed.

Lemma rows_follow_execution_order_witness :
  let nodes := (linear_flow "ok" "boom" "ok").1 in
  let edges := (linear_flow "ok" "boom" "ok").2 in
  let r := execute_flow example_factory nodes edges in
  map component_id (component_executions r.1) = ["A"; "B"; "C"]
  /\ map execution_order (component_executions r.1) = map Z.of_nat (seq 0 (length nodes))
  /\ forall ce, ce ∈ component_executions r.1 ->
       exists node, dict_get (component_id ce) (node_map nodes) = Some node
                    /\ ce_component_type ce = component_type node.
Proof.
  apply (rows_follow_execution_order example_factory (linear_flow "ok" "boom" "ok").1
           (linear_flow "ok" "boom" "ok").2 ["A"; "B"; "C"]).
  - done.
  - apply Forall_forall. apply (bool_decide_unpack _). by vm_compute.
  - by vm_compute.
  - by vm_compute.
Defined.





(** The same run, computed: [B] receives the text of [A] and passes it
    on; [C] finds no [output] key in what [B] returned, receives nothing
    and passes on the empty string. *)
Lemma text_output_run_computed :
  let nodes := (linear_flow "ok" "text_output" "text_output").1 in
  let edges := (linear_flow "ok" "text_output" "text_output").2 in
  outputs_after text_factory nodes edges ["A"; "B"; "C"] ["A"] = Ok [("A", hi_output)]
  /\ prepare_component_input "B" edges [("A", hi_output)] (example_node "B" "text_output")
     = Ok [("text", PStr "hi")]
  /\ final_output (execution (execute_flow text_factory nodes edges).1)
     = Some [("B", PDict [("text", PStr "hi"); ("formatted_output", PStr "hi")]);
             ("C", PDict [("text", PStr ""); ("formatted_output", PStr "")])].
Proof. by vm_compute. Qed.

(** ** The worker pool: invariants of the manager *)

(** X20. A start-up that fails before the process is registered (the
    script cannot be written or the process cannot be spawned) puts the
    manager back exactly as it was and raises [Failed to create flow
    process: ...]. *)
Theorem early_startup_failure_restores env config m e :
  env_ok m env ->
  port_pool m ## used_ports m ->
  startup env = script_error e \/ startup env = spawn_error e ->
  create_process env config m = (m, Raise ("Failed to create flow process: " ++ e)).
Proof.
  unfold env_ok, create_process. intros Hp Hdisj Hstart.
  rewrite bool_decide_eq_false_2 by set_solver.
  assert ({[popped env]} ∪ port_pool m ∖ {[popped env]} = port_pool m) as Hpool.
  { apply set_eq. intros x. destruct (decide (x = popped env)); set_solver. }
  assert (({[popped env]} ∪ used_ports m) ∖ {[popped env]} = used_ports m) as Hused.
  { apply set_eq. intros x. destruct (decide (x = popped env)); set_solver. }
  destruct Hstart as [->| ->]; rewrite Hpool, Hused; by destruct m.
Qed.

Lemma early_startup_failure_restores_witness :
  create_process (mkEnv 0 8100 (spawn_error "No such file") false (fun _ => false))
    (mkConfig "flow-a" "1") (new_manager 8100 50)
  = (new_manager 8100 50, Raise ("Failed to create flow process: " ++ "No such file")).
Proof.
  apply (early_startup_failure_restores
           (mkEnv 0 8100 (spawn_error "No such file") false (fun _ => false))
           (mkConfig "flow-a" "1") (new_manager 8100 50) "No such file").
  - unfold env_ok. apply elem_of_port_range. simpl. lia.
  - simpl. apply disjoint_empty_r.
  - by right.
Defined.

Lemma stop_process_fields env fp m :
  base_port (stop_process env fp m) = base_port m
  /\ max_processes (stop_process env fp m) = max_processes m
  /\ port_pool m ⊆ port_pool (stop_process env fp m)
  /\ processes (stop_process env fp m) ⊆ processes m.
Proof.
  unfold stop_process. destruct (terminate_raises env fp); simpl; [done|].
  split_and!; [done | done | set_solver | apply delete_subseteq].
Qed.

Lemma stop_process_registry_wf env fp m :
  registry_wf m -> registry_wf (stop_process env fp m).
Proof.
  intros Hwf key fp' Hkey.
  destruct (stop_process_fields env fp m) as (-> & -> & _ & Hsub).
  apply Hwf. by apply (lookup_weaken _ _ _ _ Hkey).
Qed.

(** The sweep, one stop at a time. *)
Lemma stop_all_spec env (l : list FlowProcess) :
  forall m,
    (forall fp, fp ∈ l -> port fp ∈ port_range (base_port m) (max_processes m)) ->
    let m' := fold_left (fun m' fp => stop_process env fp m') l m in
    base_port m' = base_port m
    /\ max_processes m' = max_processes m
    /\ port_pool m ⊆ port_pool m'
    /\ processes m' ⊆ processes m
    /\ (registry_wf m -> registry_wf m')
    /\ (ports_partition m -> ports_partition m').
Proof.
  induction l as [|fp l IH]; intros m Hports; simpl.
  - split_and!; done.
  - destruct (stop_process_fields env fp m) as (Hb & Hmax & Hpool & Hsub).
    destruct (IH (stop_process env fp m)) as (IH1 & IH2 & IH3 & IH4 & IH5 & IH6).
    { intros fp' Hfp'. rewrite Hb, Hmax. apply Hports. by right. }
    split_and!.
    + by rewrite IH1.
    + by rewrite IH2.
    + set_solver.
    + by etrans.
    + intros Hwf. by apply IH5, stop_process_registry_wf.
    + intros Hpart. apply IH6, stop_process_partition; [|done]. apply Hports. left.
Qed.

Lemma cleanup_idle_processes_spec env force m :
  registry_wf m ->
  let m' := cleanup_idle_processes env force m in
  base_port m' = base_port m
  /\ max_processes m' = max_processes m
  /\ port_pool m ⊆ port_pool m'
  /\ processes m' ⊆ processes m
  /\ registry_wf m'
  /\ (ports_partition m -> ports_partition m').
Proof.
  intros Hwf. unfold cleanup_idle_processes.
  match goal with |- context [fold_left _ ?l m] =>
    destruct (stop_all_spec env l m) as (H1 & H2 & H3 & H4 & H5 & H6)
  end.
  { intros fp [_ Hfp]%list_elem_of_filter.
    apply list_elem_of_fmap in Hfp as ([key fp'] & -> & Hin).
    apply elem_of_map_to_list in Hin. by apply (Hwf key fp'). }
  split_and!; try done. by apply H5.
Qed.

Lemma create_process_registry_wf env config m :
  env_ok m env -> ports_partition m -> registry_wf m ->
  registry_wf (create_process env config m).1.
Proof.
  unfold env_ok, create_process. intros Hp [_ Hunion] Hwf.
  case_bool_decide as Hempty; [done|].
  assert (popped env ∈ port_range (base_port m) (max_processes m)) as Hrange.
  { rewrite <- Hunion. set_solver. }
  destruct (startup env); unfold registry_wf; simpl; try done;
    (intros key fp [[<- <-]|[_ Hkey]]%lookup_insert_Some; [done | by apply Hwf]).
Qed.

(** X21. Every call of [get_or_create_process] in which [pop] hands out
    a port that was free at the start of the call keeps the books of the
    manager in order: the free and the used ports still partition the
    configured range, and every registered process is filed under the key
    of its own flow and version with a port of that range. *)
Theorem get_or_create_process_keeps_books env config m :
  env_ok m env ->
  ports_partition m -> registry_wf m ->
  let m' := (get_or_create_process env config m).1 in
  ports_partition m' /\ registry_wf m'
  /\ base_port m' = base_port m /\ max_processes m' = max_processes m.
Proof.
  intros Hp Hpart Hwf.
  assert (forall m1,
            base_port m1 = base_port m -> max_processes m1 = max_processes m ->
            port_pool m ⊆ port_pool m1 -> ports_partition m1 -> registry_wf m1 ->
            let m' :=
              (let m2 :=
                 if bool_decide (max_processes m1 <= Z.of_nat (size (processes m1)))%Z
                 then cleanup_idle_processes env false m1 else m1 in
               if bool_decide (max_processes m2 <= Z.of_nat (size (processes m2)))%Z
               then (m2, Raise "Maximum number of flow processes reached")
               else create_process env config m2).1 in
            ports_partition m' /\ registry_wf m'
            /\ base_port m' = base_port m /\ max_processes m' = max_processes m) as Hrest.
  { intros m1 Hb Hmax Hpool Hpart1 Hwf1.
    destruct (cleanup_idle_processes_spec env false m1 Hwf1) as (C1 & C2 & C3 & _ & C5 & C6).
    assert (exists m2,
              m2 = (if bool_decide (max_processes m1 <= Z.of_nat (size (processes m1)))%Z
                    then cleanup_idle_processes env false m1 else m1)
              /\ base_port m2 = base_port m /\ max_processes m2 = max_processes m
              /\ port_pool m ⊆ port_pool m2 /\ ports_partition m2 /\ registry_wf m2)
      as (m2 & <- & B2 & M2 & P2 & Part2 & Wf2).
    { eexists. split; [done|]. case_bool_decide; [|done].
      split_and!; [congruence | congruence | set_solver | by apply C6 | done]. }
    cbv zeta. case_bool_decide; [done|].
    assert (env_ok m2 env) as Hok by (unfold env_ok in *; set_solver).
    split_and!.
    - by apply create_process_partition.
    - by apply create_process_registry_wf.
    - unfold create_process. case_bool_decide; [done|]. by destruct (startup env).
    - unfold create_process. case_bool_decide; [done|]. by destruct (startup env). }
  unfold get_or_create_process.
  destruct (processes m !! _) as [fp|] eqn:Hfp.
  - destruct (healthy env).
    + simpl. split_and!; [done | | done | done].
      unfold registry_wf; simpl.
      intros key fp' [[<- <-]|[_ Hkey]]%lookup_insert_Some; [|by apply Hwf].
      simpl. destruct (Hwf _ _ Hfp) as [Hk Hport]. done.
    + destruct (stop_process_fields env fp m) as (S1 & S2 & S3 & _).
      apply Hrest; [done | done | done | |].
      * apply stop_process_partition; [|done]. by destruct (Hwf _ _ Hfp).
      * by apply stop_process_registry_wf.
  - by apply Hrest.
Qed.

Lemma new_manager_registry_wf base count : registry_wf (new_manager base count).
Proof. intros key fp Hkey. simpl in Hkey. by rewrite lookup_empty in Hkey. Qed.

Lemma get_or_create_process_keeps_books_witness :
  let env := mkEnv 0 8100 (became_ready 4242) false (fun _ => false) in
  let m' := (get_or_create_process env (mkConfig "flow-a" "1") (new_manager 8100 50)).1 in
  ports_partition m' /\ registry_wf m'
  /\ base_port m' = base_port (new_manager 8100 50)
  /\ max_processes m' = max_processes (new_manager 8100 50).
Proof.
  apply (get_or_create_process_keeps_books
           (mkEnv 0 8100 (became_ready 4242) false (fun _ => false))
           (mkConfig "flow-a" "1") (new_manager 8100 50)).
  - unfold env_ok. apply elem_of_port_range. simpl. lia.
  - apply new_manager_partition.
  - apply new_manager_registry_wf.
Defined.

Lemma stop_all_subseteq env (l : list FlowProcess) :
  forall m,
    let m' := fold_left (fun m' fp => stop_process env fp m') l m in
    max_processes m' = max_processes m /\ processes m' ⊆ processes m.
Proof.
  induction l as [|fp l IH]; intros m; simpl; [done|].
  destruct (stop_process_fields env fp m) as (_ & Hmax & _ & Hsub).
  destruct (IH (stop_process env fp m)) as [IH1 IH2].
  split; [congruence | by etrans].
Qed.

Lemma create_process_size env config m :
  let m' := (create_process env config m).1 in
  max_processes m' = max_processes m
  /\ size (processes m') <= S (size (processes m)).
Proof.
  cbv zeta. unfold create_process. case_bool_decide; [simpl; split; [done | lia]|].
  destruct (startup env); simpl; (split; [done|]); try lia;
    rewrite map_size_insert; destruct (processes m !! _); unfold id; lia.
Qed.

(** X22. [get_or_create_process] never lets the registry grow beyond
    [max_processes] entries, whatever the health probe, the sweep and the
    start-up do. *)
Theorem registry_stays_within_capacity env config m :
  within_capacity m ->
  within_capacity (get_or_create_process env config m).1.
Proof.
  unfold within_capacity. intros Hcap.
  assert (forall m1,
            max_processes m1 = max_processes m -> processes m1 ⊆ processes m ->
            let m' :=
              (let m2 :=
                 if bool_decide (max_processes m1 <= Z.of_nat (size (processes m1)))%Z
                 then cleanup_idle_processes env false m1 else m1 in
               if bool_decide (max_processes m2 <= Z.of_nat (size (processes m2)))%Z
               then (m2, Raise "Maximum number of flow processes reached")
               else create_process env config m2).1 in
            (Z.of_nat (size (processes m')) <= max_processes m')%Z) as Hrest.
  { intros m1 Hmax Hsub.
    assert (exists m2,
              m2 = (if bool_decide (max_processes m1 <= Z.of_nat (size (processes m1)))%Z
                    then cleanup_idle_processes env false m1 else m1)
              /\ max_processes m2 = max_processes m /\ processes m2 ⊆ processes m)
      as (m2 & <- & M2 & P2).
    { eexists. split; [done|]. case_bool_decide; [|done].
      unfold cleanup_idle_processes.
      match goal with |- context [fold_left _ ?l m1] =>
        destruct (stop_all_subseteq env l m1) as [H1 H2]
      end.
      split; [congruence | by etrans]. }
    cbv zeta. case_bool_decide as Hfull.
    - simpl. apply map_subseteq_size in P2. lia.
    - destruct (create_process_size env config m2) as [C1 C2]. lia. }
  unfold get_or_create_process.
  destruct (processes m !! _) as [fp|] eqn:Hfp.
  - destruct (healthy env).
    + simpl. by rewrite map_size_insert, Hfp.
    + destruct (stop_process_fields env fp m) as (_ & S2 & _ & S4). by apply Hrest.
  - by apply Hrest.
Qed.

Lemma registry_stays_within_capacity_witness :
  within_capacity
    (get_or_create_process (mkEnv 0 8100 (became_ready 4242) false (fun _ => false))
       (mkConfig "flow-a" "1") (new_manager 8100 1)).1.
Proof.
  apply (registry_stays_within_capacity
           (mkEnv 0 8100 (became_ready 4242) false (fun _ => false))
           (mkConfig "flow-a" "1") (new_manager 8100 1)).
  unfold within_capacity. simpl. rewrite map_size_empty. lia.
Defined.

(** The registry after a series of stops. *)
Lemma stop_all_lookup env (l : list FlowProcess) key v :
  forall m,
    processes (fold_left (fun m' fp => stop_process env fp m') l m) !! key = Some v
    <-> processes m !! key = Some v
        /\ forall fp, fp ∈ l ->
             get_process_key (flow_id fp) (flow_version fp) = key ->
             terminate_raises env fp = true.
Proof.
  induction l as [|fp l IH]; intros m; cbn [fold_left].
  - split; [|by intros [? _]]. intros H. split; [done|].
    intros fp Hfp. by apply elem_of_nil in Hfp.
  - rewrite IH. unfold stop_process at 1.
    destruct (terminate_raises env fp) eqn:Hraise.
    + split; intros [H1 H2]; (split; [done|]).
      * intros fp' [->|Hfp']%elem_of_cons; [done | by apply H2].
      * intros fp' Hfp'. apply H2. by right.
    + simpl. rewrite lookup_delete_Some. split.
      * intros [[Hne H1] H2]. split; [done|].
        intros fp' [->|Hfp']%elem_of_cons; [done | by apply H2].
      * intros [H1 H2]. split_and!; [|done|].
        -- intros Hk. specialize (H2 fp ltac:(left) Hk). congruence.
        -- intros fp' Hfp'. apply H2. by right.
Qed.

(** X23. The idle sweep removes exactly the workers it selects and can
    terminate: in a registry filed under the workers' own keys, an entry
    survives the sweep if and only if it was not selected (it has served a
    request within the last five minutes and the sweep is not forced) or
    its [terminate] raised. *)
Theorem idle_sweep_removes_idle_workers env force m key fp :
  registry_wf m ->
  processes (cleanup_idle_processes env force m) !! key = Some fp
  <-> processes m !! key = Some fp
      /\ ((force = false /\ ~ idle env fp) \/ terminate_raises env fp = true).
Proof.
  intros Hwf. unfold cleanup_idle_processes. rewrite stop_all_lookup.
  split; intros [Hkey H]; (split; [done|]).
  - destruct (terminate_raises env fp) eqn:Hraise; [by right|left].
    unfold idle.
    destruct (decide (force = true \/ (now env - last_request_time fp > 300)%Z))
      as [Hsel|Hsel].
    + exfalso. assert (terminate_raises env fp = true); [|congruence].
      apply H; [|by destruct (Hwf key fp Hkey)].
      apply list_elem_of_filter. split; [done|].
      apply list_elem_of_fmap. exists (key, fp). split; [done|].
      by apply elem_of_map_to_list.
    + split; [destruct force; tauto | tauto].
  - intros fp' [Hsel Hfp']%list_elem_of_filter Hk.
    apply list_elem_of_fmap in Hfp' as ([key' fp''] & -> & Hin).
    apply elem_of_map_to_list in Hin. simpl in *.
    destruct (Hwf key' fp'' Hin) as [Hk' _]. rewrite <- Hk' in Hk. subst key'.
    rewrite Hkey in Hin. injection Hin as <-.
    destruct H as [[Hf Hidle]|H]; [|done].
    exfalso. destruct Hsel as [Hsel|Hsel]; [congruence | by apply Hidle].
Qed.

Lemma idle_sweep_removes_idle_workers_witness :
  let fp := mkFlowProcess "flow-a" "1" 4242 8100 0 0 0 "ready" in
  let m := mkManager 8100 50 {[ "flow-a:1" := fp ]}
             (port_range 8101 49) {[ 8100%Z ]} in
  let env := mkEnv 1000 8101 (became_ready 4243) false (fun _ => false) in
  processes (cleanup_idle_processes env false m) !! "flow-a:1" = Some fp
  <-> processes m !! "flow-a:1" = Some fp
      /\ ((false = false /\ ~ idle env fp) \/ terminate_raises env fp = true).
Proof.
  apply (idle_sweep_removes_idle_workers
           (mkEnv 1000 8101 (became_ready 4243) false (fun _ => false)) false
           (mkManager 8100 50
              {[ "flow-a:1" := mkFlowProcess "flow-a" "1" 4242 8100 0 0 0 "ready" ]}
              (port_range 8101 49) {[ 8100%Z ]})
           "flow-a:1" (mkFlowProcess "flow-a" "1" 4242 8100 0 0 0 "ready")).
  unfold registry_wf. simpl.
  intros key fp [<- <-]%lookup_singleton_Some. split; [done|].
  apply elem_of_port_range. simpl. lia.
Defined.

Lemma app_colon_inj (a b v1 v2 : string) :
  ":"%char ∉ list_ascii_of_string a ->
  ":"%char ∉ list_ascii_of_string b ->
  a ++ ":" ++ v1 = b ++ ":" ++ v2 -> a = b /\ v1 = v2.
Proof.
  revert b. induction a as [|c a IH]; intros b Ha Hb Heq.
  - destruct b as [|c b]; simpl in Heq.
    + by injection Heq.
    + injection Heq as <- _. exfalso. apply Hb. simpl. left.
  - destruct b as [|c' b]; simpl in Heq.
    + injection Heq as -> _. exfalso. apply Ha. simpl. left.
    + injection Heq as <- Heq. simpl in Ha, Hb.
      apply not_elem_of_cons in Ha as [_ Ha]. apply not_elem_of_cons in Hb as [_ Hb].
      destruct (IH b Ha Hb Heq) as [-> ->]. done.
Qed.

(** X24. Process keys separate flows: two pairs of flow id and version
    whose ids hold no colon get the same key only if they are the same
    pair. Ids with a colon can collide. *)
Theorem process_key_separates_flows fid1 v1 fid2 v2 :
  ":"%char ∉ list_ascii_of_string fid1 ->
  ":"%char ∉ list_ascii_of_string fid2 ->
  (get_process_key fid1 v1 = get_process_key fid2 v2 <-> fid1 = fid2 /\ v1 = v2)
  /\ get_process_key "a:b" "c" = get_process_key "a" "b:c".
Proof.
  intros H1 H2. split; [|done]. split.
  - by apply app_colon_inj.
  - by intros [-> ->].
Qed.

Lemma process_key_separates_flows_witness :
  (get_process_key "flow-a" "1" = get_process_key "flow-b" "1"
   <-> "flow-a" = "flow-b" /\ "1" = "1")
  /\ get_process_key "a:b" "c" = get_process_key "a" "b:c".
Proof.
  apply (process_key_separates_flows "flow-a" "1" "flow-b" "1").
  - apply (bool_decide_unpack _). by vm_compute.
  - apply (bool_decide_unpack _). by vm_compute.
Defined.

(** X25. [_stop_process] either changes nothing (when [terminate]
    raises) or removes the entry filed under the key of the process, frees
    its port and leaves every other entry alone; stopping the same process
    again changes nothing more. *)
Theorem stop_process_releases_once env fp m :
  let key := get_process_key (flow_id fp) (flow_version fp) in
  let m' := stop_process env fp m in
  (terminate_raises env fp = true -> m' = m)
  /\ (terminate_raises env fp = false ->
        processes m' !! key = None
        /\ port fp ∈ port_pool m' /\ (port fp ∉ used_ports m')
        /\ forall k, k <> key -> processes m' !! k = processes m !! k)
  /\ stop_process env fp m' = m'.
Proof.
  intros key m'. unfold m', stop_process.
  destruct (terminate_raises env fp) eqn:Hraise; rewrite ?Hraise.
  - done.
  - simpl. split_and!; [done | |].
    + intros _. split_and!; [apply lookup_delete_eq | set_solver | set_solver |].
      intros k Hk. by apply lookup_delete_ne.
    + f_equal; [apply delete_delete_eq | set_solver | set_solver].
Qed.

Lemma filter_none {A} (P : A -> Prop) `{!forall x, Decision (P x)} (l : list A) :
  (forall x, x ∈ l -> ~ P x) -> filter P l = [].
Proof.
  induction l as [|x l IH]; intros Hno; [done|].
  rewrite filter_cons_False by (apply Hno; left).
  apply IH. intros y Hy. apply Hno. by right.
Qed.

Lemma swept_entry_gone env force m key fp :
  registry_wf m ->
  processes m !! key = Some fp ->
  force = true \/ idle env fp ->
  terminate_raises env fp = false ->
  processes (cleanup_idle_processes env force m) !! key = None.
Proof.
  intros Hwf Hkey Hsel Hraise. apply eq_None_not_Some. intros [v Hv].
  unfold cleanup_idle_processes in Hv. apply stop_all_lookup in Hv as [Hv Hall].
  assert (terminate_raises env fp = true); [|congruence].
  apply Hall; [|by destruct (Hwf key fp Hkey)].
  apply list_elem_of_filter. split; [done|].
  apply list_elem_of_fmap. exists (key, fp). split; [done|].
  by apply elem_of_map_to_list.
Qed.

(** X26. A request for a flow without a worker that finds the registry
    full: if no registered worker is idle, the call raises [Maximum number
    of flow processes reached] and leaves the manager as it was; if some
    worker is idle and can be terminated, the sweep makes room and the call
    goes on to create the process on the swept manager. *)
Theorem full_registry_sweeps_before_refusing env config m :
  processes m !! get_process_key (cfg_flow_id config) (cfg_flow_version config) = None ->
  (max_processes m <= Z.of_nat (size (processes m)))%Z ->
  ((forall k fp, processes m !! k = Some fp -> ~ idle env fp) ->
     get_or_create_process env config m
     = (m, Raise "Maximum number of flow processes reached"))
  /\ (within_capacity m -> registry_wf m ->
      forall k fp,
        processes m !! k = Some fp -> idle env fp -> terminate_raises env fp = false ->
        get_or_create_process env config m
        = create_process env config (cleanup_idle_processes env false m)).
Proof.
  intros Hkey Hfull. unfold get_or_create_process. rewrite Hkey.
  rewrite (bool_decide_eq_true_2 _ Hfull). split.
  - intros Hbusy.
    assert (cleanup_idle_processes env false m = m) as ->.
    { unfold cleanup_idle_processes. rewrite filter_none; [done|].
      intros fp Hfp [?|Hidle]; [done|].
      apply list_elem_of_fmap in Hfp as ([k fp'] & -> & Hin).
      apply elem_of_map_to_list in Hin. by apply (Hbusy k fp'). }
    by rewrite (bool_decide_eq_true_2 _ Hfull).
  - intros Hcap Hwf k fp Hk Hidle Hraise.
    rewrite bool_decide_eq_false_2; [done|].
    destruct (cleanup_idle_processes_spec env false m Hwf) as (_ & -> & _ & Hsub & _).
    pose proof (swept_entry_gone env false m k fp Hwf Hk (or_intror Hidle) Hraise) as Hgone.
    assert (processes (cleanup_idle_processes env false m) ⊆ delete k (processes m)) as Hsub'.
    { apply map_subseteq_spec. intros i x Hi. apply lookup_delete_Some. split.
      - intros ->. congruence.
      - by apply (lookup_weaken _ _ _ _ Hi). }
    apply map_subseteq_size in Hsub'.
    rewrite map_size_delete_Some in Hsub' by (by eexists).
    assert (size (processes m) <> 0).
    { intros H0%map_size_empty_inv. rewrite H0 in Hk. by rewrite lookup_empty in Hk. }
    unfold within_capacity in Hcap. lia.
Qed.

Lemma full_registry_sweeps_before_refusing_witness :
  let fp := mkFlowProcess "flow-a" "1" 4242 8100 0 0 0 "ready" in
  let m := mkManager 8100 1 {[ "flow-a:1" := fp ]} ∅ {[ 8100%Z ]} in
  let env := mkEnv 1000 8100 (became_ready 4243) false (fun _ => false) in
  let config := mkConfig "flow-b" "1" in
  ((forall k fp, processes m !! k = Some fp -> ~ idle env fp) ->
     get_or_create_process env config m
     = (m, Raise "Maximum number of flow processes reached"))
  /\ (within_capacity m -> registry_wf m ->
      forall k fp,
        processes m !! k = Some fp -> idle env fp -> terminate_raises env fp = false ->
        get_or_create_process env config m
        = create_process env config (cleanup_idle_processes env false m)).
Proof.
  apply (full_registry_sweeps_before_refusing
           (mkEnv 1000 8100 (became_ready 4243) false (fun _ => false))
           (mkConfig "flow-b" "1")
           (mkManager 8100 1
              {[ "flow-a:1" := mkFlowProcess "flow-a" "1" 4242 8100 0 0 0 "ready" ]}
              ∅ {[ 8100%Z ]})).
  - by vm_compute.
  - simpl. rewrite map_size_singleton. lia.
Defined.

(** X27. While every registered process holds a port that is marked
    used, a process that starts up successfully is registered with a port
    that no process under another key holds. *)
Theorem new_worker_gets_a_fresh_port env config m pid :
  env_ok m env ->
  port_pool m ## used_ports m ->
  (forall k fp, processes m !! k = Some fp -> port fp ∈ used_ports m) ->
  startup env = became_ready pid ->
  let key := get_process_key (cfg_flow_id config) (cfg_flow_version config) in
  let r := create_process env config m in
  exists fp,
    r.2 = Ok fp /\ live r.1 key fp /\ port fp = popped env
    /\ port fp ∈ used_ports r.1
    /\ (forall k fp', k <> key -> processes r.1 !! k = Some fp' -> port fp' <> port fp)
    /\ (forall k fp', processes r.1 !! k = Some fp' -> port fp' ∈ used_ports r.1).
Proof.
  intros Hp Hdisj Hused Hstart key r. unfold r, create_process. unfold env_ok in Hp.
  rewrite bool_decide_eq_false_2 by set_solver. rewrite Hstart. simpl.
  eexists. split_and!; [done | | done | apply elem_of_union_l; by apply elem_of_singleton | |].
  - split; [apply lookup_insert_eq | done].
  - intros k fp' Hk Hfp'. rewrite lookup_insert_ne in Hfp' by (intros Heq; by apply Hk).
    simpl. apply Hused in Hfp'. intros Heq. rewrite Heq in Hfp'.
    by apply (Hdisj (popped env)).
  - intros k fp' [[_ <-]|[_ Hfp']]%lookup_insert_Some; simpl.
    + apply elem_of_union_l. by apply elem_of_singleton.
    + apply elem_of_union_r. by apply (Hused k).
Qed.

Lemma new_worker_gets_a_fresh_port_witness :
  let env := mkEnv 0 8100 (became_ready 4242) false (fun _ => false) in
  let key := get_process_key (cfg_flow_id (mkConfig "flow-a" "1"))
               (cfg_flow_version (mkConfig "flow-a" "1")) in
  let r := create_process env (mkConfig "flow-a" "1") (new_manager 8100 50) in
  exists fp,
    r.2 = Ok fp /\ live r.1 key fp /\ port fp = popped env
    /\ port fp ∈ used_ports r.1
    /\ (forall k fp', k <> key -> processes r.1 !! k = Some fp' -> port fp' <> port fp)
    /\ (forall k fp', processes r.1 !! k = Some fp' -> port fp' ∈ used_ports r.1).
Proof.
  apply (new_worker_gets_a_fresh_port
           (mkEnv 0 8100 (became_ready 4242) false (fun _ => false))
           (mkConfig "flow-a" "1") (new_manager 8100 50) 4242).
  - unfold env_ok. apply elem_of_port_range. simpl. lia.
  - simpl. apply disjoint_empty_r.
  - intros k fp Hk. simpl in Hk. by rewrite lookup_empty in Hk.
  - done.
Defined.
